(** * CacheUtil: the object cache shared by Host and Client

    A shallow embedding of [components/util/CacheUtil.js]: the secondary
    indices ([_Index], [IndexSet]), the endpoint base class
    ([CacheEndpointBase]), the Host endpoint with its public commands and
    the Client endpoint with its merge, removal and optimistic mutations.

    JavaScript objects that the cache stores are kept in an explicit heap,
    so that two references to one object are one location: the cache's
    [list], [map] and indices hold locations, and a merge writes into the
    object at a location.  Events, hook calls, console output and remote
    calls are appended to a trace in program order.

    What the cache takes from elsewhere is a parameter: the engine's
    conversion of strings to numbers ([Js.Engine]), the deep comparison
    of AngularJS ([Angular.DeepEquality]), the store behind the Host
    ([Host.Model]) and the reply of the Host to the Client
    ([Client.HostReply]).  The scenarios instantiate them. *)

From stdpp Require Import gmap strings list fin_maps pretty.
From Stdlib Require Import ZArith Ascii.

Set Warnings "-register-all".

(** ** JavaScript values and the coercions the cache relies on *)

Module Js.

(** A property value.  Numbers are the integers and NaN.  [VObj ref props]
    is a nested plain object: [ref] identifies the object (two values are
    the same object exactly when their [ref]s agree) and [props] lists its
    own enumerable properties, each name once.  The cache never writes into
    a nested object, so the content travels with the reference.  Arrays,
    dates, regular expressions and functions are not part of the model. *)
Inductive Value :=
| VUndefined
| VNull
| VBool (b : bool)
| VNum (n : Z)
| VNaN
| VStr (s : string)
| VObj (ref : nat) (props : list (string * Value)).

(** The result of converting to a number: NaN, an integer, or some other
    number (a fraction or an infinity), which is all the cache can tell. *)
Inductive Number :=
| NNaN
| NInt (n : Z)
| NOther.

(** The engine's conversion of a string to a number (ECMAScript
    [StringToNumber]) is not code of the cache; the development is
    parametric in it. *)
Class Engine := { StringToNumber : string → Number }.

(** The names that a plain object [{}] answers to without having them as
    properties of its own: the members of [Object.prototype]
    ([constructor], [toString], ...) and [__proto__].  Which they are is
    the engine's business, and that of any library that extends the
    prototype; the development is parametric in them.  A plain object
    used as a dictionary finds an inherited member under such a name,
    and a write to [__proto__] changes what it inherits.  The model
    follows the registry of the Host there; in the nodes of an index it
    follows own properties only, and the statements about indices leave
    the inherited names out (see [Inv.plainPath]). *)
Class Prototype := { inherits : string → bool }.

(** [obj[key]] on a nested object: [undefined] when the property is absent. *)
Definition objGet (props : list (string * Value)) (key : string) : Value :=
  match List.find (λ kv, String.eqb (fst kv) key) props with
  | Some kv => snd kv
  | None => VUndefined
  end.

(** [Number(v)]: a plain object converts through ["[object Object]"]. *)
Definition ToNumber `{Engine} (v : Value) : Number :=
  match v with
  | VUndefined => NNaN
  | VNull => NInt 0
  | VBool b => NInt (if b then 1 else 0)
  | VNum n => NInt n
  | VNaN => NNaN
  | VStr s => StringToNumber s
  | VObj _ _ => NNaN
  end.

(** The global [isNaN]. *)
Definition isNaN `{Engine} (v : Value) : bool :=
  match ToNumber v with
  | NNaN => true
  | _ => false
  end.

(** [Boolean(v)], the test of [if (v)] and of [!v]. *)
Definition ToBoolean (v : Value) : bool :=
  match v with
  | VUndefined | VNull | VNaN => false
  | VBool b => b
  | VNum n => negb (n =? 0)%Z
  | VStr s => negb (String.eqb s "")
  | VObj _ _ => true
  end.

(** The property name a value denotes in [o[v]]. *)
Definition ToPropertyKey (v : Value) : string :=
  match v with
  | VUndefined => "undefined"
  | VNull => "null"
  | VBool b => if b then "true" else "false"
  | VNum n => pretty n
  | VNaN => "NaN"
  | VStr s => s
  | VObj _ _ => "[object Object]"
  end.

Definition numberEq (a b : Number) : bool :=
  match a, b with
  | NInt x, NInt y => (x =? y)%Z
  | _, _ => false
  end.

(** [a === b]. *)
Definition strictEq (a b : Value) : bool :=
  match a, b with
  | VUndefined, VUndefined => true
  | VNull, VNull => true
  | VBool x, VBool y => Bool.eqb x y
  | VNum x, VNum y => (x =? y)%Z
  | VStr x, VStr y => String.eqb x y
  | VObj r1 _, VObj r2 _ => (r1 =? r2)%nat
  | _, _ => false
  end.

(** [a == b], the abstract equality comparison. *)
Definition looseEq `{Engine} (a b : Value) : bool :=
  match a, b with
  | (VUndefined | VNull), (VUndefined | VNull) => true
  | (VUndefined | VNull), _ | _, (VUndefined | VNull) => false
  | VStr x, VStr y => String.eqb x y
  | VObj r1 _, VObj r2 _ => (r1 =? r2)%nat
  | VObj _ _, VStr y => String.eqb "[object Object]" y
  | VStr x, VObj _ _ => String.eqb x "[object Object]"
  | _, _ => numberEq (ToNumber a) (ToNumber b)
  end.

(** *** A reference engine for the examples

    It reads the empty string and signed decimal integer literals as
    integers and every other string as NaN; this is what ECMAScript does
    on the strings the examples use (which hold no digit, blank or
    [Infinity] unless they are such literals). *)

Definition digitValue (c : Ascii.ascii) : option Z :=
  let n := Z.of_N (Ascii.N_of_ascii c) in
  if ((48 <=? n) && (n <=? 57))%Z then Some (n - 48)%Z else None.

Fixpoint readDigits (s : string) (acc : Z) : option Z :=
  match s with
  | EmptyString => Some acc
  | String c s' =>
      match digitValue c with
      | Some d => readDigits s' (10 * acc + d)%Z
      | None => None
      end
  end.

Definition readDecimal (s : string) : Number :=
  match s with
  | EmptyString => NInt 0
  | String "-"%char (String _ _ as s') =>
      match readDigits s' 0 with Some n => NInt (- n) | None => NNaN end
  | String "+"%char (String _ _ as s') =>
      match readDigits s' 0 with Some n => NInt n | None => NNaN end
  | _ => match readDigits s 0 with Some n => NInt n | None => NNaN end
  end.

Definition decimalEngine : Engine := {| StringToNumber := readDecimal |}.

(** *** The prototype of ECMAScript 5, for the examples

    The members of [Object.prototype] of the standard and of its
    Annex B, with nothing added by a library. *)

Definition standardMembers : list string :=
  ["constructor"; "hasOwnProperty"; "isPrototypeOf"; "propertyIsEnumerable";
   "toLocaleString"; "toString"; "valueOf"; "__proto__";
   "__defineGetter__"; "__defineSetter__"; "__lookupGetter__";
   "__lookupSetter__"].

Definition standardPrototype : Prototype :=
  {| inherits := λ name, existsb (String.eqb name) standardMembers |}.

(** *** Property names in source text

    The installer builds an accessor by evaluating ['obj.' + idProperty]
    as source text.  For an identifier name this is the access to the
    property of that name.  The test below accepts the identifier names
    written with the letters of ASCII, digits, [_] and [$]; for any other
    text the source text may be a different expression or none at all. *)

Definition isIdentifierStart (c : Ascii.ascii) : bool :=
  let n := Ascii.nat_of_ascii c in
  ((65 <=? n) && (n <=? 90) || (97 <=? n) && (n <=? 122)
   || (n =? 95) || (n =? 36))%nat.

Definition isIdentifierPart (c : Ascii.ascii) : bool :=
  let n := Ascii.nat_of_ascii c in
  isIdentifierStart c || ((48 <=? n) && (n <=? 57))%nat.

Fixpoint identifierParts (s : string) : bool :=
  match s with
  | EmptyString => true
  | String c rest => isIdentifierPart c && identifierParts rest
  end.

Definition isIdentifierName (s : string) : bool :=
  match s with
  | EmptyString => false
  | String c rest => isIdentifierStart c && identifierParts rest
  end.

End Js.

(** ** [angular.equals] *)

Module Angular.
Import Js.

(** [angular.equals] is AngularJS, not code of the cache.  The
    development is parametric in the comparison and relies on one fact
    about it: a value equals itself. *)
Class DeepEquality := {
  equals : Value → Value → bool;
  equals_refl : ∀ v, equals v v = true;
}.

(** *** The comparison of AngularJS, for the examples *)

(** Keys that [angular.equals] skips when it compares two objects. *)
Definition ignoredKey (key : string) : bool :=
  match key with
  | String "$"%char _ => true
  | _ => false
  end.

Definition hasKey (props : list (string * Value)) (key : string) : bool :=
  existsb (λ kv, String.eqb (fst kv) key) props.

(** [angular.equals(o1, o2)] on the value model: identical values are
    equal, NaN equals NaN, and two plain objects are equal when every
    property of the first whose name does not start with [$] equals the
    same property of the second and the second has no further defined
    property outside the [$] names. *)
Fixpoint angularEquals (o1 o2 : Value) {struct o1} : bool :=
  if strictEq o1 o2 then true
  else
    match o1, o2 with
    | VNaN, VNaN => true
    | VObj _ p1, VObj _ p2 =>
        (fix compareOwn (l : list (string * Value)) : bool :=
           match l with
           | [] => true
           | (key, v) :: l' =>
               if ignoredKey key then compareOwn l'
               else angularEquals v (objGet p2 key) && compareOwn l'
           end) p1
        && forallb (λ kv,
             hasKey p1 (fst kv) || ignoredKey (fst kv)
             || strictEq (snd kv) VUndefined) p2
    | _, _ => false
    end.

Definition angular : DeepEquality.
Proof.
  refine {| equals := angularEquals |}.
  intros v. destruct v; simpl; try reflexivity.
  - destruct b; reflexivity.
  - by rewrite Z.eqb_refl.
  - by rewrite String.eqb_refl.
  - by rewrite Nat.eqb_refl.
Defined.

End Angular.

(** ** What both sides share: heap, trace, indices, [CacheEndpointBase] *)

Module Base.
Import Js.

(** A location of the heap is a reference to a JavaScript object; the
    object there is the finite map of its own enumerable properties.  A
    location that was never allocated reads as the empty object. *)
Abbreviation loc := nat (only parsing).
Abbreviation JsObj := (gmap string Value) (only parsing).
Abbreviation Heap := (gmap nat (gmap string Value)) (only parsing).

(** [obj[propName]]. *)
Definition getProp (o : JsObj) (propName : string) : Value :=
  default VUndefined (o !! propName).

(** The object a reference points to. *)
Definition props (h : Heap) (obj : loc) : JsObj := default ∅ (h !! obj).

(** [new Object] at a location not in use. *)
Definition alloc (o : JsObj) (h : Heap) : loc * Heap :=
  let l := fresh (dom h) in (l, <[l := o]> h).

(** Rejection reasons: a code such as ['error.invalid.request'], the pair
    [[code, queryInput]] of a failed read, or an error of the store. *)
Inductive Err :=
| ErrCode (code : string)
| ErrQuery (code : string) (queryInput : Value)
| ErrStore (e : Value).

(** An argument that is an object of the heap or any other value, as in
    [removeFromCache(objectOrId)]. *)
Inductive ObjectOrId :=
| AnObject (obj : loc)
| AnId (id : Value).

(** How a synchronous call ends. *)
Inductive Completion (A : Type) :=
| Normal (a : A)
| Throw (e : string).
Arguments Normal {A} a.
Arguments Throw {A} e.

(** The state a promise settles in. *)
Inductive Promise (A : Type) :=
| Resolved (a : A)
| Rejected (err : Err).
Arguments Resolved {A} a.
Arguments Rejected {A} err.

(** What [wrapObject] is handed and what it returns: [null],
    [undefined], an object of the heap, or any other value (a boolean, a
    number, NaN, a string or a nested object). *)
Inductive Data :=
| DNull
| DUndefined
| DObj (obj : loc)
| DOther (v : Value).

(** [Boolean(data)]: an object is truthy. *)
Definition truthy (data : Data) : bool :=
  match data with
  | DNull | DUndefined => false
  | DObj _ => true
  | DOther v => ToBoolean v
  end.

(** What a run leaves behind, in program order: the endpoint's events, the
    calls of its overridable hooks (their default bodies are empty), the
    console, and the calls to the collaborators on the other side. *)
Inductive Event :=
| Wrapped (obj : Data)
| SendingReadQueryToHost (queryInput : Value)
| Updating (newData : list loc) (queryInput : Value)
| Updated (newData : list loc) (queryInput : Value)
| Removed (obj : loc)
| OnWrapObject (obj : Data)
| OnAddedObject (obj : loc)
| OnRemovedObject (obj : loc)
| OnCacheChanged (newData : list loc)
| ConsoleAssert (failed : string)
| ConsoleError (msg : string)
| ConsoleErrorObject (obj : loc)
| ConsoleWarn (msg : string)
| HostCall (command cacheName : string) (arg : ObjectOrId)
| HandleError (err : Err)
| ModelFind (queryData : Value)
| ModelFindAll (filter : list (string * Value))
| ModelCreate (values : Value)
| ModelUpdate (values : Value) (selector : string * Value)
| ModelDestroy (selector : string * Value)
| ClientApplyChanges (cacheName : string) (objects : option (list ObjectOrId))
| ClientRemoveFromCache (cacheName : string) (id : Value).

(** *** [_Index] *)

(** An index definition of a cache declaration: the composite [key] (a
    list of property names), the [unique] flag and the declared name. *)
Record IndexDef := {
  key : list string;
  unique : bool;
  name : option string;
}.

(** A node of the tree under [_root]: a plain object used as one key
    level, or what a leaf key holds: the one object of a unique index, or
    the array of objects of a non-unique one. *)
Inductive Node :=
| NLevel (children : gmap string Node)
| NInst (obj : loc)
| NArr (objs : list loc).

Record Index := {
  _indexDef : IndexDef;
  _root : Node;
}.

Module Index.

Definition new (indexDef : IndexDef) : Index :=
  {| _indexDef := indexDef; _root := NLevel ∅ |}.

(** The entries of a level: the properties of its own that the plain
    object has.  All paths of one index have the length of its key, so
    the navigation meets levels only; a leaf met instead counts as an
    empty level.  Under a name that a plain object inherits
    ([Js.inherits]) the source finds the inherited member where the level
    has no property of its own: the model does not follow the
    navigation there, and the statements about indices are about key
    values that spell no such name. *)
Definition entries (node : Node) : gmap string Node :=
  match node with
  | NLevel children => children
  | _ => ∅
  end.

(** [node[val] || {}]. *)
Definition childOrNew (node : Node) (val : string) : Node :=
  default (NLevel ∅) (entries node !! val).

(** The node that the loop [node = node[val] = node[val] || {}] ends at. *)
Fixpoint descend (path : list string) (node : Node) : Node :=
  match path with
  | [] => node
  | val :: rest => descend rest (childOrNew node val)
  end.

(** The tree after that loop and a write [f] to the node it ends at:
    every level on the way is stored back into its parent. *)
Fixpoint rebuild (path : list string) (f : Node → Node) (node : Node) : Node :=
  match path with
  | [] => f node
  | val :: rest =>
      NLevel (<[val := rebuild rest f (childOrNew node val)]> (entries node))
  end.

(** [_.last(indexDef.key)], used as a property name: of an empty key it is
    [undefined], which names the property ["undefined"]. *)
Definition leafPropertyName (indexDef : IndexDef) : string :=
  List.last (key indexDef) "undefined".

(** The values of all key properties but the last, as property names. *)
Definition containerPath (indexDef : IndexDef) (o : JsObj) : list string :=
  (λ propertyName, ToPropertyKey (getProp o propertyName))
    <$> removelast (key indexDef).

Definition leafValue (indexDef : IndexDef) (o : JsObj) : string :=
  ToPropertyKey (getProp o (leafPropertyName indexDef)).

(** [node[leafValue] = x]. *)
Definition setEntry (leaf : string) (x : Node) (node : Node) : Node :=
  NLevel (<[leaf := x]> (entries node)).

(** [delete node[leafValue]]. *)
Definition deleteEntry (leaf : string) (node : Node) : Node :=
  NLevel (delete leaf (entries node)).

(** The array under a leaf key ([[]] when there is none). *)
Definition arrayOf (entry : option Node) : list loc :=
  match entry with
  | Some (NArr objs) => objs
  | _ => []
  end.

(** Modelled from the spec: [_.remove(arr, obj)] is lodash, not code of
    the cache; "removal from a non-unique leaf removes by identity". *)
Definition lodash_remove (arr : list loc) (obj : loc) : list loc :=
  filter (λ entry, entry ≠ obj) arr.

(** The path of [getOrCreateNode]: it stops at the first key property
    that the object does not have. *)
Fixpoint ownPath (o : JsObj) (propertyNames : list string) : list string :=
  match propertyNames with
  | [] => []
  | propertyName :: rest =>
      match o !! propertyName with
      | Some val => ToPropertyKey val :: ownPath o rest
      | None => []
      end
  end.

(** [getOrCreateNode(obj)]: the node, and the index with the levels on
    the way to it created. *)
Definition getOrCreateNode (o : JsObj) (index : Index) : Node * Index :=
  let path := ownPath o (removelast (key (_indexDef index))) in
  (descend path (_root index),
   {| _indexDef := _indexDef index; _root := rebuild path id (_root index) |}).

(** The node that [_getContainerNode(obj)] returns; the levels it
    creates on the way are accounted for by [rebuild] in its callers. *)
Definition _getContainerNode (o : JsObj) (index : Index) : Node :=
  descend (containerPath (_indexDef index) o) (_root index).

Definition _addInstance (h : Heap) (obj : loc) (index : Index)
  : Index * list Event :=
  let indexDef := _indexDef index in
  let o := props h obj in
  let path := containerPath indexDef o in
  let leaf := leafValue indexDef o in
  let node := _getContainerNode o index in
  if unique indexDef then
    ({| _indexDef := indexDef;
        _root := rebuild path (setEntry leaf (NInst obj)) (_root index) |},
     match entries node !! leaf with
     | Some _ => [ConsoleError "Object was added twice to unique index";
                  ConsoleErrorObject obj]
     | None => []
     end)
  else
    let arr := arrayOf (entries node !! leaf) in
    ({| _indexDef := indexDef;
        _root := rebuild path (setEntry leaf (NArr (arr ++ [obj]))) (_root index) |},
     []).

Definition _removeInstance (h : Heap) (obj : loc) (index : Index)
  : Index * list Event :=
  let indexDef := _indexDef index in
  let o := props h obj in
  let path := containerPath indexDef o in
  let leaf := leafValue indexDef o in
  let node := _getContainerNode o index in
  if unique indexDef then
    ({| _indexDef := indexDef;
        _root := rebuild path (deleteEntry leaf) (_root index) |}, [])
  else
    match entries node !! leaf with
    | Some (NArr arr) =>
        ({| _indexDef := indexDef;
            _root := rebuild path (setEntry leaf (NArr (lodash_remove arr obj)))
                       (_root index) |}, [])
    | _ =>
        ({| _indexDef := indexDef; _root := rebuild path id (_root index) |},
         [ConsoleAssert "Tried to remove object from index which has not been added in the first place"])
    end.

(** What [get] returns: the value under the leaf key, [undefined], or
    nothing when the number of arguments is not the length of the key:
    there the source logs the failed assertion and navigates on, through
    levels and leaves alike, which the model does not follow. *)
Inductive Lookup :=
| Hit (entry : Node)
| Miss
| BadArity.

(** [get(args)]: the lookup also creates the levels it walks through and,
    in a non-unique index, the empty array of a leaf key without one.
    The index after the call is given where the model follows the call:
    for as many arguments as the key has properties. *)
Definition get (args : list Value) (index : Index)
  : Lookup * option Index * list Event :=
  let indexDef := _indexDef index in
  if negb (length args =? length (key indexDef))%nat then
    (BadArity, None,
     [ConsoleAssert "Invalid arguments for cache index `get` function"])
  else
    let path := ToPropertyKey <$> removelast args in
    let leaf := ToPropertyKey (List.last args VUndefined) in
    let node := descend path (_root index) in
    match entries node !! leaf with
    | Some entry =>
        (Hit entry,
         Some {| _indexDef := indexDef; _root := rebuild path id (_root index) |}, [])
    | None =>
        if unique indexDef then
          (Miss,
           Some {| _indexDef := indexDef; _root := rebuild path id (_root index) |},
           [])
        else
          (Hit (NArr []),
           Some {| _indexDef := indexDef;
                   _root := rebuild path (setEntry leaf (NArr [])) (_root index) |},
           [])
    end.

End Index.

(** *** [IndexSet] *)

(** The set of the indices of one cache: the definitions in declaration
    order and, under its name, the index of each. *)
Record IndexSet := {
  _indexDefs : list IndexDef;
  byName : gmap string Index;
}.

Module IndexSet.

(** [keyProperties.join('_')]. *)
Fixpoint _makeIndexName (keyProperties : list string) : string :=
  match keyProperties with
  | [] => ""
  | [propertyName] => propertyName
  | propertyName :: rest => propertyName +:+ "_" +:+ _makeIndexName rest
  end.

(** [_.isString(indexDef.name) && indexDef.name ||
    this._makeIndexName(indexDef.key)]. *)
Definition indexName (indexDef : IndexDef) : string :=
  match name indexDef with
  | Some n => if String.eqb n "" then _makeIndexName (key indexDef) else n
  | None => _makeIndexName (key indexDef)
  end.

(** The definition with its name settled, as the constructor stores it. *)
Definition named (indexDef : IndexDef) : IndexDef :=
  {| key := key indexDef; unique := unique indexDef;
     name := Some (indexName indexDef) |}.

Definition new (indexDefs : list IndexDef) : IndexSet :=
  {| _indexDefs := named <$> indexDefs;
     byName := foldl (λ this indexDef,
                        <[indexName indexDef := Index.new (named indexDef)]> this)
                     ∅ indexDefs |}.

(** One step of the fan-out loops: apply [op] to the index that the
    definition names, and store the result under that name. *)
Definition onIndex (op : Index → Index * list Event)
    (acc : gmap string Index * list Event) (indexDef : IndexDef)
  : gmap string Index * list Event :=
  match fst acc !! indexName indexDef with
  | Some index =>
      let '(index', evs) := op index in
      (<[indexName indexDef := index']> (fst acc), snd acc ++ evs)
  | None => acc
  end.

Definition _addInstance (h : Heap) (obj : loc) (indices : IndexSet)
  : IndexSet * list Event :=
  let '(this, evs) :=
    foldl (onIndex (Index._addInstance h obj)) (byName indices, [])
          (_indexDefs indices) in
  ({| _indexDefs := _indexDefs indices; byName := this |}, evs).

Definition _removeInstance (h : Heap) (obj : loc) (indices : IndexSet)
  : IndexSet * list Event :=
  let '(this, evs) :=
    foldl (onIndex (Index._removeInstance h obj)) (byName indices, [])
          (_indexDefs indices) in
  ({| _indexDefs := _indexDefs indices; byName := this |}, evs).

End IndexSet.

(** *** [CacheEndpointBase] *)

(** The characters of a string under their indices: what [for (p in s)]
    meets on a string. *)
Fixpoint charactersFrom (i : nat) (s : string) : gmap string Value :=
  match s with
  | EmptyString => ∅
  | String c rest =>
      <[pretty i := VStr (String c EmptyString)]> (charactersFrom (S i) rest)
  end.

(** The properties that [for (propName in data)] copies from [data]. *)
Definition enumerable (data : Data) (h : Heap) : JsObj :=
  match data with
  | DObj d => props h d
  | DOther (VObj _ ps) => list_to_map ps
  | DOther (VStr s) => charactersFrom 0 s
  | _ => ∅
  end.

(** [wrapObject(data)]: [if (!data) return null], then the wrapping.
    [InstanceClass] tells whether the cache declaration gave an
    [InstanceProto]; the instance class then built copies every property
    of [data] into a new object ([initialize] adds the non-enumerable
    [Instance], which no loop of the cache sees; of data that is itself
    an instance the loop also meets the methods of its class, which the
    model leaves out).  Without an instance class the data itself is the
    result.  The result is [DNull] for [null]. *)
Definition wrapObject (InstanceClass : bool) (data : Data) (h : Heap)
  : Data * Heap * list Event :=
  if negb (truthy data) then (DNull, h, [])
  else
    let '(obj, h') :=
      if InstanceClass then
        let '(l, h') := alloc (enumerable data h) h in (DObj l, h')
      else (data, h) in
    (obj, h', [OnWrapObject obj; Wrapped obj]).

(** The wrapped object as a reference, when it is an object of the heap. *)
Definition asObject (data : Data) : option loc :=
  match data with
  | DObj obj => Some obj
  | _ => None
  end.

(** [CacheEndpointBase.getObjectNow]: no local storage, always [null]. *)
Definition getObjectNow (id : Value) : Data := DNull.

(** [this.map && this.map[id]]. *)
Definition getObjectNowById (map : option (gmap string loc)) (id : Value)
  : option loc :=
  match map with
  | Some m => m !! ToPropertyKey id
  | None => None
  end.

End Base.

(** ** The Client endpoint *)

Module Client.
Import Js Angular Base.

(** A client-side cache endpoint together with the heap its references
    point into and the trace of the run so far.  [cacheList] and
    [cacheMap] are [this.list] and [this.map]; [idGetter] is the accessor
    that the installation settles: the one of the declaration, or the
    one built from its [idProperty]. *)
Record CacheEndpoint := {
  name : string;
  idGetter : JsObj → Value;
  InstanceClass : bool;
  heap : Heap;
  cacheList : list loc;
  cacheMap : gmap string loc;
  indices : option IndexSet;
  nUpdates : nat;
  trace : list Event;
}.

Definition setHeap (h : Heap) (this : CacheEndpoint) : CacheEndpoint :=
  {| name := name this; idGetter := idGetter this;
     InstanceClass := InstanceClass this; heap := h;
     cacheList := cacheList this; cacheMap := cacheMap this;
     indices := indices this; nUpdates := nUpdates this; trace := trace this |}.

Definition setList (l : list loc) (this : CacheEndpoint) : CacheEndpoint :=
  {| name := name this; idGetter := idGetter this;
     InstanceClass := InstanceClass this; heap := heap this;
     cacheList := l; cacheMap := cacheMap this;
     indices := indices this; nUpdates := nUpdates this; trace := trace this |}.

Definition setMap (m : gmap string loc) (this : CacheEndpoint) : CacheEndpoint :=
  {| name := name this; idGetter := idGetter this;
     InstanceClass := InstanceClass this; heap := heap this;
     cacheList := cacheList this; cacheMap := m;
     indices := indices this; nUpdates := nUpdates this; trace := trace this |}.

Definition setIndices (ix : option IndexSet) (this : CacheEndpoint) : CacheEndpoint :=
  {| name := name this; idGetter := idGetter this;
     InstanceClass := InstanceClass this; heap := heap this;
     cacheList := cacheList this; cacheMap := cacheMap this;
     indices := ix; nUpdates := nUpdates this; trace := trace this |}.

Definition setNUpdates (n : nat) (this : CacheEndpoint) : CacheEndpoint :=
  {| name := name this; idGetter := idGetter this;
     InstanceClass := InstanceClass this; heap := heap this;
     cacheList := cacheList this; cacheMap := cacheMap this;
     indices := indices this; nUpdates := n; trace := trace this |}.

(** Append to the trace. *)
Definition emit (evs : list Event) (this : CacheEndpoint) : CacheEndpoint :=
  {| name := name this; idGetter := idGetter this;
     InstanceClass := InstanceClass this; heap := heap this;
     cacheList := cacheList this; cacheMap := cacheMap this;
     indices := indices this; nUpdates := nUpdates this;
     trace := trace this ++ evs |}.

(** The constructor: empty [list] and [map], the indices of the
    descriptor if it has any, no update counted. *)
Definition new (cacheName : string) (getter : JsObj → Value) (instanceProto : bool)
    (indexDefs : option (list IndexDef)) (h : Heap) : CacheEndpoint :=
  {| name := cacheName; idGetter := getter; InstanceClass := instanceProto;
     heap := h; cacheList := []; cacheMap := ∅;
     indices := IndexSet.new <$> indexDefs; nUpdates := 0; trace := [] |}.

(** The accessor that [installComponentCache] builds from an
    [idProperty] that is an identifier name ([Js.isIdentifierName]):
    [function(obj) { return obj.<idProperty> }].  For any other text the
    installer evaluates another expression, or fails; see
    [Installer.evaluated]. *)
Definition idGetterOf (idProperty : string) : JsObj → Value :=
  λ o, getProp o idProperty.

(** The object behind a reference, now. *)
Definition deref (this : CacheEndpoint) (obj : loc) : JsObj :=
  props (heap this) obj.

(** [this.wrapObject(newValues)] on an object. *)
Definition wrap (newValues : loc) (this : CacheEndpoint) : loc * CacheEndpoint :=
  let '(obj, h, evs) := wrapObject (InstanceClass this) (DObj newValues) (heap this) in
  (default newValues (asObject obj), emit evs (setHeap h this)).

(** What [getObjectNow] returns: a cached object, [undefined], or a
    promise that is already rejected. *)
Inductive NowResult :=
| NowObject (obj : loc)
| NowUndefined
| NowRejectedPromise (err : Err).

(** The reply of the Host to a remote command, as the promise of the
    remote call settles. *)
Inductive HostReply :=
| HostResolves (result : Value)
| HostRejects (err : Err).

Section WithEquality.
Context {deepEquality : DeepEquality}.

(** The test of the loop
    [for (propName in newValues) if (!angular.equals(newValues[propName], obj[propName])) ...]:
    does some property of [newValues] differ from the cached one? *)
Definition changed (newValues obj : JsObj) : bool :=
  existsb (λ kv, negb (equals (snd kv) (getProp obj (fst kv))))
          (map_to_list newValues).

(** [for (propName in newValues) obj[propName] = newValues[propName]]:
    every property of [newValues] overrides, the others stay. *)
Definition shallowCopy (newValues obj : JsObj) : JsObj := newValues ∪ obj.

(** [this.indices._addInstance(obj)] under [if (this.indices)]. *)
Definition addToIndices (obj : loc) (this : CacheEndpoint) : CacheEndpoint :=
  match indices this with
  | Some ix =>
      let '(ix', evs) := IndexSet._addInstance (heap this) obj ix in
      emit evs (setIndices (Some ix') this)
  | None => this
  end.

Definition removeFromIndices (obj : loc) (this : CacheEndpoint) : CacheEndpoint :=
  match indices this with
  | Some ix =>
      let '(ix', evs) := IndexSet._removeInstance (heap this) obj ix in
      emit evs (setIndices (Some ix') this)
  | None => this
  end.

(** First loop of [_applyChanges], "remove all non-updates": a record
    with an unknown id is wrapped and kept, a record of a cached object is
    kept when one of its properties differs, and dropped otherwise. *)
Fixpoint removeNonUpdates (data newData : list loc) (this : CacheEndpoint)
  : list loc * CacheEndpoint :=
  match data with
  | [] => (newData, this)
  | newValues :: rest =>
      let id := idGetter this (deref this newValues) in
      let this :=
        if ToBoolean id then this
        else emit [ConsoleAssert "Invalid object had no but NEEDS an id in `Cache._applyChanges`"] this in
      match cacheMap this !! ToPropertyKey id with
      | None =>
          let '(obj, this) := wrap newValues this in
          removeNonUpdates rest (newData ++ [obj]) this
      | Some obj =>
          if changed (deref this newValues) (deref this obj)
          then removeNonUpdates rest (newData ++ [newValues]) this
          else removeNonUpdates rest newData this
      end
  end.

(** Second loop, "apply all updates only to changed objects": an object
    whose id is not in [map] enters [list], [map] and the indices; for a
    cached one the properties are copied onto it, and its reference
    replaces the record in [newData]. *)
Fixpoint applyUpdates (newData : list loc) (this : CacheEndpoint)
  : list loc * CacheEndpoint :=
  match newData with
  | [] => ([], this)
  | newValues :: rest =>
      let id := idGetter this (deref this newValues) in
      match cacheMap this !! ToPropertyKey id with
      | None =>
          let obj := newValues in
          let this := setList (cacheList this ++ [obj]) this in
          let this := setMap (<[ToPropertyKey id := obj]> (cacheMap this)) this in
          let this := addToIndices obj this in
          let this := emit [OnAddedObject obj] this in
          let '(out, this) := applyUpdates rest this in
          (obj :: out, this)
      | Some obj =>
          let this :=
            setHeap (<[obj := shallowCopy (deref this newValues) (deref this obj)]>
                       (heap this)) this in
          let '(out, this) := applyUpdates rest this in
          (obj :: out, this)
      end
  end.

(** [_applyChanges(data, queryInput)]; [data] is [None] for a missing
    array.  The result is the array [newData] as it is returned. *)
Definition _applyChanges (data : option (list loc)) (queryInput : Value)
    (this : CacheEndpoint) : list loc * CacheEndpoint :=
  let '(newData, this) :=
    match data with
    | Some d => removeNonUpdates d [] this
    | None => ([], this)
    end in
  let this := emit [Updating newData queryInput] this in
  let '(newData, this) :=
    match data with
    | Some _ => applyUpdates newData this
    | None => (newData, this)
    end in
  let this := setNUpdates (S (nUpdates this)) this in
  let this := emit [OnCacheChanged newData; Updated newData queryInput] this in
  (newData, this).

(** [applyChange(obj, queryInput)]: [newObjects[0]], if there is one. *)
Definition applyChange (obj : loc) (queryInput : Value) (this : CacheEndpoint)
  : option loc * CacheEndpoint :=
  let '(newObjects, this) := _applyChanges (Some [obj]) queryInput this in
  (head newObjects, this).

Definition applyChanges (newData : option (list loc)) (queryInput : Value)
    (this : CacheEndpoint) : list loc * CacheEndpoint :=
  _applyChanges newData queryInput this.

(** [getObjectsNow]: the list of all cached objects. *)
Definition getObjectsNow (queryInput : Value) (this : CacheEndpoint) : list loc :=
  cacheList this.

Section WithEngine.
Context {engine : Engine}.

(** [idGetter.call(this, v)] on a value that is not an object of the
    heap: an accessor that reads a property throws on [undefined] and
    [null]; a nested object is given by its properties, any other
    primitive has none of its own. *)
Definition idGetterOfValue (this : CacheEndpoint) (v : Value) : Completion Value :=
  match v with
  | VUndefined | VNull => Throw "TypeError"
  | VObj _ ps => Normal (idGetter this (list_to_map ps))
  | _ => Normal (idGetter this ∅)
  end.

(** The head of [removeFromCache] and [deleteObject]: an argument that
    [isNaN] is taken for an object and asked for its id, any other is the
    id.  A heap object always is NaN. *)
Definition resolveId (this : CacheEndpoint) (objectOrId : ObjectOrId)
  : Completion Value :=
  match objectOrId with
  | AnObject obj => Normal (idGetter this (deref this obj))
  | AnId v => if isNaN v then idGetterOfValue this v else Normal v
  end.

(** The scan of [list]: splice out the first entry whose id [==] the id. *)
Fixpoint spliceFirst (this : CacheEndpoint) (id : Value) (l : list loc) : list loc :=
  match l with
  | [] => []
  | entry :: rest =>
      if looseEq (idGetter this (deref this entry)) id then rest
      else entry :: spliceFirst this id rest
  end.

(** [removeFromCache(objectOrId)]: the removed object, or [None] for
    [undefined]. *)
Definition removeFromCache (objectOrId : ObjectOrId) (this : CacheEndpoint)
  : Completion (option loc) * CacheEndpoint :=
  match resolveId this objectOrId with
  | Throw e => (Throw e, this)
  | Normal id =>
      match cacheMap this !! ToPropertyKey id with
      | Some obj =>
          let this := setMap (delete (ToPropertyKey id) (cacheMap this)) this in
          let this := setList (spliceFirst this id (cacheList this)) this in
          let this := removeFromIndices obj this in
          let this := emit [OnRemovedObject obj; Removed obj] this in
          (Normal (Some obj), this)
      | None => (Normal None, this)
      end
  end.

(** [getObjectNow(queryInput)]: a read of [map] and nothing else. *)
Definition getObjectNow (queryInput : Value) (this : CacheEndpoint) : NowResult :=
  if isNaN queryInput then NowRejectedPromise (ErrCode "error.invalid.request")
  else
    match cacheMap this !! ToPropertyKey queryInput with
    | Some obj => NowObject obj
    | None => NowUndefined
    end.

(** [_.clone(this.getObjectNowById(id))]: a new object with the same
    properties, or [undefined]. *)
Definition cloneById (id : Value) (this : CacheEndpoint)
  : option loc * CacheEndpoint :=
  match getObjectNowById (Some (cacheMap this)) id with
  | Some obj =>
      let '(origObj, h) := alloc (deref this obj) (heap this) in
      (Some origObj, setHeap h this)
  | None => (None, this)
  end.

(** The [catch] handler of the optimistic mutations: re-apply the
    original, then hand the error on.  Without an original the handler
    calls [applyChange(undefined)], which begins by reading the id of
    [undefined]: an accessor that reads a property of its argument, as
    the one built from an [idProperty] does, throws there, and the
    promise of the call is rejected.  The model follows this branch for
    such accessors only; what an accessor that returns for [undefined]
    leads to is not covered, and the statements about this branch are
    about endpoints whose accessor reads a property. *)
Definition rollback (origObj : option loc) (err : Err) (this : CacheEndpoint)
  : Promise unit * CacheEndpoint :=
  match origObj with
  | Some orig =>
      let '(_, this) := applyChange orig VUndefined this in
      (Resolved tt, emit [HandleError err] this)
  | None => (Rejected (ErrCode "TypeError"), this)
  end.

(** [updateObject(queryInput)] up to the settling of the promise it
    returns, the Host answering [reply]; nothing else runs in between. *)
Definition updateObject (queryInput : loc) (reply : HostReply)
    (this : CacheEndpoint) : Promise unit * CacheEndpoint :=
  let id := idGetter this (deref this queryInput) in
  let '(origObj, this) := cloneById id this in
  let this :=
    if origObj is Some _ then this
    else emit [ConsoleAssert "`updateObject` called with invalid object"] this in
  let '(_, this) := applyChange queryInput VUndefined this in
  let this := emit [HostCall "updateObject" (name this) (AnObject queryInput)] this in
  match reply with
  | HostResolves _ => (Resolved tt, this)
  | HostRejects err => rollback origObj err this
  end.

(** [deleteObject(objectOrId)], likewise. *)
Definition deleteObject (objectOrId : ObjectOrId) (reply : HostReply)
    (this : CacheEndpoint) : Completion (Promise unit) * CacheEndpoint :=
  match resolveId this objectOrId with
  | Throw e => (Throw e, this)
  | Normal id =>
      match removeFromCache objectOrId this with
      | (Throw e, this) => (Throw e, this)
      | (Normal origObj, this) =>
          let this :=
            if origObj is Some _ then this
            else emit [ConsoleAssert "`deleteObject` called with invalid objectOrId"] this in
          let this := emit [HostCall "deleteObject" (name this) (AnId id)] this in
          match reply with
          | HostResolves _ => (Normal (Resolved tt), this)
          | HostRejects err =>
              let '(p, this) := rollback origObj err this in (Normal p, this)
          end
      end
  end.

End WithEngine.

End WithEquality.

End Client.

(** ** The Host endpoint and the public commands *)

Module Host.
Import Js Base.

(** The Host side of a run: the heap and the trace. *)
Record World := {
  heap : Heap;
  trace : list Event;
}.

Definition emit (evs : list Event) (w : World) : World :=
  {| heap := heap w; trace := trace w ++ evs |}.

(** The Sequelize model of a cache's component, an opaque store: each
    operation is known by the way its promise settles. *)
Record Model := {
  find : Value → Promise (option (gmap string Value));
  findAll : list (string * Value) → Promise (list (gmap string Value));
  create : Value → Promise (gmap string Value);
  update : Value → string * Value → Promise unit;
  destroy : string * Value → Promise unit;
}.

(** What a default endpoint is configured with: the declaration
    ([name], [idProperty] if any, [idGetter], [InstanceClass]), the model
    of its component and [Shared.User.isStaff(currentUser)]. *)
Record Config := {
  name : string;
  idProperty : option string;
  idGetter : gmap string Value → Value;
  InstanceClass : bool;
  getModel : Model;
  isStaff : bool;
}.

(** [idGetter.call(this, v)] on a value that came over the wire. *)
Definition idGetterOfValue (this : Config) (v : Value) : Completion Value :=
  match v with
  | VUndefined | VNull => Throw "TypeError"
  | VObj _ ps => Normal (idGetter this (list_to_map ps))
  | _ => Normal (idGetter this ∅)
  end.

Section WithEngine.
Context {engine : Engine}.

Definition hasWritePermissions (this : Config) : bool := isStaff this.

Definition onReadObject (object : option loc) : option loc := object.
Definition onCreateObject (object : option loc) : option loc := object.
Definition onReadObjects (objects : list (option loc)) : list (option loc) := objects.

(** [compileReadObjectQuery(queryInput)]: the id itself, unless it is NaN. *)
Definition compileReadObjectQuery (this : Config) (queryInput : Value) (w : World)
  : Promise Value * World :=
  if isNaN queryInput then
    (Rejected (ErrCode "error.invalid.request"),
     emit [ConsoleWarn ("Client requested object from cache `" +:+ name this +:+ "`")] w)
  else (Resolved queryInput, w).

(** [compileReadObjectsQuery(queryInput)]: the empty filter [{}], given
    by its (no) properties, unless there is an input. *)
Definition compileReadObjectsQuery (this : Config) (queryInput : Value) (w : World)
  : Promise (list (string * Value)) * World :=
  if ToBoolean queryInput then
    (Rejected (ErrCode "error.invalid.request"),
     emit [ConsoleWarn ("Client requested objects from cache `" +:+ name this +:+ "`")] w)
  else (Resolved [], w).

Definition compileObjectCreate (this : Config) (queryInput : Value) : Promise Value :=
  if negb (hasWritePermissions this) then Rejected (ErrCode "error.invalid.permissions")
  else Resolved queryInput.

(** [compileObjectUpdate(updateData)]: the values and the selector
    [{ where: { <idProperty>: objId } }], given by the property and the id. *)
Definition compileObjectUpdate (this : Config) (updateData : Value) (w : World)
  : Promise (Value * (string * Value)) * World :=
  if negb (hasWritePermissions this) then
    (Rejected (ErrCode "error.invalid.permissions"), w)
  else
    match idProperty this with
    | None =>
        (Rejected (ErrCode "error.internal"),
         emit [ConsoleError ("Cache `" +:+ name this +:+ "` did not define `idProperty`")] w)
    | Some idProp =>
        match idGetterOfValue this updateData with
        | Throw e => (Rejected (ErrCode e), w)
        | Normal objId =>
            if isNaN objId then (Rejected (ErrCode "error.invalid.request"), w)
            else (Resolved (updateData, (idProp, objId)), w)
        end
    end.

Definition compileObjectDelete (this : Config) (objId : Value) (w : World)
  : Promise (Value * (string * Value)) * World :=
  if negb (hasWritePermissions this) then
    (Rejected (ErrCode "error.invalid.permissions"), w)
  else
    match idProperty this with
    | None =>
        (Rejected (ErrCode "error.internal"),
         emit [ConsoleError ("Cache `" +:+ name this +:+ "` did not define `idProperty`")] w)
    | Some idProp => (Resolved (objId, (idProp, objId)), w)
    end.

(** [SequelizeUtil.getValuesFromRows(row)] followed by [wrapObject]: the
    row becomes a plain object of the heap and is wrapped. *)
Definition wrapRow (this : Config) (row : gmap string Value) (w : World)
  : option loc * World :=
  let '(d, h) := alloc row (heap w) in
  let '(obj, h, evs) := wrapObject (InstanceClass this) (DObj d) h in
  (asObject obj, {| heap := h; trace := trace w ++ evs |}).

Fixpoint wrapRows (this : Config) (rows : list (gmap string Value)) (w : World)
  : list (option loc) * World :=
  match rows with
  | [] => ([], w)
  | row :: rest =>
      let '(obj, w) := wrapRow this row w in
      let '(objs, w) := wrapRows this rest w in
      (obj :: objs, w)
  end.

(** [applyChanges(objects)]: the push to the Client endpoint of the same
    name.  ([applyChange] also returns a promise that wraps the pushed
    object once more; its callers drop it, and it is not followed here.) *)
Definition applyChanges (this : Config) (objects : option (list ObjectOrId)) (w : World)
  : World :=
  emit [ClientApplyChanges (name this) objects] w.

Definition sendRemove (this : Config) (objectOrId : Value) (w : World)
  : Completion unit * World :=
  match (if isNaN objectOrId then idGetterOfValue this objectOrId
         else Normal objectOrId) with
  | Throw e => (Throw e, w)
  | Normal id => (Normal tt, emit [ClientRemoveFromCache (name this) id] w)
  end.

Definition readObject (this : Config) (queryInput : Value) (w : World)
  : Promise (option loc) * World :=
  match compileReadObjectQuery this queryInput w with
  | (Rejected err, w) => (Rejected err, w)
  | (Resolved queryData, w) =>
      let w := emit [ModelFind queryData] w in
      match find (getModel this) queryData with
      | Rejected err => (Rejected err, w)
      | Resolved None =>
          (Rejected (ErrQuery "cache.error.object.notFound" queryInput), w)
      | Resolved (Some resultRow) =>
          let '(obj, w) := wrapRow this resultRow w in
          (Resolved (onReadObject obj), w)
      end
  end.

Definition findObjects (this : Config) (queryData : list (string * Value)) (w : World)
  : Promise (list (option loc)) * World :=
  let w := emit [ModelFindAll queryData] w in
  match findAll (getModel this) queryData with
  | Rejected err => (Rejected err, w)
  | Resolved resultRows =>
      let '(objs, w) := wrapRows this resultRows w in
      (Resolved (onReadObjects objs), w)
  end.

Definition readObjects (this : Config) (queryInput : Value) (w : World)
  : Promise (list (option loc)) * World :=
  match compileReadObjectsQuery this queryInput w with
  | (Rejected err, w) => (Rejected err, w)
  | (Resolved queryData, w) => findObjects this queryData w
  end.

Definition createObject (this : Config) (queryInput : Value) (dontSendToClient : bool)
    (w : World) : Promise (option loc) * World :=
  match compileObjectCreate this queryInput with
  | Rejected err => (Rejected err, w)
  | Resolved values =>
      let w := emit [ModelCreate values] w in
      match create (getModel this) values with
      | Rejected err => (Rejected err, w)
      | Resolved row =>
          let '(newObj, w) := wrapRow this row w in
          let newObj := onCreateObject newObj in
          let w :=
            if dontSendToClient then w
            else applyChanges this ((λ o, [AnObject o]) <$> newObj) w in
          (Resolved newObj, w)
      end
  end.

Definition updateObject (this : Config) (queryInput : Value) (dontSendToClient : bool)
    (w : World) : Promise unit * World :=
  match compileObjectUpdate this queryInput w with
  | (Rejected err, w) => (Rejected err, w)
  | (Resolved (objValues, selector), w) =>
      let w := emit [ModelUpdate objValues selector] w in
      match update (getModel this) objValues selector with
      | Rejected err => (Rejected err, w)
      | Resolved _ =>
          (Resolved tt,
           if dontSendToClient then w
           else applyChanges this
                  (if ToBoolean objValues then Some [AnId objValues] else None) w)
      end
  end.

Definition deleteObject (this : Config) (queryInput : Value) (dontSendToClient : bool)
    (w : World) : Promise unit * World :=
  match compileObjectDelete this queryInput w with
  | (Rejected err, w) => (Rejected err, w)
  | (Resolved (objId, selector), w) =>
      let w := emit [ModelDestroy selector] w in
      match destroy (getModel this) selector with
      | Rejected err => (Rejected err, w)
      | Resolved _ =>
          if dontSendToClient then (Resolved tt, w)
          else
            match sendRemove this objId w with
            | (Throw e, w) => (Rejected (ErrCode e), w)
            | (Normal _, w) => (Resolved tt, w)
            end
      end
  end.

End WithEngine.

(** *** Public commands, callable by the Client *)

Module Public.

(** A registered endpoint as the commands see it: an object whose
    methods ([dataProvider.readObject], ...) are reached by name, whatever
    the cache declaration made of them. *)
Record DataProvider := {
  dp_idGetter : gmap string Value → Value;
  dp_readObject : Value → World → Promise (option loc) * World;
  dp_readObjects : Value → World → Promise (list (option loc)) * World;
  dp_createObject : Value → bool → World → Promise (option loc) * World;
  dp_updateObject : Value → bool → World → Promise unit * World;
  dp_deleteObject : Value → bool → World → Promise unit * World;
}.

(** The component instance the commands run in: the registry
    [cacheEndpoints] (the endpoints it holds as properties of its own),
    the role oracle [User.hasRole] and [getMinRole()], the configured
    [minAccessRole]. *)
Record Instance := {
  cacheEndpoints : gmap string DataProvider;
  hasRole : Value → bool;
  getMinRole : Value;
}.

(** What [this.cacheEndpoints[cacheName]] finds in the plain object
    [cacheEndpoints = {}]: an endpoint registered under the name, or,
    for a name that a plain object inherits, the inherited member, which
    is no endpoint and has none of the methods of one. *)
Inductive Registered :=
| Endpoint (dataProvider : DataProvider)
| InheritedMember.

Section WithPrototype.
Context {prototype : Prototype}.

Definition getCacheEndpoint (this : Instance) (cacheName : string)
  : option Registered :=
  match cacheEndpoints this !! cacheName with
  | Some dataProvider => Some (Endpoint dataProvider)
  | None => if inherits cacheName then Some InheritedMember else None
  end.

(** [dataProvider.<method>(...)]: the call of a method that the object
    does not have throws. *)
Definition callOn {A} (dataProvider : Registered)
    (method : DataProvider → World → Promise A * World) (w : World)
  : Completion (Promise A) * World :=
  match dataProvider with
  | Endpoint dataProvider =>
      let '(promise, w) := method dataProvider w in (Normal promise, w)
  | InheritedMember => (Throw "TypeError", w)
  end.

Definition fetchObject (this : Instance) (cacheName : string) (queryInput : Value)
    (w : World) : Completion (Promise (option loc)) * World :=
  match getCacheEndpoint this cacheName with
  | None =>
      (Normal (Rejected (ErrCode "error.invalid.request")),
       emit [ConsoleWarn ("Invalid cacheName for `fetchObject`: " +:+ cacheName)] w)
  | Some dataProvider =>
      if negb (hasRole this (getMinRole this)) then
        (Normal (Rejected (ErrCode "error.invalid.permissions")), w)
      else callOn dataProvider (λ dataProvider, dp_readObject dataProvider queryInput) w
  end.

Definition fetchObjects (this : Instance) (cacheName : string) (queryInput : Value)
    (w : World) : Completion (Promise (list (option loc))) * World :=
  match getCacheEndpoint this cacheName with
  | None =>
      (Normal (Rejected (ErrCode "error.invalid.request")),
       emit [ConsoleWarn ("Invalid cacheName for `fetchObjects`: " +:+ cacheName)] w)
  | Some dataProvider =>
      if negb (hasRole this (getMinRole this)) then
        (Normal (Rejected (ErrCode "error.invalid.permissions")), w)
      else callOn dataProvider (λ dataProvider, dp_readObjects dataProvider queryInput) w
  end.

(** The [then] of [createObject]: only the id of the new object goes
    back; reading it from [null] throws, which rejects the promise. *)
Definition sendBackId (dataProvider : DataProvider)
    (created : Promise (option loc) * World) : Promise Value * World :=
  match created with
  | (Rejected err, w) => (Rejected err, w)
  | (Resolved None, w) => (Rejected (ErrCode "TypeError"), w)
  | (Resolved (Some newObject), w) =>
      (Resolved (dp_idGetter dataProvider (props (heap w) newObject)), w)
  end.

Definition createObject (this : Instance) (cacheName : string) (objectValues : Value)
    (w : World) : Completion (Promise Value) * World :=
  match getCacheEndpoint this cacheName with
  | None =>
      (Normal (Rejected (ErrCode "error.invalid.request")),
       emit [ConsoleWarn ("Invalid cacheName for `createObject`: " +:+ cacheName)] w)
  | Some dataProvider =>
      if negb (hasRole this (getMinRole this)) then
        (Normal (Rejected (ErrCode "error.invalid.permissions")), w)
      else
        callOn dataProvider
          (λ dataProvider w,
             sendBackId dataProvider (dp_createObject dataProvider objectValues true w))
          w
  end.

Definition updateObject (this : Instance) (cacheName : string) (objectValues : Value)
    (w : World) : Completion (Promise unit) * World :=
  match getCacheEndpoint this cacheName with
  | None =>
      (Normal (Rejected (ErrCode "error.invalid.request")),
       emit [ConsoleWarn ("Invalid cacheName for `updateObject`: " +:+ cacheName)] w)
  | Some dataProvider =>
      if negb (hasRole this (getMinRole this)) then
        (Normal (Rejected (ErrCode "error.invalid.permissions")), w)
      else
        callOn dataProvider
          (λ dataProvider, dp_updateObject dataProvider objectValues true) w
  end.

Definition deleteObject (this : Instance) (cacheName : string) (objId : Value)
    (w : World) : Completion (Promise unit) * World :=
  match getCacheEndpoint this cacheName with
  | None =>
      (Normal (Rejected (ErrCode "error.invalid.request")),
       emit [ConsoleWarn ("Invalid cacheName for `deleteObject`: " +:+ cacheName)] w)
  | Some dataProvider =>
      if negb (hasRole this (getMinRole this)) then
        (Normal (Rejected (ErrCode "error.invalid.permissions")), w)
      else
        callOn dataProvider (λ dataProvider, dp_deleteObject dataProvider objId true) w
  end.

End WithPrototype.

End Public.

(** The endpoint that a declaration without overriding [members] yields. *)
Definition defaultProvider `{!Engine} (this : Config) : Public.DataProvider :=
  {| Public.dp_idGetter := idGetter this;
     Public.dp_readObject := readObject this;
     Public.dp_readObjects := readObjects this;
     Public.dp_createObject := createObject this;
     Public.dp_updateObject := updateObject this;
     Public.dp_deleteObject := deleteObject this |}.

End Host.

(** ** Observations on runs, and the statements checked on them *)

Module Spec.
Import Js Angular Base.

Section Statements.
Context {deepEquality : DeepEquality} {engine : Engine}.

(** The objects the [wrapped] event was fired with, in order. *)
Definition wrappedFired (evs : list Event) : list loc :=
  omap (λ e, match e with Wrapped (DObj obj) => Some obj | _ => None end) evs.

(** The objects [onWrapObject] was called with. *)
Definition onWrapObjectCalls (evs : list Event) : list loc :=
  omap (λ e, match e with OnWrapObject (DObj obj) => Some obj | _ => None end) evs.

(** The deltas the [updated] event was fired with. *)
Definition updatedFired (evs : list Event) : list (list loc * Value) :=
  omap (λ e, match e with Updated newData q => Some (newData, q) | _ => None end) evs.

(** The deltas the [updating] event was fired with. *)
Definition updatingFired (evs : list Event) : list (list loc * Value) :=
  omap (λ e, match e with Updating newData q => Some (newData, q) | _ => None end) evs.

(** The remote commands sent to the Host. *)
Definition hostCalls (evs : list Event) : list Event :=
  omap (λ e, match e with HostCall _ _ _ => Some e | _ => None end) evs.

(** The calls that reached the store. *)
Definition storeCalls (evs : list Event) : list Event :=
  omap (λ e, match e with
             | ModelFind _ | ModelFindAll _ | ModelCreate _
             | ModelUpdate _ _ | ModelDestroy _ => Some e
             | _ => None
             end) evs.

(** The entry an index holds at the key path of the object [o]. *)
Definition entryAt (index : Index) (o : gmap string Value) : option Node :=
  Index.entries (Index._getContainerNode o index)
    !! Index.leafValue (_indexDef index) o.

(** The index holds the reference [obj] at the key path of the object
    [o]: as the one object of the leaf, or in the array of the leaf. *)
Definition storedAt (index : Index) (o : gmap string Value) (obj : loc) : Prop :=
  match entryAt index o with
  | Some (NInst x) => x = obj
  | Some (NArr objs) => obj ∈ objs
  | _ => False
  end.

(** The arguments of [get] that spell the key of the object [o]. *)
Definition keyArgs (index : Index) (o : gmap string Value) : list Value :=
  getProp o <$> key (_indexDef index).

(** [index.get(args)] as a query: the result alone. *)
Definition lookup (index : Index) (args : list Value) : Index.Lookup :=
  fst (fst (Index.get args index)).

(** The index of a client endpoint that is registered under [indexName]. *)
Definition indexNamed (this : Client.CacheEndpoint) (indexName : string) : option Index :=
  ix ← Client.indices this; byName ix !! indexName.

(** [this.indices.<indexName>.get(args)], if there is such an index. *)
Definition lookupIn (this : Client.CacheEndpoint) (indexName : string)
    (args : list Value) : option Index.Lookup :=
  (λ index, lookup index args) <$> indexNamed this indexName.

(** The key under which [map] is asked for a record. *)
Definition keyOf (this : Client.CacheEndpoint) (newValues : loc) : string :=
  ToPropertyKey (Client.idGetter this (Client.deref this newValues)).

(** The id of the record is in [map]. *)
Definition known (this : Client.CacheEndpoint) (newValues : loc) : Prop :=
  is_Some (Client.cacheMap this !! keyOf this newValues).

(** The id that the accessor reads off a merged object is the id of the
    record or the id the object had: so it is for an accessor that reads
    a property. *)
Definition mergeStable (getter : gmap string Value → Value) : Prop :=
  ∀ newValues obj,
    getter (Client.shallowCopy newValues obj) = getter newValues
    ∨ getter (Client.shallowCopy newValues obj) = getter obj.

(** The declaration of an endpoint, which no run changes. *)
Definition sameDeclaration (this this' : Client.CacheEndpoint) : Prop :=
  Client.name this' = Client.name this
  ∧ Client.idGetter this' = Client.idGetter this
  ∧ Client.InstanceClass this' = Client.InstanceClass this.

(** Everything of an endpoint but its heap and its trace. *)
Definition sameStorage (this this' : Client.CacheEndpoint) : Prop :=
  Client.cacheList this' = Client.cacheList this
  ∧ Client.cacheMap this' = Client.cacheMap this
  ∧ Client.indices this' = Client.indices this
  ∧ Client.nUpdates this' = Client.nUpdates this
  ∧ Client.idGetter this' = Client.idGetter this
  ∧ Client.InstanceClass this' = Client.InstanceClass this
  ∧ Client.name this' = Client.name this.

(** In the course of the fan-out of [IndexSet._addInstance]: the index
    named [n], if the set has one, holds the object. *)
Definition allStore (o : gmap string Value) (obj : loc) (n : string)
    (acc : gmap string Index * list Event) : Prop :=
  ∀ index, fst acc !! n = Some index → storedAt index o obj.

(** C8 as the specification words it, for one public command [run] of
    the Host: for a cache name under which no endpoint is registered it
    is rejected as an invalid request, and the store and the heap are as
    before; for a registered one it is rejected for lack of permissions,
    with nothing done at all, unless the user has the minimum role, and
    only then it is what the endpoint makes of it. *)
Definition gated {A} (this : Host.Public.Instance) (cacheName : string)
    (run : Host.World → Completion (Promise A) * Host.World)
    (delegate : Host.Public.DataProvider → Host.World → Promise A * Host.World)
  : Prop :=
  ∀ w,
    match Host.Public.cacheEndpoints this !! cacheName with
    | None =>
        fst (run w) = Normal (Rejected (ErrCode "error.invalid.request"))
        ∧ storeCalls (Host.trace (snd (run w))) = storeCalls (Host.trace w)
        ∧ Host.heap (snd (run w)) = Host.heap w
    | Some dataProvider =>
        if Host.Public.hasRole this (Host.Public.getMinRole this)
        then run w = (Normal (fst (delegate dataProvider w)),
                      snd (delegate dataProvider w))
        else run w = (Normal (Rejected (ErrCode "error.invalid.permissions")), w)
    end.




(** C10 as the specification words it: for every argument that is
    neither [null] nor [undefined], [wrapped] fires exactly once. *)
Definition nullish (data : Data) : bool :=
  match data with
  | DNull | DUndefined | DOther VNull | DOther VUndefined => true
  | _ => false
  end.

Definition firesOnceUnlessNull (InstanceClass : bool) (data : Data)
    (h : gmap nat (gmap string Value)) : Prop :=
  nullish data = false →
  length (omap (λ e, match e with Wrapped obj => Some obj | _ => None end)
               (snd (wrapObject InstanceClass data h))) = 1.

(** C2 as the specification words it: after the rejected [deleteObject]
    and its rollback, the removed object [obj] is in [list], in [map]
    under the id, and found by [getObjectNow]. *)
Definition reinsertsRemoved (id : Value) (obj : nat) (err : Err)
    (this : Client.CacheEndpoint) : Prop :=
  let this' := snd (Client.deleteObject (AnId id) (Client.HostRejects err) this) in
  obj ∈ Client.cacheList this'
  ∧ Client.cacheMap this' !! ToPropertyKey id = Some obj
  ∧ Client.getObjectNow id this' = Client.NowObject obj.

(** C9 as the specification words it: whenever [map] has nothing under
    the input, [getObjectNow] returns [undefined]. *)
Definition missReadsUndefined (queryInput : Value) (this : Client.CacheEndpoint) : Prop :=
  Client.cacheMap this !! ToPropertyKey queryInput = None →
  Client.getObjectNow queryInput this = Client.NowUndefined.


(** The premise of C3: the record [newValues] carries the id of the
    cached object [obj], and each of its properties is deep-equal to the
    property of [obj] of the same name. *)
Definition mergesNothingNew (newValues obj : loc) (this : Client.CacheEndpoint) : Prop :=
  Client.cacheMap this
    !! ToPropertyKey (Client.idGetter this (Client.deref this newValues)) = Some obj
  ∧ ∀ propName v, Client.deref this newValues !! propName = Some v →
      equals v (getProp (Client.deref this obj) propName) = true.

(** C3 as the specification words it: such a merge puts nothing into the
    changed set, fires no [updated] and leaves [nUpdates] alone. *)
Definition silentMerge (newValues obj : loc) (queryInput : Value)
    (this : Client.CacheEndpoint) : Prop :=
  mergesNothingNew newValues obj this →
  let '(newData, this') := Client._applyChanges (Some [newValues]) queryInput this in
  newData = []
  ∧ updatedFired (Client.trace this') = updatedFired (Client.trace this)
  ∧ Client.nUpdates this' = Client.nUpdates this.

End Statements.

End Spec.

(** ** The scenarios of the specification, as runs *)

Module Scenario.
Import Js Angular Base.

(** The runs use the comparison of AngularJS, the reference engine and
    the standard prototype. *)
#[local] Existing Instance angular.
#[local] Existing Instance decimalEngine.
#[local] Existing Instance standardPrototype.

(** The cache [Users]: ids under [id], a unique index on [email]. *)
Definition emailIndex : IndexDef :=
  {| key := ["email"]; unique := true; Base.name := None |}.

Definition user (id : Z) (email : string) : gmap string Value :=
  <["id" := VNum id]> (<["email" := VStr email]> ∅).

(** Three records have arrived: 1 is [{id:1, email:"a@x.com"}], 2 says
    the same again, 3 is [{id:1, email:"b@x.com"}]. *)
Definition records : gmap nat (gmap string Value) :=
  <[1 := user 1 "a@x.com"]> (<[2 := user 1 "a@x.com"]> (<[3 := user 1 "b@x.com"]> ∅)).

Definition users : Client.CacheEndpoint :=
  Client.new "Users" (Client.idGetterOf "id") false (Some [emailIndex]) records.

(** Insert record 1; merge record 2; merge record 3. *)
Definition inserted : Client.CacheEndpoint :=
  snd (Client._applyChanges (Some [1]) VUndefined users).
Definition mergedSame : Client.CacheEndpoint :=
  snd (Client._applyChanges (Some [2]) VUndefined inserted).
Definition mergedEmail : Client.CacheEndpoint :=
  snd (Client._applyChanges (Some [3]) VUndefined mergedSame).

(** Then [removeFromCache(1)]. *)
Definition removed : Client.CacheEndpoint :=
  snd (Client.removeFromCache (AnId (VNum 1)) mergedEmail).

(** The cache [People], without indices: object 1 is
    [{id:1, name:"Ann"}], and 2 is the update [{id:1, nick:"A"}], which
    has a property the object lacks. *)
Definition people : Client.CacheEndpoint :=
  snd (Client._applyChanges (Some [1]) VUndefined
         (Client.new "People" (Client.idGetterOf "id") false None
            (<[1 := <["id" := VNum 1]> (<["name" := VStr "Ann"]> ∅)]>
               (<[2 := <["id" := VNum 1]> (<["nick" := VStr "A"]> ∅)]> ∅)))).

Definition permissionDenied : Err := ErrCode "error.invalid.permissions".

(** [updateObject({id:1, nick:"A"})], rejected by the Host. *)
Definition peopleAfterRejectedUpdate : Client.CacheEndpoint :=
  snd (Client.updateObject 2 (Client.HostRejects permissionDenied) people).

(** The cache [People] with two objects in it: 1 is
    [{id:1, name:"Ann"}], 2 is [{id:2, name:"Bea"}]; and 3 is the update
    [{id:1, name:"Bob"}], which has no property that the object lacks. *)
Definition crew : Client.CacheEndpoint :=
  snd (Client._applyChanges (Some [1; 2]) VUndefined
         (Client.new "People" (Client.idGetterOf "id") false None
            (<[1 := <["id" := VNum 1]> (<["name" := VStr "Ann"]> ∅)]>
               (<[2 := <["id" := VNum 2]> (<["name" := VStr "Bea"]> ∅)]>
                  (<[3 := <["id" := VNum 1]> (<["name" := VStr "Bob"]> ∅)]> ∅))))).

(** The cache [Users] declared with an [InstanceProto]: the record 1 is
    wrapped into an instance, which is the object 4. *)
Definition profiles : Client.CacheEndpoint :=
  snd (Client._applyChanges (Some [1]) VUndefined
         (Client.new "Users" (Client.idGetterOf "id") true (Some [emailIndex])
            records)).

(** A Host with one default endpoint [Users], whose store knows user 1,
    and a visitor below the minimum role. *)
Definition usersModel : Host.Model :=
  {| Host.find := λ q, Resolved (if strictEq q (VNum 1) then Some (user 1 "a@x.com") else None);
     Host.findAll := λ _, Resolved [user 1 "a@x.com"];
     Host.create := λ _, Resolved (user 2 "c@x.com");
     Host.update := λ _ _, Resolved tt;
     Host.destroy := λ _, Resolved tt |}.

Definition usersConfig : Host.Config :=
  {| Host.name := "Users"; Host.idProperty := Some "id";
     Host.idGetter := λ o, getProp o "id"; Host.InstanceClass := false;
     Host.getModel := usersModel; Host.isStaff := true |}.

Definition hostOf (mayAccess : bool) : Host.Public.Instance :=
  {| Host.Public.cacheEndpoints :=
       {[ "Users" := Host.defaultProvider usersConfig ]};
     Host.Public.hasRole := λ _, mayAccess;
     Host.Public.getMinRole := VNum 1 |}.

Definition emptyWorld : Host.World := {| Host.heap := ∅; Host.trace := [] |}.

End Scenario.

(** ** The Client endpoint, continued: reads through the Host, creation *)

Module ClientRemote.
Import Js Angular Base Client.

(** The reply of the Host to a read, as the promise of the remote call
    settles: what it resolves with, or the reason it is rejected with,
    if it comes with one ([None] is a rejection with [undefined]). *)
Inductive FetchReply (A : Type) :=
| FetchResolves (result : A)
| FetchRejects (reason : option Err).
Arguments FetchResolves {A} result.
Arguments FetchRejects {A} reason.

(** The setter that [installComponentCache] builds from an
    [idProperty] that is an identifier name ([Js.isIdentifierName]):
    [function(obj, value) { obj.<idProperty> = value; }].  (A write to a
    name that the object inherits a setter for, [__proto__], does not
    make a property; the statements about the setter leave inherited
    names out.) *)
Definition idSetterOf (idProperty : string) : JsObj → Value → JsObj :=
  λ o value, <[idProperty := value]> o.

(** [onError(err)]: the default hands the error to [handleError]. *)
Definition onError (err : Err) (this : CacheEndpoint) : CacheEndpoint :=
  emit [HandleError err] this.

(** [Boolean(err)] of a rejection reason: the empty string and a falsy
    error value are falsy, an array is not. *)
Definition truthyReason (err : Err) : bool :=
  match err with
  | ErrCode code => negb (String.eqb code "")
  | ErrQuery _ _ => true
  | ErrStore e => ToBoolean e
  end.

(** [err || fallback]. *)
Definition reasonOr (fallback : Err) (reason : option Err) : Err :=
  match reason with
  | Some err => if truthyReason err then err else fallback
  | None => fallback
  end.

(** The objects of a reply arrive as new objects of the heap. *)
Fixpoint allocAll (objects : list JsObj) (h : Heap) : list loc * Heap :=
  match objects with
  | [] => ([], h)
  | object :: rest =>
      let '(obj, h) := alloc object h in
      let '(objs, h) := allocAll rest h in
      (obj :: objs, h)
  end.

Section WithEquality.
Context `{!DeepEquality}.

(** [readObject(queryInput)] up to the settling of the promise it
    returns, which it always does by resolving: with what [applyChange]
    returns, or with [undefined] after [onError].  A reply without an
    object makes [applyChange] throw in the [then], which the [catch]
    hands to [onError] like a rejection. *)
Definition readObject (queryInput : Value) (reply : FetchReply (option JsObj))
    (this : CacheEndpoint) : option loc * CacheEndpoint :=
  let this := emit [HostCall "fetchObject" (name this) (AnId queryInput)] this in
  match reply with
  | FetchResolves (Some object) =>
      let '(obj, h) := alloc object (heap this) in
      applyChange obj queryInput (setHeap h this)
  | FetchResolves None => (None, onError (ErrCode "TypeError") this)
  | FetchRejects err =>
      (None,
       onError (reasonOr (ErrQuery "cache.error.object.notFound" queryInput) err) this)
  end.

(** [readObjects(queryInput)], likewise; it resolves with the array that
    [_applyChanges] returns, or with [undefined]. *)
Definition readObjects (queryInput : Value)
    (reply : FetchReply (option (list JsObj))) (this : CacheEndpoint)
  : option (list loc) * CacheEndpoint :=
  let this := emit [SendingReadQueryToHost queryInput] this in
  let this := emit [HostCall "fetchObjects" (name this) (AnId queryInput)] this in
  match reply with
  | FetchResolves objects =>
      let '(data, h) :=
        match objects with
        | Some l => let '(objs, h) := allocAll l (heap this) in (Some objs, h)
        | None => (None, heap this)
        end in
      let '(newData, this) := _applyChanges data queryInput (setHeap h this) in
      (Some newData, this)
  | FetchRejects err =>
      (None,
       onError (reasonOr (ErrQuery "cache.error.objects.notFound" queryInput) err) this)
  end.

(** [createObject(queryInput)]: the draft object gets its id from the
    Host's answer through [idSetter], is merged, and is what the promise
    resolves with; a rejection of the Host is the rejection of the call. *)
Definition createObject (idSetter : JsObj → Value → JsObj) (queryInput : loc)
    (reply : HostReply) (this : CacheEndpoint) : Promise loc * CacheEndpoint :=
  let newObj := queryInput in
  let this := emit [HostCall "createObject" (name this) (AnObject newObj)] this in
  match reply with
  | HostResolves newObjId =>
      let this :=
        setHeap (<[newObj := idSetter (deref this newObj) newObjId]> (heap this))
                this in
      let '(_, this) := applyChange newObj VUndefined this in
      (Resolved newObj, this)
  | HostRejects err => (Rejected err, this)
  end.

Section WithEngine.
Context `{!Engine}.

(** [getObject(queryInput)]: what [getObjectNow] returns if it is
    truthy (a cached object resolves the promise, the rejected promise
    of a NaN input is the outcome), and [readObject] otherwise. *)
Definition getObject (queryInput : Value) (reply : FetchReply (option JsObj))
    (this : CacheEndpoint) : Promise (option loc) * CacheEndpoint :=
  match getObjectNow queryInput this with
  | NowObject obj => (Resolved (Some obj), this)
  | NowRejectedPromise err => (Rejected err, this)
  | NowUndefined =>
      let '(result, this) := readObject queryInput reply this in
      (Resolved result, this)
  end.

End WithEngine.

End WithEquality.

End ClientRemote.

(** ** The accessors of a cache declaration *)

Module Installer.
Import Js Base.

(** What [installComponentCache] reads of a cache descriptor to settle
    the accessors of the endpoint: [idGetter], [idSetter] and
    [idProperty], each if declared.  (Overriding [members] of the
    descriptor are copied onto the endpoint afterwards; a descriptor
    that overrides the accessors there is not covered.) *)
Record CacheDescriptor := {
  idGetter : option (JsObj → Value);
  idSetter : option (JsObj → Value → JsObj);
  idProperty : option string;
}.

(** [cacheDescriptor.idProperty] as a condition: the empty string counts
    as none. *)
Definition declaredIdProperty (cacheDescriptor : CacheDescriptor) : option string :=
  match idProperty cacheDescriptor with
  | Some p => if String.eqb p "" then None else Some p
  | None => None
  end.

(** What the installer settles an accessor to: a function, [undefined],
    or the value of source text that the model does not read (an
    [idProperty] that is no identifier name: the text is another
    expression, or the evaluation throws). *)
Inductive Settled (A : Type) :=
| Accessor (f : A)
| NoAccessor
| OtherText (idProperty : string).
Arguments Accessor {A} f.
Arguments NoAccessor {A}.
Arguments OtherText {A} idProperty.

(** [eval('(function(obj) { return obj.' + idProperty + ' } )')] and its
    like for the setter. *)
Definition evaluated {A} (accessorOf : string → A) (idProperty : string) : Settled A :=
  if isIdentifierName idProperty then Accessor (accessorOf idProperty)
  else OtherText idProperty.

(** A getter called as a setter, [idGetter(obj, value)]: it reads the id
    and writes nothing. *)
Definition getterAsSetter (getter : JsObj → Value) : JsObj → Value → JsObj :=
  λ o _, o.

(** [cacheDescriptor.idGetter || (cacheDescriptor.idProperty ?
    eval('(function(obj) { return obj.<idProperty> } )') :
    cacheDescriptor.idGetter)]. *)
Definition settledIdGetter (cacheDescriptor : CacheDescriptor)
  : Settled (JsObj → Value) :=
  match idGetter cacheDescriptor with
  | Some getter => Accessor getter
  | None =>
      match declaredIdProperty cacheDescriptor with
      | Some p => evaluated Client.idGetterOf p
      | None => NoAccessor
      end
  end.

(** [cacheDescriptor.idSetter || (cacheDescriptor.idProperty ?
    eval('(function(obj, value) { obj.<idProperty> = value; } )') :
    cacheDescriptor.idGetter)]: the last resort is the getter. *)
Definition settledIdSetter (cacheDescriptor : CacheDescriptor)
  : Settled (JsObj → Value → JsObj) :=
  match idSetter cacheDescriptor with
  | Some setter => Accessor setter
  | None =>
      match declaredIdProperty cacheDescriptor with
      | Some p => evaluated ClientRemote.idSetterOf p
      | None =>
          match idGetter cacheDescriptor with
          | Some getter => Accessor (getterAsSetter getter)
          | None => NoAccessor
          end
      end
  end.

End Installer.

(** ** Further observations and invariants *)

Module Inv.
Import Js Angular Base.

(** The objects the [removed] event was fired with. *)
Definition removedFired (evs : list Event) : list loc :=
  omap (λ e, match e with Removed obj => Some obj | _ => None end) evs.

(** The errors handed to [handleError]. *)
Definition handledErrors (evs : list Event) : list Err :=
  omap (λ e, match e with HandleError err => Some err | _ => None end) evs.

(** The pushes of the Host to the Client. *)
Definition clientPushes (evs : list Event) : list Event :=
  omap (λ e, match e with
             | ClientApplyChanges _ _ | ClientRemoveFromCache _ _ => Some e
             | _ => None
             end) evs.

(** Console output, which is all that the indices ever emit. *)
Definition isConsole (e : Event) : Prop :=
  match e with
  | ConsoleAssert _ | ConsoleError _ | ConsoleErrorObject _ | ConsoleWarn _ => True
  | _ => False
  end.

(** What the first loop of [_applyChanges] can emit: console output and
    the notifications of [wrapObject]. *)
Definition isWrapping (e : Event) : Prop :=
  match e with
  | OnWrapObject _ | Wrapped _ => True
  | _ => isConsole e
  end.

(** What its second loop can emit: console output and [onAddedObject]. *)
Definition isAdding (e : Event) : Prop :=
  match e with
  | OnAddedObject _ => True
  | _ => isConsole e
  end.

(** The events of the Host that are neither store calls nor pushes. *)
Definition isHostLocal (e : Event) : Prop :=
  match e with
  | OnWrapObject _ | Wrapped _ => True
  | _ => isConsole e
  end.

(** Every object of [objs] exists. *)
Definition allocated (h : Heap) (objs : list loc) : Prop :=
  ∀ obj, obj ∈ objs → is_Some (h !! obj).

(** [map] is keyed by id: every object it holds exists, and the key it
    is held under is the one its id spells. *)
Definition keyedById (this : Client.CacheEndpoint) : Prop :=
  ∀ k obj, Client.cacheMap this !! k = Some obj →
    is_Some (Client.heap this !! obj) ∧ Spec.keyOf this obj = k.

(** [list] and [map] are two views of the same objects. *)
Definition sameMembers (this : Client.CacheEndpoint) : Prop :=
  ∀ obj, obj ∈ Client.cacheList this ↔ ∃ k, Client.cacheMap this !! k = Some obj.

(** Every definition of the index set has its index. *)
Definition complete (ix : IndexSet) : Prop :=
  ∀ indexDef, indexDef ∈ _indexDefs ix →
    is_Some (byName ix !! IndexSet.indexName indexDef).

(** The full key of [get(args)], as property names. *)
Definition keyPath (args : list Value) : list string := ToPropertyKey <$> args.

(** No name of the path is one that a plain object inherits. *)
Definition plainPath `{Prototype} (path : list string) : bool :=
  forallb (λ val, negb (inherits val)) path.

(** The values that the object [o] has under the properties that the
    indices key on spell no name that a plain object inherits. *)
Definition plainlyKeyed `{Prototype} (indices : option IndexSet)
    (o : gmap string Value) : bool :=
  match indices with
  | Some ix =>
      forallb (λ indexDef, plainPath (keyPath (getProp o <$> key indexDef)))
              (_indexDefs ix)
  | None => true
  end.


(** The arguments that are falsy: [null], [undefined], [false], [0],
    NaN and the empty string. *)
Definition falsy (data : Data) : bool :=
  match data with
  | DNull | DUndefined
  | DOther (VNull | VUndefined | VNaN | VBool false | VNum 0 | VStr "") => true
  | _ => false
  end.

(** The objects and the data that [wrapped] was fired with, and that
    [onWrapObject] was called with. *)
Definition wrappedWith (evs : list Event) : list Data :=
  omap (λ e, match e with Wrapped obj => Some obj | _ => None end) evs.

Definition onWrapObjectWith (evs : list Event) : list Data :=
  omap (λ e, match e with OnWrapObject obj => Some obj | _ => None end) evs.

(** What the setter writes is what the getter reads. *)
Definition lawful (getter : gmap string Value → Value)
    (setter : gmap string Value → Value → gmap string Value) : Prop :=
  ∀ o value, getter (setter o value) = value.

End Inv.

(** * Properties

    The lemmas below are about the definitions above: first the values,
    the heap and the indices, then the merge [_applyChanges] and what the
    optimistic mutations build on it, then the Host, and last the
    scenarios of the specification run on the model. *)

Import Js Angular Base.

(** ** Values and the heap *)

Section ValueFacts.
Context {deepEquality : DeepEquality}.

(** A record is dropped by the first loop exactly when each of its
    properties equals the cached one. *)
Lemma changed_false (newValues obj : gmap string Value) :
  Client.changed newValues obj = false ↔
  ∀ propName v, newValues !! propName = Some v →
    equals v (getProp obj propName) = true.
Proof.
  unfold Client.changed. rewrite <- not_true_iff_false, existsb_exists. split.
  - intros Hno p v Hp.
    destruct (equals v (getProp obj p)) eqn:E; [done|].
    exfalso. apply Hno. exists (p, v). split.
    + apply list_elem_of_In, elem_of_map_to_list, Hp.
    + simpl. by rewrite E.
  - intros Hall [[p v] [Hin Hne]]. simpl in Hne.
    apply list_elem_of_In, elem_of_map_to_list in Hin.
    rewrite (Hall _ _ Hin) in Hne. discriminate.
Qed.

(** The copy has the properties of the record. *)
Lemma getProp_shallowCopy_l (newValues obj : gmap string Value) propName v :
  newValues !! propName = Some v →
  getProp (Client.shallowCopy newValues obj) propName = v.
Proof.
  intros Hp. unfold getProp, Client.shallowCopy.
  by rewrite (lookup_union_Some_l _ _ _ _ Hp).
Qed.

Lemma fresh_not_allocated (h : gmap nat (gmap string Value)) (l : nat) :
  is_Some (h !! l) → fresh (dom h) ≠ l.
Proof.
  intros Hl Heq. apply (is_fresh (dom h)). rewrite Heq. by apply elem_of_dom.
Qed.

Lemma props_insert_ne (h : gmap nat (gmap string Value)) l l' o :
  l ≠ l' → props (<[l := o]> h) l' = props h l'.
Proof. intros. unfold props. by rewrite lookup_insert_ne. Qed.

Lemma props_insert_eq (h : gmap nat (gmap string Value)) l o :
  props (<[l := o]> h) l = o.
Proof. unfold props. by rewrite lookup_insert_eq. Qed.

Lemma props_allocated (h : gmap nat (gmap string Value)) l o :
  h !! l = Some o → props h l = o.
Proof. unfold props. by intros ->. Qed.

End ValueFacts.

(** Unfold the observations of a trace and push them through appends. *)
Ltac observe :=
  unfold Spec.wrappedFired, Spec.onWrapObjectCalls, Spec.updatedFired,
    Spec.updatingFired, Spec.hostCalls, Spec.storeCalls in *;
  rewrite ?omap_app; cbn; rewrite ?app_nil_r.

(** ** Indices *)

Section IndexFacts.
Import Spec.

(** Reading the node at a path after writing through the same path. *)
Lemma descend_rebuild path f : ∀ node,
  Index.descend path (Index.rebuild path f node) = f (Index.descend path node).
Proof.
  induction path as [|val rest IH]; intros node; cbn; [done|].
  unfold Index.childOrNew at 1. cbn. rewrite lookup_insert_eq. cbn. apply IH.
Qed.

Lemma Index_addInstance_indexDef h obj index :
  _indexDef (fst (Index._addInstance h obj index)) = _indexDef index.
Proof. unfold Index._addInstance. by destruct (unique _). Qed.

(** After [_addInstance(obj)] the index holds [obj] at its key path. *)
Lemma Index_addInstance_stores h obj index :
  storedAt (fst (Index._addInstance h obj index)) (props h obj) obj.
Proof.
  unfold storedAt, entryAt, Index._getContainerNode.
  rewrite Index_addInstance_indexDef.
  unfold Index._addInstance. destruct (unique (_indexDef index)); cbn.
  - rewrite descend_rebuild. cbn. by rewrite lookup_insert_eq.
  - rewrite descend_rebuild. cbn. rewrite lookup_insert_eq.
    apply elem_of_app. right. by apply list_elem_of_singleton.
Qed.

(** [_removeInstance(obj)] on a unique index empties the leaf at the key
    path that the object has now, wherever the object was stored. *)
Lemma Index_removeInstance_clears_current_key h obj index :
  unique (_indexDef index) = true →
  entryAt (fst (Index._removeInstance h obj index)) (props h obj) = None.
Proof.
  intros Hu. unfold entryAt, Index._getContainerNode, Index._removeInstance.
  rewrite Hu. cbn. rewrite descend_rebuild. cbn. apply lookup_delete_eq.
Qed.

(** One step of the fan-out of [IndexSet._addInstance]: the index of the
    name [n] holds the object if it did, or if the step is for that name. *)
Lemma onIndex_add_keeps h obj n acc indexDef :
  allStore (props h obj) obj n acc ∨ IndexSet.indexName indexDef = n →
  allStore (props h obj) obj n (IndexSet.onIndex (Index._addInstance h obj) acc indexDef).
Proof.
  intros Hcase. unfold allStore, IndexSet.onIndex.
  destruct (fst acc !! IndexSet.indexName indexDef) as [idx|] eqn:Hidx.
  - pose proof (Index_addInstance_stores h obj idx) as Hst.
    destruct (Index._addInstance h obj idx) as [idx' evs]. cbn in *.
    intros index.
    destruct (decide (IndexSet.indexName indexDef = n)) as [<-|Hne].
    + rewrite lookup_insert_eq. by intros [= <-].
    + rewrite lookup_insert_ne by done. destruct Hcase as [Hall|]; [apply Hall|done].
  - intros index Hn. destruct Hcase as [Hall| <-]; [by apply Hall|congruence].
Qed.

(** Once the loop has passed a definition, the index of its name holds the
    object, and no later step takes it out again. *)
Lemma fold_add_stores h obj n indexDefs : ∀ acc,
  allStore (props h obj) obj n acc
  ∨ (∃ indexDef, indexDef ∈ indexDefs ∧ IndexSet.indexName indexDef = n) →
  allStore (props h obj) obj n
    (foldl (IndexSet.onIndex (Index._addInstance h obj)) acc indexDefs).
Proof.
  induction indexDefs as [|d rest IH]; intros acc Hcase; cbn.
  - destruct Hcase as [?|(x & Hx & _)]; [done|by apply elem_of_nil in Hx].
  - apply IH. destruct Hcase as [Hall|(x & Hx & Hn)].
    + left. apply onIndex_add_keeps. by left.
    + apply elem_of_cons in Hx as [->|Hx].
      * left. apply onIndex_add_keeps. by right.
      * right. eauto.
Qed.

Lemma IndexSet_addInstance_stores h obj (ix : IndexSet) indexDef index :
  let ix' := fst (IndexSet._addInstance h obj ix) in
  indexDef ∈ _indexDefs ix' →
  byName ix' !! IndexSet.indexName indexDef = Some index →
  storedAt index (props h obj) obj.
Proof.
  unfold IndexSet._addInstance.
  pose proof (fold_add_stores h obj (IndexSet.indexName indexDef)
                (_indexDefs ix) (byName ix, [])) as Hfold.
  destruct (foldl _ _ _) as [this evs]. cbn in *.
  intros Hin Hidx. apply Hfold; [|done]. right. eauto.
Qed.

Lemma removelast_fmap {A B} (f : A → B) (l : list A) :
  removelast (f <$> l) = f <$> removelast l.
Proof.
  induction l as [|a [|b l] IH]; cbn; [done..|]. cbn in IH. by rewrite IH.
Qed.

Lemma last_fmap_ne {A B} (f : A → B) (l : list A) d d' :
  l ≠ [] → List.last (f <$> l) d' = f (List.last l d).
Proof.
  induction l as [|a [|b l] IH]; intros Hne; cbn; [done..|].
  apply IH. done.
Qed.

(** What the index holds at the key path of an object is what [get] returns
    for the values of its key properties. *)
Lemma stored_entry_is_found index (o : gmap string Value) entry :
  key (_indexDef index) ≠ [] →
  entryAt index o = Some entry →
  lookup index (keyArgs index o) = Index.Hit entry.
Proof.
  intros Hne. unfold entryAt, lookup, keyArgs, Index.get, Index._getContainerNode.
  rewrite length_fmap, Nat.eqb_refl. cbn [negb].
  rewrite removelast_fmap, <- list_fmap_compose.
  rewrite (last_fmap_ne _ _ "undefined" _ Hne).
  unfold Index.containerPath, Index.leafValue, Index.leafPropertyName.
  intros Hentry.
  change (ToPropertyKey ∘ getProp o) with (λ p, ToPropertyKey (getProp o p)).
  by rewrite Hentry.
Qed.

End IndexFacts.

(** ** The endpoint base *)

Section BaseFacts.
Import Spec Inv.

(** C10 (amended).  For every endpoint, whether it has an instance class
    or not: [wrapObject] of a falsy argument ([null], [undefined],
    [false], [0], [NaN] or the empty string) returns [null], allocates
    nothing, calls no [onWrapObject] and fires no [wrapped]; of every
    other argument it returns the wrapped object, calls [onWrapObject]
    once and fires [wrapped] exactly once, both with that object, and
    nothing else happens.  Without an instance class the wrapped object
    is the argument itself and nothing is allocated; with one it is a
    new object, which has the properties of the argument when the
    argument is an object. *)
Theorem wrapObject_skips_falsy_and_fires_once
    (InstanceClass : bool) (data : Data) (h : gmap nat (gmap string Value)) :
  let '(result, h', evs) := wrapObject InstanceClass data h in
  if falsy data then
    result = DNull ∧ h' = h ∧ evs = []
    ∧ onWrapObjectWith evs = [] ∧ wrappedWith evs = []
  else
    wrappedWith evs = [result]
    ∧ onWrapObjectWith evs = [result]
    ∧ evs = [OnWrapObject result; Wrapped result]
    ∧ (if InstanceClass then
         ∃ obj, result = DObj obj
                ∧ h !! obj = None
                ∧ h' = <[obj := enumerable data h]> h
                ∧ ∀ d, data = DObj d → props h' obj = props h d
       else result = data ∧ h' = h).
Proof.
  assert (truthy data = negb (falsy data)) as Ht.
  { destruct data as [| |d|[| |[]|[]| |[]|ref ps]]; by cbn. }
  unfold wrapObject. rewrite Ht.
  destruct (falsy data); cbn; [done|].
  destruct InstanceClass; cbn; [|done].
  repeat split. eexists. repeat split.
  - apply not_elem_of_dom, is_fresh.
  - intros d ->. cbn. apply props_insert_eq.
Qed.

End BaseFacts.

(** ** The merge *)

Section MergeFacts.
Context {deepEquality : DeepEquality}.
Import Client Spec.

(** The accessor built from an [idProperty] is stable under the merge. *)
Lemma idGetterOf_mergeStable idProperty : mergeStable (idGetterOf idProperty).
Proof.
  intros newValues obj. unfold idGetterOf, getProp, shallowCopy.
  destruct (newValues !! idProperty) as [v|] eqn:Hv.
  - left. by rewrite (lookup_union_Some_l _ _ _ _ Hv).
  - right. by rewrite lookup_union_r.
Qed.

Lemma sameStorage_refl this : sameStorage this this.
Proof. by repeat split. Qed.

Lemma sameStorage_trans a b c : sameStorage a b → sameStorage b c → sameStorage a c.
Proof.
  unfold sameStorage. intros (?&?&?&?&?&?&?) (?&?&?&?&?&?&?).
  repeat split; congruence.
Qed.

Lemma addToIndices_storage obj this :
  heap (addToIndices obj this) = heap this
  ∧ cacheList (addToIndices obj this) = cacheList this
  ∧ cacheMap (addToIndices obj this) = cacheMap this
  ∧ idGetter (addToIndices obj this) = idGetter this
  ∧ InstanceClass (addToIndices obj this) = InstanceClass this
  ∧ nUpdates (addToIndices obj this) = nUpdates this
  ∧ name (addToIndices obj this) = name this.
Proof.
  unfold addToIndices. destruct (indices this) as [ix|]; [|done].
  by destruct (IndexSet._addInstance _ _ _) as [ix' evs].
Qed.

Lemma addToIndices_stores obj this ix indexDef index :
  indices (addToIndices obj this) = Some ix →
  indexDef ∈ _indexDefs ix →
  byName ix !! IndexSet.indexName indexDef = Some index →
  storedAt index (deref this obj) obj.
Proof.
  unfold addToIndices. destruct (indices this) as [ix0|] eqn:Hix; [|congruence].
  pose proof (IndexSet_addInstance_stores (heap this) obj ix0 indexDef index) as H.
  destruct (IndexSet._addInstance _ _ _) as [ix' evs]. cbn in *.
  intros [= <-]. exact H.
Qed.

Lemma wrap_storage newValues this :
  let '(obj, this') := wrap newValues this in
  sameStorage this this'
  ∧ (∀ l o, heap this !! l = Some o → heap this' !! l = Some o).
Proof.
  unfold wrap, wrapObject, alloc. destruct (InstanceClass this); cbn.
  - split; [by repeat split|]. intros l o Hl.
    rewrite lookup_insert_ne; [done|]. apply fresh_not_allocated. eauto.
  - split; [by repeat split|]. done.
Qed.

(** Merging one record whose id is in [map], in closed form. *)
Lemma applyChanges_cached_record this newValues queryInput obj :
  cacheMap this !! ToPropertyKey (idGetter this (deref this newValues)) = Some obj →
  let d := changed (deref this newValues) (deref this obj) in
  let '(newData, this') := _applyChanges (Some [newValues]) queryInput this in
  newData = (if d then [obj] else [])
  ∧ heap this' =
      (if d then <[obj := shallowCopy (deref this newValues) (deref this obj)]> (heap this)
       else heap this)
  ∧ cacheList this' = cacheList this
  ∧ cacheMap this' = cacheMap this
  ∧ indices this' = indices this
  ∧ nUpdates this' = S (nUpdates this)
  ∧ sameDeclaration this this'
  ∧ updatingFired (trace this')
      = updatingFired (trace this) ++ [(if d then [newValues] else [], queryInput)]
  ∧ updatedFired (trace this') = updatedFired (trace this) ++ [(newData, queryInput)]
  ∧ wrappedFired (trace this') = wrappedFired (trace this)
  ∧ hostCalls (trace this') = hostCalls (trace this).
Proof.
  intros Hmap d. subst d. unfold _applyChanges. cbn [removeNonUpdates].
  unfold updatingFired, updatedFired, wrappedFired, hostCalls, sameDeclaration.
  unfold deref in *.
  destruct (ToBoolean _) eqn:Hid; cbn; rewrite Hmap.
  all: destruct (changed _ _) eqn:Hd; cbn; unfold deref; cbn.
  all: rewrite ?Hmap; cbn.
  all: rewrite ?omap_app; cbn; rewrite ?app_nil_r; cbn.
  all: repeat split; reflexivity.
Qed.

(** Merging one record whose id is not in [map]: the (wrapped) record enters
    [list], [map] and every index. *)
Lemma applyChanges_unknown_record this newValues queryInput o :
  heap this !! newValues = Some o →
  cacheMap this !! ToPropertyKey (idGetter this o) = None →
  let '(newData, this') := _applyChanges (Some [newValues]) queryInput this in
  ∃ obj,
    newData = [obj]
    ∧ (InstanceClass this = false → obj = newValues)
    ∧ deref this' obj = o
    ∧ cacheList this' = cacheList this ++ [obj]
    ∧ cacheMap this' = <[ToPropertyKey (idGetter this o) := obj]> (cacheMap this)
    ∧ (∀ ix indexDef index, indices this' = Some ix →
         indexDef ∈ _indexDefs ix →
         byName ix !! IndexSet.indexName indexDef = Some index →
         storedAt index o obj)
    ∧ nUpdates this' = S (nUpdates this)
    ∧ idGetter this' = idGetter this.
Proof.
  intros Hnv Hmap.
  assert (deref this newValues = o) as Hd by by apply props_allocated.
  unfold _applyChanges. cbn [removeNonUpdates]. rewrite Hd.
  set (this0 := if ToBoolean _ then this else emit _ this).
  assert (heap this0 = heap this ∧ cacheMap this0 = cacheMap this
          ∧ idGetter this0 = idGetter this ∧ cacheList this0 = cacheList this
          ∧ InstanceClass this0 = InstanceClass this ∧ nUpdates this0 = nUpdates this)
    as (Hh0 & Hm0 & Hi0 & Hl0 & Hc0 & Hn0).
  { unfold this0. by destruct (ToBoolean _). }
  rewrite Hm0, Hmap.
  (* the record is wrapped *)
  assert (∃ obj h1, wrap newValues this0
                    = (obj, emit [OnWrapObject (DObj obj); Wrapped (DObj obj)]
                                 (setHeap h1 this0))
            ∧ (InstanceClass this = false → obj = newValues)
            ∧ props h1 obj = o) as (obj & h1 & Hw & Hsame & Hobj).
  { unfold wrap, wrapObject, alloc. rewrite Hc0, Hh0.
    destruct (InstanceClass this); cbn.
    - eexists _, _. split; [reflexivity|]. split; [done|].
      rewrite (props_allocated _ _ _ Hnv). apply props_insert_eq.
    - eexists _, _. split; [reflexivity|]. split; [done|].
      by apply props_allocated. }
  rewrite Hw. cbn [removeNonUpdates app].
  set (this1 := emit [Updating [obj] queryInput] _).
  assert (deref this1 obj = o) as Hd1 by done.
  cbn [applyUpdates]. rewrite Hd1.
  assert (idGetter this1 o = idGetter this o) as ->.
  { unfold this1. cbn. by rewrite Hi0. }
  assert (cacheMap this1 = cacheMap this) as -> by (unfold this1; cbn; done).
  rewrite Hmap.
  set (this2 := setMap _ (setList _ this1)).
  pose proof (addToIndices_storage obj this2) as (Ha1 & Ha2 & Ha3 & Ha4 & _ & Ha6 & _).
  pose proof (addToIndices_stores obj this2) as Hst.
  assert (deref this2 obj = o) as Hd2 by done.
  rewrite Hd2 in Hst.
  exists obj. cbn. unfold deref. cbn. rewrite Ha1, Ha2, Ha3, Ha4, Ha6.
  repeat split; try done.
  - unfold this2, this1. cbn. by rewrite Hl0.
  - unfold this2, this1. cbn. by rewrite Hm0.
  - unfold this2, this1. cbn. by rewrite Hn0.
Qed.

(** The first loop touches neither [list] nor [map]; it only allocates. *)
Lemma removeNonUpdates_storage data : ∀ newData this,
  let '(newData', this') := removeNonUpdates data newData this in
  sameStorage this this'
  ∧ (∀ l o, heap this !! l = Some o → heap this' !! l = Some o).
Proof.
  induction data as [|newValues rest IH]; intros newData this; cbn [removeNonUpdates].
  { split; [apply sameStorage_refl|done]. }
  set (this0 := if ToBoolean _ then this else emit _ this).
  assert (sameStorage this this0 ∧ heap this0 = heap this) as [Hs0 Hh0].
  { unfold this0. destruct (ToBoolean _); split; by repeat split. }
  destruct (cacheMap this0 !! _) as [obj|].
  - destruct (changed _ _).
    + specialize (IH (newData ++ [newValues]) this0).
      destruct (removeNonUpdates rest _ this0) as [nd this'].
      destruct IH as [Hs Hh]. split; [by eapply sameStorage_trans|].
      intros l o Hl. apply Hh. by rewrite Hh0.
    + specialize (IH newData this0).
      destruct (removeNonUpdates rest _ this0) as [nd this'].
      destruct IH as [Hs Hh]. split; [by eapply sameStorage_trans|].
      intros l o Hl. apply Hh. by rewrite Hh0.
  - pose proof (wrap_storage newValues this0) as Hw.
    destruct (wrap newValues this0) as [obj this1]. destruct Hw as [Hs1 Hh1].
    specialize (IH (newData ++ [obj]) this1).
    destruct (removeNonUpdates rest _ this1) as [nd this'].
    destruct IH as [Hs Hh]. split.
    + eapply sameStorage_trans; [|exact Hs]. by eapply sameStorage_trans.
    + intros l o Hl. apply Hh, Hh1. by rewrite Hh0.
Qed.

(** The second loop only adds: entries of [map] stay, [list] grows at its
    end, no object is freed, and what it returns is in [map]. *)
Lemma applyUpdates_grows newData : ∀ this,
  let '(out, this') := applyUpdates newData this in
  (∀ k obj, cacheMap this !! k = Some obj → cacheMap this' !! k = Some obj)
  ∧ cacheList this `prefix_of` cacheList this'
  ∧ (∀ l, is_Some (heap this !! l) → is_Some (heap this' !! l))
  ∧ (∀ x, x ∈ out → ∃ k, cacheMap this' !! k = Some x).
Proof.
  induction newData as [|newValues rest IH]; intros this; cbn [applyUpdates].
  { repeat split; try done. intros x Hx. by apply elem_of_nil in Hx. }
  destruct (cacheMap this !! _) as [obj|] eqn:Hk.
  - set (this1 := setHeap _ this). specialize (IH this1).
    destruct (applyUpdates rest this1) as [out this'].
    destruct IH as (Hm & Hl & Hh & Hout). repeat split.
    + intros k o Ho. by apply Hm.
    + done.
    + intros l Hl'. apply Hh. unfold this1. cbn.
      destruct (decide (obj = l)) as [->|]; [by rewrite lookup_insert_eq|].
      by rewrite lookup_insert_ne.
    + intros x [->|Hx]%elem_of_cons; [|by apply Hout].
      eexists. apply Hm. exact Hk.
  - set (this1 := emit _ _). specialize (IH this1).
    destruct (applyUpdates rest this1) as [out this'].
    destruct IH as (Hm & Hl & Hh & Hout).
    destruct (addToIndices_storage newValues
                (setMap (<[ToPropertyKey (idGetter this (deref this newValues)):=newValues]>
                           (cacheMap this))
                        (setList (cacheList this ++ [newValues]) this)))
      as (Ha1 & Ha2 & Ha3 & _).
    repeat split.
    + intros k o Ho. apply Hm. unfold this1. cbn. rewrite Ha3. cbn.
      rewrite lookup_insert_ne; [done|]. intros <-. congruence.
    + etrans; [|exact Hl]. unfold this1. cbn. rewrite Ha2. cbn.
      by apply prefix_app_r.
    + intros l Hl'. apply Hh. unfold this1. cbn. by rewrite Ha1.
    + intros x [->|Hx]%elem_of_cons; [|by apply Hout].
      eexists. apply Hm. unfold this1. cbn. rewrite Ha3. cbn.
      apply lookup_insert_eq.
Qed.

Lemma known_transfer this this' newValues :
  heap this' = heap this → cacheMap this' = cacheMap this →
  idGetter this' = idGetter this →
  known this newValues → known this' newValues.
Proof.
  unfold known, keyOf, deref. by intros -> -> ->.
Qed.

(** When every record carries a known id, the first loop wraps nothing and
    keeps records of the input only. *)
Lemma removeNonUpdates_all_known data : ∀ newData this,
  (∀ newValues, newValues ∈ data → known this newValues) →
  let '(newData', this') := removeNonUpdates data newData this in
  heap this' = heap this
  ∧ wrappedFired (trace this') = wrappedFired (trace this)
  ∧ (∀ x, x ∈ newData' → x ∈ newData ∨ x ∈ data).
Proof.
  induction data as [|newValues rest IH]; intros newData this Hall;
    cbn [removeNonUpdates].
  { repeat split; try done. by left. }
  set (this0 := if ToBoolean _ then this else emit _ this).
  assert (heap this0 = heap this ∧ cacheMap this0 = cacheMap this
          ∧ idGetter this0 = idGetter this
          ∧ wrappedFired (trace this0) = wrappedFired (trace this))
    as (Hh0 & Hm0 & Hi0 & Hw0).
  { unfold this0. destruct (ToBoolean _); repeat split. cbn. by observe. }
  assert (∀ nv, nv ∈ rest → known this0 nv) as Hrest.
  { intros nv Hnv. apply (known_transfer this); try done.
    apply Hall. by right. }
  destruct (Hall newValues ltac:(by left)) as [obj Hobj].
  unfold keyOf in Hobj. rewrite Hm0, Hobj.
  destruct (changed _ _).
  - specialize (IH (newData ++ [newValues]) this0 Hrest).
    destruct (removeNonUpdates rest _ this0) as [nd this'].
    destruct IH as (Hh & Hw & Hsub). repeat split; [congruence..|].
    intros x Hx. destruct (Hsub x Hx) as [[?| ->%list_elem_of_singleton]%elem_of_app|?].
    + by left.
    + right. by left.
    + right. by right.
  - specialize (IH newData this0 Hrest).
    destruct (removeNonUpdates rest _ this0) as [nd this'].
    destruct IH as (Hh & Hw & Hsub). repeat split; [congruence..|].
    intros x Hx. destruct (Hsub x Hx); [by left|right; by right].
Qed.

(** When every record carries a known id, the second loop leaves [list],
    [map] and the indices alone: it writes into cached objects only. *)
Lemma applyUpdates_all_known newData : ∀ this,
  mergeStable (idGetter this) →
  (∀ newValues, newValues ∈ newData → known this newValues) →
  let '(out, this') := applyUpdates newData this in
  sameStorage this this' ∧ trace this' = trace this.
Proof.
  induction newData as [|newValues rest IH]; intros this Hstable Hall;
    cbn [applyUpdates].
  { split; [apply sameStorage_refl|done]. }
  destruct (Hall newValues ltac:(by left)) as [obj Hobj].
  unfold keyOf in Hobj. rewrite Hobj.
  set (this1 := setHeap _ this).
  assert (∀ nv, nv ∈ rest → known this1 nv) as Hrest.
  { intros nv Hnv. pose proof (Hall nv ltac:(by right)) as Hk.
    unfold known, keyOf, deref, this1 in *. cbn.
    destruct (decide (obj = nv)) as [->|Hne].
    - rewrite props_insert_eq. unfold deref.
      destruct (Hstable (props (heap this) newValues) (props (heap this) nv))
        as [-> | ->]; [by rewrite Hobj|exact Hk].
    - by rewrite props_insert_ne. }
  specialize (IH this1 Hstable Hrest).
  destruct (applyUpdates rest this1) as [out this'].
  destruct IH as [Hs Ht]. split; [|done].
  eapply sameStorage_trans; [|exact Hs]. by repeat split.
Qed.

(** C3 (amended).  Merging a record whose id is cached and whose every
    property is deep-equal to the cached one puts nothing into the
    changed set and leaves the heap, [list], [map] and the indices as
    they are; [updating] and [updated] still fire, once each, with the
    empty delta, and [nUpdates] is one more. *)
Theorem merge_of_equal_record_fires_empty_delta
    (this : CacheEndpoint) (newValues obj : nat) (queryInput : Value) :
  mergesNothingNew newValues obj this →
  let '(newData, this') := _applyChanges (Some [newValues]) queryInput this in
  newData = []
  ∧ heap this' = heap this
  ∧ cacheList this' = cacheList this
  ∧ cacheMap this' = cacheMap this
  ∧ indices this' = indices this
  ∧ updatingFired (trace this') = updatingFired (trace this) ++ [([], queryInput)]
  ∧ updatedFired (trace this') = updatedFired (trace this) ++ [([], queryInput)]
  ∧ nUpdates this' = S (nUpdates this).
Proof.
  intros [Hmap Heq].
  pose proof (applyChanges_cached_record this newValues queryInput obj Hmap) as L.
  apply changed_false in Heq. cbv zeta in L. rewrite Heq in L.
  destruct (_applyChanges _ _ _) as [newData this'].
  destruct L as (-> & Hh & Hl & Hm & Hi & Hn & _ & Hing & Hed & _).
  by repeat split.
Qed.

(** C5.  Whatever is merged, an object that [map] holds under an id is
    held under that id afterwards, as the same reference; [list] keeps
    its entries and grows at the end only; no object of the heap goes
    away, so a reference held outside still points to the object, which
    is written in place; every object returned is a reference of [map];
    and when every incoming record carries an id that [map] knows (the
    accessor being stable under the merge, as one built from an
    [idProperty] is), [map], [list] and the indices are unchanged and
    nothing is wrapped: only ids not yet present bring new instances. *)
Theorem merge_preserves_identity
    (this : CacheEndpoint) (data : option (list nat)) (queryInput : Value)
    (k : string) (obj : nat) :
  cacheMap this !! k = Some obj →
  let '(newData, this') := _applyChanges data queryInput this in
  cacheMap this' !! k = Some obj
  ∧ cacheList this `prefix_of` cacheList this'
  ∧ (∀ l, is_Some (heap this !! l) → is_Some (heap this' !! l))
  ∧ (∀ x, x ∈ newData → ∃ k', cacheMap this' !! k' = Some x)
  ∧ (mergeStable (idGetter this) →
     (∀ newValues, newValues ∈ default [] data → known this newValues) →
     cacheMap this' = cacheMap this
     ∧ cacheList this' = cacheList this
     ∧ indices this' = indices this
     ∧ wrappedFired (trace this') = wrappedFired (trace this)).
Proof.
  intros Hk. unfold _applyChanges. destruct data as [d|]; cbn [default].
  - pose proof (removeNonUpdates_storage d [] this) as H1.
    pose proof (removeNonUpdates_all_known d [] this) as K1.
    destruct (removeNonUpdates d [] this) as [nd1 this1].
    destruct H1 as [(Hl1 & Hm1 & Hi1 & Hn1 & Hp1 & Hc1 & Hname1) Hh1].
    set (this1' := emit [Updating nd1 queryInput] this1).
    pose proof (applyUpdates_grows nd1 this1') as H2.
    pose proof (applyUpdates_all_known nd1 this1') as K2.
    destruct (applyUpdates nd1 this1') as [out this2].
    destruct H2 as (Hm2 & Hl2 & Hh2 & Hout). cbn.
    split; [apply Hm2; unfold this1'; cbn; by rewrite Hm1|].
    split; [by rewrite <- Hl1|].
    split.
    { intros l [o Hl]. apply Hh2. unfold this1'. cbn. eauto. }
    split; [done|].
    intros Hstable Hall. destruct (K1 Hall) as (Hh & Hw & Hsub).
    destruct K2 as [(Hl3 & Hm3 & Hi3 & _) Ht3].
    { unfold this1'. cbn. by rewrite Hp1. }
    { intros nv Hnv. apply (known_transfer this); unfold this1'; cbn; try done.
      destruct (Hsub nv Hnv) as [Hnil|Hd]; [by apply elem_of_nil in Hnil|].
      by apply Hall. }
    rewrite Hl3, Hm3, Hi3, Ht3. unfold this1'. cbn.
    repeat split; try done.
    unfold wrappedFired in *. rewrite !omap_app, Hw. cbn. by rewrite !app_nil_r.
  - cbn. repeat split; try done.
    + intros x Hx. by apply elem_of_nil in Hx.
    + unfold wrappedFired. rewrite !omap_app. cbn. by rewrite !app_nil_r.
Qed.


End MergeFacts.

(** ** Removal, reads and the rejected delete *)

Section RemovalFacts.
Context {deepEquality : DeepEquality} {engine : Engine} {prototype : Prototype}.
Import Client Spec Inv.

Lemma removeFromIndices_storage obj this :
  heap (removeFromIndices obj this) = heap this
  ∧ cacheList (removeFromIndices obj this) = cacheList this
  ∧ cacheMap (removeFromIndices obj this) = cacheMap this
  ∧ idGetter (removeFromIndices obj this) = idGetter this
  ∧ InstanceClass (removeFromIndices obj this) = InstanceClass this
  ∧ nUpdates (removeFromIndices obj this) = nUpdates this
  ∧ name (removeFromIndices obj this) = name this.
Proof.
  unfold removeFromIndices. destruct (indices this) as [ix|]; [|done].
  by destruct (IndexSet._removeInstance _ _ _) as [ix' evs].
Qed.

(** What [removeFromCache] does for an id that is in [map]. *)
Lemma removeFromCache_known objectOrId id obj this :
  resolveId this objectOrId = Normal id →
  cacheMap this !! ToPropertyKey id = Some obj →
  let '(result, this') := removeFromCache objectOrId this in
  result = Normal (Some obj)
  ∧ heap this' = heap this
  ∧ cacheMap this' = delete (ToPropertyKey id) (cacheMap this)
  ∧ idGetter this' = idGetter this
  ∧ InstanceClass this' = InstanceClass this
  ∧ name this' = name this.
Proof.
  intros Hid Hmap. unfold removeFromCache. rewrite Hid, Hmap.
  set (this1 := setList _ (setMap _ this)).
  pose proof (removeFromIndices_storage obj this1) as (H1 & H2 & H3 & H4 & H5 & _ & H7).
  cbn. rewrite H1, H3, H4, H5, H7. by repeat split.
Qed.

(** For an id that is not in [map], [removeFromCache] returns [undefined]
    and changes nothing. *)
Lemma removeFromCache_unknown objectOrId id this :
  resolveId this objectOrId = Normal id →
  cacheMap this !! ToPropertyKey id = None →
  removeFromCache objectOrId this = (Normal None, this).
Proof. intros Hid Hmap. unfold removeFromCache. by rewrite Hid, Hmap. Qed.

(** After [removeFromCache], [map] has nothing under the id. *)
Lemma removeFromCache_then_miss objectOrId id obj this :
  resolveId this objectOrId = Normal id →
  cacheMap this !! ToPropertyKey id = Some obj →
  cacheMap (snd (removeFromCache objectOrId this)) !! ToPropertyKey id = None.
Proof.
  intros Hid Hmap.
  pose proof (removeFromCache_known objectOrId id obj this Hid Hmap) as Hrm.
  destruct (removeFromCache objectOrId this) as [r this']. cbn.
  destruct Hrm as (_ & _ & -> & _). apply lookup_delete_eq.
Qed.

Lemma getObjectNow_hit queryInput this obj :
  getObjectNow queryInput this = NowObject obj →
  isNaN queryInput = false ∧ cacheMap this !! ToPropertyKey queryInput = Some obj.
Proof.
  unfold getObjectNow. destruct (isNaN queryInput); [done|].
  destruct (cacheMap this !! _); [|done]. by intros [= ->].
Qed.

(** C9 (amended).  [getObjectNow] is a function of [map] and the input
    alone: for an input that converts to a number it returns the object
    that [map] holds under it, or [undefined] when there is none; for
    an input that converts to NaN it returns a promise rejected with
    ['error.invalid.request'], not [null] or [undefined].  It sends
    nothing and changes nothing: endpoints with the same [map] give the
    same answer.  The method of the base class returns [null]. *)
Theorem getObjectNow_reads_map_only (queryInput : Value) (this : CacheEndpoint) :
  getObjectNow queryInput this
    = match ToNumber queryInput with
      | NNaN => NowRejectedPromise (ErrCode "error.invalid.request")
      | _ => match cacheMap this !! ToPropertyKey queryInput with
             | Some obj => NowObject obj
             | None => NowUndefined
             end
      end
  ∧ (∀ this', cacheMap this' = cacheMap this →
       getObjectNow queryInput this' = getObjectNow queryInput this)
  ∧ Base.getObjectNow queryInput = DNull.
Proof.
  unfold getObjectNow, isNaN. split; [by destruct (ToNumber queryInput)|].
  split; [|done]. by intros this' ->.
Qed.

(** The rollback of a rejected delete, in general.  Let [getObjectNow]
    find the object [obj] under its id, and let no value that an index
    keys the object on spell a name that a plain object inherits.  When
    [deleteObject], called with the id or with the object, is rejected by
    the Host, the call settles after the rollback with [getObjectNow]
    finding an object under that id: without an instance class it is the
    removed object itself; with one it is what [wrapObject] has built of
    the removed object.  It is in [list], in [map] under the id, and in
    every index of the index set at its key path; the error went to
    [handleError] last. *)
Lemma rejected_delete_reinserts
    (this : CacheEndpoint) (objectOrId : ObjectOrId) (obj : nat)
    (o : gmap string Value) (err : Err) :
  heap this !! obj = Some o →
  getObjectNow (idGetter this o) this = NowObject obj →
  objectOrId = AnId (idGetter this o) ∨ objectOrId = AnObject obj →
  plainlyKeyed (indices this) o = true →
  let '(outcome, this') := deleteObject objectOrId (HostRejects err) this in
  outcome = Normal (Resolved tt)
  ∧ ∃ obj',
      getObjectNow (idGetter this o) this' = NowObject obj'
      ∧ deref this' obj' = o
      ∧ (InstanceClass this = false → obj' = obj)
      ∧ obj' ∈ cacheList this'
      ∧ cacheMap this' !! ToPropertyKey (idGetter this o) = Some obj'
      ∧ (∀ ix indexDef index, indices this' = Some ix →
           indexDef ∈ _indexDefs ix →
           byName ix !! IndexSet.indexName indexDef = Some index →
           storedAt index o obj')
      ∧ last (trace this') = Some (HandleError err).
Proof.
  intros Hobj Hnow Harg _.
  apply getObjectNow_hit in Hnow as [Hnum Hmap].
  assert (resolveId this objectOrId = Normal (idGetter this o)) as Hid.
  { destruct Harg as [-> | ->]; cbn.
    - by rewrite Hnum.
    - unfold deref. by rewrite (props_allocated _ _ _ Hobj). }
  unfold deleteObject. rewrite Hid.
  pose proof (removeFromCache_known objectOrId _ obj this Hid Hmap) as Hrm.
  destruct (removeFromCache objectOrId this) as [result this1].
  destruct Hrm as (-> & Hh1 & Hm1 & Hi1 & Hc1 & Hn1).
  set (this2 := emit _ this1).
  unfold rollback, applyChange.
  pose proof (applyChanges_unknown_record this2 obj VUndefined o) as Hadd.
  destruct (_applyChanges (Some [obj]) VUndefined this2) as [newData this3].
  destruct Hadd as (obj' & -> & Hsame & Hd3 & Hl3 & Hm3 & Hix3 & _ & Hi3).
  { unfold this2. cbn. by rewrite Hh1. }
  { unfold this2. cbn. rewrite Hm1, Hi1. apply lookup_delete_eq. }
  assert (idGetter this2 o = idGetter this o) as Hg.
  { unfold this2. cbn. by rewrite Hi1. }
  rewrite Hg in Hm3.
  split; [done|]. exists obj'. cbn. unfold deref in *. cbn.
  repeat split.
  - unfold getObjectNow. rewrite Hnum. cbn. rewrite Hm3. by rewrite lookup_insert_eq.
  - done.
  - intros Hf. apply Hsame. unfold this2. cbn. by rewrite Hc1.
  - rewrite Hl3. apply elem_of_app. right. by apply list_elem_of_singleton.
  - rewrite Hm3. apply lookup_insert_eq.
  - exact Hix3.
  - apply last_snoc.
Qed.

End RemovalFacts.

(** ** The Host *)

Section HostFacts.
Context {engine : Engine}.
Import Spec.




End HostFacts.

Section PublicFacts.
Context {prototype : Prototype}.
Import Spec Host.Public.

(** The shape the five commands share is gated, for a cache name that
    spells no name that a plain object inherits. *)
Lemma gated_command {A} (this : Instance) (cacheName command : string)
    (delegate : DataProvider → Host.World → Promise A * Host.World) :
  inherits cacheName = false →
  gated this cacheName
    (λ w, match getCacheEndpoint this cacheName with
          | None =>
              (Normal (Rejected (ErrCode "error.invalid.request")),
               Host.emit [ConsoleWarn command] w)
          | Some dataProvider =>
              if negb (hasRole this (getMinRole this)) then
                (Normal (Rejected (ErrCode "error.invalid.permissions")), w)
              else callOn dataProvider delegate w
          end)
    delegate.
Proof.
  intros Hplain w. unfold getCacheEndpoint. rewrite Hplain.
  destruct (cacheEndpoints this !! cacheName) as [dataProvider|].
  - destruct (hasRole this (getMinRole this)); cbn; [|done].
    by destruct (delegate dataProvider w).
  - cbn. repeat split. by observe.
Qed.

(** Where the registry is asked for a name that a plain object does not
    inherit, each of [fetchObject], [fetchObjects], [createObject],
    [updateObject] and [deleteObject] is gated as the specification
    says: an unregistered cache name is rejected with
    ['error.invalid.request'], store and heap untouched; a registered
    one is rejected with ['error.invalid.permissions'], nothing touched,
    when the user lacks the minimum role; and the command is what the
    named endpoint makes of the input only when the role check has
    passed. *)
Lemma public_commands_are_gated
    (this : Instance) (cacheName : string) (input : Value) :
  inherits cacheName = false →
  gated this cacheName (fetchObject this cacheName input)
        (λ dataProvider, dp_readObject dataProvider input)
  ∧ gated this cacheName (fetchObjects this cacheName input)
        (λ dataProvider, dp_readObjects dataProvider input)
  ∧ gated this cacheName (createObject this cacheName input)
        (λ dataProvider w,
           sendBackId dataProvider (dp_createObject dataProvider input true w))
  ∧ gated this cacheName (updateObject this cacheName input)
        (λ dataProvider, dp_updateObject dataProvider input true)
  ∧ gated this cacheName (deleteObject this cacheName input)
        (λ dataProvider, dp_deleteObject dataProvider input true).
Proof.
  intros Hplain. repeat split; by apply gated_command.
Qed.

End PublicFacts.

(** ** The scenarios of the specification *)

Section ScenarioFacts.
Import Client Spec Inv.

#[local] Existing Instance angular.
#[local] Existing Instance decimalEngine.
#[local] Existing Instance standardPrototype.

(** C3, witness: the record merged a second time in [Users]. *)
Lemma merge_of_equal_record_witness :
  let '(newData, this') :=
    _applyChanges (Some [2]) VUndefined Scenario.inserted in
  newData = []
  ∧ heap this' = heap Scenario.inserted
  ∧ cacheList this' = cacheList Scenario.inserted
  ∧ cacheMap this' = cacheMap Scenario.inserted
  ∧ indices this' = indices Scenario.inserted
  ∧ updatingFired (trace this')
      = updatingFired (trace Scenario.inserted) ++ [([], VUndefined)]
  ∧ updatedFired (trace this')
      = updatedFired (trace Scenario.inserted) ++ [([], VUndefined)]
  ∧ nUpdates this' = S (nUpdates Scenario.inserted).
Proof.
  apply (merge_of_equal_record_fires_empty_delta Scenario.inserted 2 1 VUndefined).
  split; [vm_compute; reflexivity|].
  apply changed_false. vm_compute. reflexivity.
Defined.

(** C3, counterexample to the wording of the specification: the second
    merge of [{id:1, email:"a@x.com"}] fires [updated] and counts. *)
Lemma merge_of_equal_record_is_not_silent :
  ¬ silentMerge 2 1 VUndefined Scenario.inserted.
Proof.
  unfold silentMerge. intros H.
  assert (mergesNothingNew 2 1 Scenario.inserted) as Hpre.
  { split; [vm_compute; reflexivity|]. apply changed_false. vm_compute. reflexivity. }
  specialize (H Hpre).
  assert (nUpdates (snd (_applyChanges (Some [2]) VUndefined Scenario.inserted)) = 2)
    as E by (vm_compute; reflexivity).
  destruct (_applyChanges _ _ _) as [newData this'].
  destruct H as (_ & _ & Hn). cbn [snd] in E. rewrite Hn in E.
  vm_compute in E. discriminate.
Qed.

(** C5, witness: the change of email in [Users]. *)
Lemma merge_preserves_identity_witness :
  let '(newData, this') :=
    _applyChanges (Some [3]) VUndefined Scenario.mergedSame in
  cacheMap this' !! "1" = Some 1
  ∧ cacheList Scenario.mergedSame `prefix_of` cacheList this'
  ∧ (∀ l, is_Some (heap Scenario.mergedSame !! l) → is_Some (heap this' !! l))
  ∧ (∀ x, x ∈ newData → ∃ k', cacheMap this' !! k' = Some x)
  ∧ (mergeStable (idGetter Scenario.mergedSame) →
     (∀ newValues, newValues ∈ [3] → known Scenario.mergedSame newValues) →
     cacheMap this' = cacheMap Scenario.mergedSame
     ∧ cacheList this' = cacheList Scenario.mergedSame
     ∧ indices this' = indices Scenario.mergedSame
     ∧ wrappedFired (trace this') = wrappedFired (trace Scenario.mergedSame)).
Proof.
  apply (merge_preserves_identity Scenario.mergedSame (Some [3]) VUndefined "1" 1).
  vm_compute. reflexivity.
Defined.

Example merge_writes_in_place :
  cacheMap Scenario.mergedEmail !! "1" = Some 1
  ∧ cacheList Scenario.mergedEmail = [1]
  ∧ deref Scenario.mergedSame 1 !! "email" = Some (VStr "a@x.com")
  ∧ deref Scenario.mergedEmail 1 !! "email" = Some (VStr "b@x.com").
Proof. vm_compute. done. Qed.


(** The same run, read off its states: the accepted update leaves the new
    name, the rejected one the old name, and Bea is as she was. *)
Example rejected_update_puts_the_name_back :
  deref Scenario.crew 1 !! "name" = Some (VStr "Ann")
  ∧ deref (snd (updateObject 3 (HostResolves VUndefined) Scenario.crew)) 1 !! "name"
    = Some (VStr "Bob")
  ∧ deref (snd (updateObject 3 (HostRejects Scenario.permissionDenied) Scenario.crew)) 1
    = deref Scenario.crew 1
  ∧ deref (snd (updateObject 3 (HostRejects Scenario.permissionDenied) Scenario.crew)) 2
    = deref Scenario.crew 2.
Proof. vm_compute. done. Qed.


(** A rejected update that carries a property the object lacks: the
    name is there, the nick has stayed, and two merges were counted. *)
Example rejected_update_leaves_nick :
  deref Scenario.people 1 !! "nick" = None
  ∧ deref Scenario.peopleAfterRejectedUpdate 1 !! "nick" = Some (VStr "A")
  ∧ deref Scenario.peopleAfterRejectedUpdate 1 !! "name" = Some (VStr "Ann")
  ∧ nUpdates Scenario.people = 1
  ∧ nUpdates Scenario.peopleAfterRejectedUpdate = 3.
Proof. vm_compute. done. Qed.

(** The rejected [deleteObject(1)] in [Users], which has no instance
    class: the removed object itself is back. *)
Lemma rejected_delete_witness :
  let ann := Scenario.user 1 "a@x.com" in
  let '(outcome, this') :=
    deleteObject (AnId (VNum 1))
      (HostRejects Scenario.permissionDenied) Scenario.inserted in
  outcome = Normal (Resolved tt)
  ∧ ∃ obj',
      getObjectNow (VNum 1) this' = NowObject obj'
      ∧ deref this' obj' = ann
      ∧ (InstanceClass Scenario.inserted = false → obj' = 1)
      ∧ obj' ∈ cacheList this'
      ∧ cacheMap this' !! "1" = Some obj'
      ∧ (∀ ix indexDef index, indices this' = Some ix →
           indexDef ∈ _indexDefs ix →
           byName ix !! IndexSet.indexName indexDef = Some index →
           storedAt index ann obj')
      ∧ last (trace this') = Some (HandleError Scenario.permissionDenied).
Proof.
  intros ann.
  apply (rejected_delete_reinserts Scenario.inserted
           (AnId (VNum 1)) 1 ann Scenario.permissionDenied).
  - vm_compute. reflexivity.
  - vm_compute. reflexivity.
  - left. reflexivity.
  - vm_compute. reflexivity.
Defined.

(** C2.  In [Users] declared with an [InstanceProto], the instance 4 is
    cached under the id 1 and indexed under its email.  After
    [deleteObject(1)] has been rejected by the Host and the rollback has
    run, [getObjectNow(1)] succeeds, but with another object: [list],
    [map] and the index on [email] hold the instance 5, which
    [wrapObject] has built of the removed one, calling [onWrapObject]
    and firing [wrapped] for it; the removed instance 4 is in none of
    them, so the rollback has not re-inserted the removed object. *)
Theorem rejected_delete_reinserts_another_instance :
  let this' :=
    snd (deleteObject (AnId (VNum 1))
           (HostRejects Scenario.permissionDenied) Scenario.profiles) in
  getObjectNow (VNum 1) Scenario.profiles = NowObject 4
  ∧ cacheList Scenario.profiles = [4]
  ∧ lookupIn Scenario.profiles "email" [VStr "a@x.com"] = Some (Index.Hit (NInst 4))
  ∧ getObjectNow (VNum 1) this' = NowObject 5
  ∧ cacheList this' = [5]
  ∧ cacheMap this' = {[ "1" := 5 ]}
  ∧ lookupIn this' "email" [VStr "a@x.com"] = Some (Index.Hit (NInst 5))
  ∧ wrappedFired (trace this') = wrappedFired (trace Scenario.profiles) ++ [5]
  ∧ ¬ reinsertsRemoved (VNum 1) 4 Scenario.permissionDenied Scenario.profiles.
Proof.
  cbv zeta. repeat split; try (vm_compute; reflexivity).
  unfold reinsertsRemoved. intros (_ & _ & Hnow).
  vm_compute in Hnow. discriminate.
Qed.


(** What the default read queries make of the values of each shape. *)
Example default_read_queries_by_shape :
  let single q := fst (Host.compileReadObjectQuery Scenario.usersConfig q Scenario.emptyWorld) in
  let multi q := fst (Host.compileReadObjectsQuery Scenario.usersConfig q Scenario.emptyWorld) in
  let invalid {A} : Promise A := Rejected (ErrCode "error.invalid.request") in
  single (VNum 7) = Resolved (VNum 7)
  ∧ single (VStr "7") = Resolved (VStr "7")
  ∧ single VNull = Resolved VNull
  ∧ single (VBool true) = Resolved (VBool true)
  ∧ single (VStr "") = Resolved (VStr "")
  ∧ single VUndefined = invalid
  ∧ single VNaN = invalid
  ∧ single (VStr "abc") = invalid
  ∧ multi VUndefined = Resolved []
  ∧ multi VNull = Resolved []
  ∧ multi (VStr "") = Resolved []
  ∧ multi (VNum 0) = Resolved []
  ∧ multi (VBool false) = Resolved []
  ∧ multi VNaN = Resolved []
  ∧ multi (VNum 7) = invalid
  ∧ multi (VStr "abc") = invalid.
Proof. vm_compute. done. Qed.

(** C8.  The Host of the scenario has the one endpoint [Users].  For the
    cache name ['constructor'], under which nothing is registered, no
    command answers with ['error.invalid.request']: what the registry
    inherits under that name is taken for the endpoint, so a user below
    the minimum role is told ['error.invalid.permissions'], and for a
    user with the role the call of the endpoint's method throws a
    TypeError.  The store is not reached. *)
Theorem inherited_cache_name_passes_for_an_endpoint :
  let visitor := Scenario.hostOf false in
  let member := Scenario.hostOf true in
  let denied {A} : Completion (Promise A) * Host.World :=
    (Normal (Rejected (ErrCode "error.invalid.permissions")), Scenario.emptyWorld) in
  let thrown {A} : Completion (Promise A) * Host.World :=
    (Throw "TypeError", Scenario.emptyWorld) in
  Host.Public.cacheEndpoints member !! "constructor" = None
  ∧ Host.Public.fetchObject visitor "constructor" (VNum 1) Scenario.emptyWorld = denied
  ∧ Host.Public.fetchObjects visitor "constructor" VUndefined Scenario.emptyWorld = denied
  ∧ Host.Public.createObject visitor "constructor" (VNum 1) Scenario.emptyWorld = denied
  ∧ Host.Public.updateObject visitor "constructor" (VNum 1) Scenario.emptyWorld = denied
  ∧ Host.Public.deleteObject visitor "constructor" (VNum 1) Scenario.emptyWorld = denied
  ∧ Host.Public.fetchObject member "constructor" (VNum 1) Scenario.emptyWorld = thrown
  ∧ Host.Public.fetchObjects member "constructor" VUndefined Scenario.emptyWorld = thrown
  ∧ Host.Public.createObject member "constructor" (VNum 1) Scenario.emptyWorld = thrown
  ∧ Host.Public.updateObject member "constructor" (VNum 1) Scenario.emptyWorld = thrown
  ∧ Host.Public.deleteObject member "constructor" (VNum 1) Scenario.emptyWorld = thrown
  ∧ ¬ gated visitor "constructor"
        (Host.Public.fetchObject visitor "constructor" (VNum 1))
        (λ dataProvider, Host.Public.dp_readObject dataProvider (VNum 1))
  ∧ ¬ gated member "constructor"
        (Host.Public.deleteObject member "constructor" (VNum 1))
        (λ dataProvider, Host.Public.dp_deleteObject dataProvider (VNum 1) true).
Proof.
  cbv zeta.
  assert (∀ mayAccess,
            Host.Public.cacheEndpoints (Scenario.hostOf mayAccess) !! "constructor" = None)
    as Hnone by (intros mayAccess; by apply lookup_singleton_ne).
  assert (∀ mayAccess,
            Host.Public.getCacheEndpoint (Scenario.hostOf mayAccess) "constructor"
            = Some Host.Public.InheritedMember) as Hget.
  { intros mayAccess. unfold Host.Public.getCacheEndpoint. by rewrite Hnone. }
  split; [apply Hnone|].
  unfold Host.Public.fetchObject, Host.Public.fetchObjects, Host.Public.createObject,
    Host.Public.updateObject, Host.Public.deleteObject, gated.
  rewrite !Hget, !Hnone. cbn.
  repeat split; try reflexivity.
  - intros H. destruct (H Scenario.emptyWorld) as [Hfst _]. discriminate.
  - intros H. destruct (H Scenario.emptyWorld) as [Hfst _]. discriminate.
Qed.

(** C10, counterexample to the wording of the specification: the number
    [0] is neither [null] nor [undefined], and [wrapObject(0)] fires no
    [wrapped]. *)
Lemma wrapObject_of_zero_fires_nothing :
  ¬ firesOnceUnlessNull true (DOther (VNum 0)) ∅
  ∧ ¬ firesOnceUnlessNull false (DOther (VNum 0)) ∅.
Proof.
  split; intros H; specialize (H eq_refl); vm_compute in H; discriminate.
Qed.

(** C9, counterexample to the wording of the specification:
    [getObjectNow("abc")] on the empty cache is a rejected promise. *)
Lemma getObjectNow_of_a_name_is_a_rejected_promise :
  ¬ missReadsUndefined (VStr "abc") Scenario.users.
Proof.
  unfold missReadsUndefined. intros Hclaim.
  assert (cacheMap Scenario.users !! ToPropertyKey (VStr "abc") = None) as Hmiss
    by (vm_compute; reflexivity).
  specialize (Hclaim Hmiss). vm_compute in Hclaim. discriminate.
Qed.

(** C4.  In [Users], after the merge of [{id:1, email:"b@x.com"}]:
    [updated] has fired once more, with the cached object, whose email
    now is ["b@x.com"]; but the index on [email] still returns that
    object for ["a@x.com"] and has nothing for ["b@x.com"]. *)
Theorem email_change_leaves_index_stale :
  updatedFired (trace Scenario.mergedEmail)
    = updatedFired (trace Scenario.mergedSame) ++ [([1], VUndefined)]
  ∧ deref Scenario.mergedEmail 1 !! "email" = Some (VStr "b@x.com")
  ∧ lookupIn Scenario.mergedEmail "email" [VStr "a@x.com"]
    = Some (Index.Hit (NInst 1))
  ∧ lookupIn Scenario.mergedEmail "email" [VStr "b@x.com"]
    = Some Index.Miss.
Proof. vm_compute. done. Qed.

(** C6.  In [Users], after that merge and [removeFromCache(1)]:
    [getObjectNow(1)] is [undefined], [list] and [map] are empty, but the
    index on [email] still returns the removed object for ["a@x.com"]. *)
Theorem removal_leaves_stale_index_entry :
  getObjectNow (VNum 1) Scenario.removed = NowUndefined
  ∧ cacheList Scenario.removed = []
  ∧ cacheMap Scenario.removed = ∅
  ∧ lookupIn Scenario.removed "email" [VStr "a@x.com"]
    = Some (Index.Hit (NInst 1)).
Proof. vm_compute. done. Qed.

End ScenarioFacts.

(** * Further properties

    What follows goes beyond the statements of the specification: the
    lookups of the indices, the protocol and the invariants of the
    merge, the remaining operations of the Client endpoint, the writes
    and reads of the Host, and the accessors of a declaration. *)

(** ** Lookups in the indices *)

Section IndexLookups.
Context {prototype : Prototype}.
Import Spec Inv.

(** What the index lacks at the key path of an object, [get] misses in a
    unique index. *)
Lemma absent_entry_is_missed index (o : gmap string Value) :
  key (_indexDef index) ≠ [] →
  unique (_indexDef index) = true →
  entryAt index o = None →
  lookup index (keyArgs index o) = Index.Miss.
Proof.
  intros Hne Hu. unfold entryAt, lookup, keyArgs, Index.get, Index._getContainerNode.
  rewrite length_fmap, Nat.eqb_refl. cbn [negb].
  rewrite removelast_fmap, <- list_fmap_compose.
  rewrite (last_fmap_ne _ _ "undefined" _ Hne).
  unfold Index.containerPath, Index.leafValue, Index.leafPropertyName.
  intros Hentry.
  change (ToPropertyKey ∘ getProp o) with (λ p, ToPropertyKey (getProp o p)).
  by rewrite Hentry, Hu.
Qed.

Lemma Index_removeInstance_indexDef h obj index :
  _indexDef (fst (Index._removeInstance h obj index)) = _indexDef index.
Proof.
  unfold Index._removeInstance. destruct (unique _); [done|].
  by destruct (Index.entries _ !! _) as [[]|].
Qed.

(** X1.  Let the key values of the object spell no name that a plain
    object inherits.  After [_addInstance(obj)], [get] with the key
    values of the object finds it: the object itself in a unique index,
    and in a non-unique one the array that was under the key, with the
    object appended.  (The key of the index is not empty.) *)
Theorem index_add_then_get h obj index :
  key (_indexDef index) ≠ [] →
  plainPath (keyPath (keyArgs index (props h obj))) = true →
  let index' := fst (Index._addInstance h obj index) in
  let o := props h obj in
  lookup index' (keyArgs index' o)
  = Index.Hit (if unique (_indexDef index) then NInst obj
               else NArr (Index.arrayOf (entryAt index o) ++ [obj])).
Proof.
  intros Hne _ index' o. apply stored_entry_is_found.
  { unfold index'. by rewrite Index_addInstance_indexDef. }
  unfold entryAt, Index._getContainerNode, index'.
  rewrite Index_addInstance_indexDef.
  unfold Index._addInstance, Index._getContainerNode.
  destruct (unique (_indexDef index)); cbn;
    rewrite descend_rebuild; cbn; by rewrite lookup_insert_eq.
Qed.

(** X2.  Let the key values of the object spell no name that a plain
    object inherits.  After [_removeInstance(obj)] on a unique index,
    [get] with the key values that the object has now returns
    [undefined]. *)
Theorem unique_index_remove_then_get h obj index :
  key (_indexDef index) ≠ [] →
  unique (_indexDef index) = true →
  plainPath (keyPath (keyArgs index (props h obj))) = true →
  let index' := fst (Index._removeInstance h obj index) in
  lookup index' (keyArgs index' (props h obj)) = Index.Miss.
Proof.
  intros Hne Hu _ index'. apply absent_entry_is_missed.
  - unfold index'. by rewrite Index_removeInstance_indexDef.
  - unfold index'. by rewrite Index_removeInstance_indexDef.
  - by apply Index_removeInstance_clears_current_key.
Qed.

End IndexLookups.

Section IndexPaths.
Import Spec Inv.

Lemma childOrNew_insert_eq node val x :
  Index.childOrNew (NLevel (<[val := x]> (Index.entries node))) val = x.
Proof. unfold Index.childOrNew. cbn. by rewrite lookup_insert_eq. Qed.

Lemma childOrNew_insert_ne node val val' x :
  val ≠ val' →
  Index.childOrNew (NLevel (<[val := x]> (Index.entries node))) val'
  = Index.childOrNew node val'.
Proof. intros. unfold Index.childOrNew. cbn. by rewrite lookup_insert_ne. Qed.

(** A write through one path is not seen through another of the same
    length. *)
Lemma descend_rebuild_other f : ∀ path path' node,
  length path = length path' → path ≠ path' →
  Index.descend path' (Index.rebuild path f node) = Index.descend path' node.
Proof.
  induction path as [|val rest IH]; intros [|val' rest'] node Hlen Hne;
    cbn in *; try done.
  destruct (decide (val = val')) as [<-|Hv].
  - rewrite childOrNew_insert_eq. apply IH; [lia|]. congruence.
  - by rewrite childOrNew_insert_ne.
Qed.

End IndexPaths.

Section IndexFrames.
Context {prototype : Prototype}.
Import Spec Inv.

(** [get] reads one entry of the tree. *)
Lemma lookup_by_entry index args :
  lookup index args
  = if negb (length args =? length (key (_indexDef index)))%nat then Index.BadArity
    else match Index.entries
                 (Index.descend (ToPropertyKey <$> removelast args) (_root index))
               !! ToPropertyKey (List.last args VUndefined) with
         | Some entry => Index.Hit entry
         | None => if unique (_indexDef index) then Index.Miss
                   else Index.Hit (NArr [])
         end.
Proof.
  unfold lookup, Index.get. destruct (negb _); [done|].
  destruct (Index.entries _ !! _); [done|]. by destruct (unique _).
Qed.

Lemma fullKey_split args :
  args ≠ [] →
  keyPath args
  = (ToPropertyKey <$> removelast args) ++ [ToPropertyKey (List.last args VUndefined)].
Proof.
  intros Hne. unfold keyPath.
  rewrite (app_removelast_last VUndefined Hne) at 1.
  by rewrite fmap_app.
Qed.

Lemma keyArgs_split index (o : gmap string Value) :
  key (_indexDef index) ≠ [] →
  keyPath (keyArgs index o)
  = Index.containerPath (_indexDef index) o ++ [Index.leafValue (_indexDef index) o].
Proof.
  intros Hne. unfold keyPath, keyArgs, Index.containerPath, Index.leafValue,
    Index.leafPropertyName.
  rewrite (app_removelast_last "undefined" Hne) at 1.
  rewrite !fmap_app. cbn. by rewrite <- list_fmap_compose.
Qed.

(** A write [g] at the key path of [o] that leaves the other leaves of
    its node alone does not change what [get] returns for another key. *)
Lemma lookup_after_write index (o : gmap string Value) g args :
  length args = length (key (_indexDef index)) →
  keyPath args ≠ keyPath (keyArgs index o) →
  (∀ node leaf, leaf ≠ Index.leafValue (_indexDef index) o →
     Index.entries (g node) !! leaf = Index.entries node !! leaf) →
  lookup {| _indexDef := _indexDef index;
            _root := Index.rebuild (Index.containerPath (_indexDef index) o) g
                       (_root index) |} args
  = lookup index args.
Proof.
  intros Hlen Hne Hg. rewrite !lookup_by_entry. cbn [_indexDef _root].
  destruct (negb _); [done|].
  assert (args ≠ []) as Hargs.
  { intros ->. apply Hne. unfold keyPath, keyArgs.
    destruct (key (_indexDef index)); [done|discriminate]. }
  assert (key (_indexDef index) ≠ []) as Hkey.
  { intros Hk. rewrite Hk in Hlen. by destruct args. }
  rewrite (fullKey_split _ Hargs), (keyArgs_split _ _ Hkey) in Hne.
  set (path := Index.containerPath (_indexDef index) o) in *.
  set (path' := ToPropertyKey <$> removelast args) in *.
  destruct (decide (path = path')) as [Hp|Hp].
  - rewrite <- Hp, descend_rebuild, Hg; [done|].
    intros Hl. apply Hne. by rewrite Hp, Hl.
  - rewrite descend_rebuild_other; [done| |done].
    unfold path, path', Index.containerPath.
    rewrite !length_fmap, !removelast_firstn_len, !length_take. lia.
Qed.

(** X3.  [_addInstance(obj)] and [_removeInstance(obj)] write at the key
    path of the object only: for arguments, as many as the key has
    properties, that spell another key, [get] returns what it returned
    before.  (Neither the key values of the object nor the arguments
    spell a name that a plain object inherits.) *)
Theorem index_other_keys_untouched h obj index args :
  length args = length (key (_indexDef index)) →
  keyPath args ≠ keyPath (keyArgs index (props h obj)) →
  plainPath (keyPath (keyArgs index (props h obj))) = true →
  plainPath (keyPath args) = true →
  lookup (fst (Index._addInstance h obj index)) args = lookup index args
  ∧ lookup (fst (Index._removeInstance h obj index)) args = lookup index args.
Proof.
  intros Hlen Hne _ _. split.
  - unfold Index._addInstance. destruct (unique (_indexDef index)); cbn [fst];
      apply lookup_after_write; try done;
      intros node leaf Hl; cbn; by rewrite lookup_insert_ne.
  - unfold Index._removeInstance. destruct (unique (_indexDef index)); cbn [fst].
    + apply lookup_after_write; try done.
      intros node leaf Hl; cbn; by rewrite lookup_delete_ne.
    + destruct (Index.entries _ !! _) as [[]|]; cbn [fst];
        apply lookup_after_write; try done;
        intros node leaf Hl; cbn; by rewrite ?lookup_insert_ne.
Qed.

End IndexFrames.

Section IndexSetFacts.
Context {prototype : Prototype}.
Import Spec Inv.

Lemma indexName_named indexDef :
  IndexSet.indexName (IndexSet.named indexDef) = IndexSet.indexName indexDef.
Proof.
  unfold IndexSet.named, IndexSet.indexName at 1. cbn.
  destruct (String.eqb _ "") eqn:E; [|done].
  apply String.eqb_eq in E. rewrite E. unfold IndexSet.indexName in *.
  destruct (name indexDef) as [n|]; [|done].
  destruct (String.eqb n "") eqn:E'; [done|].
  subst n. discriminate.
Qed.

Lemma fold_new_has indexDefs k : ∀ (this : gmap string Index),
  is_Some (this !! k)
  ∨ (∃ d, d ∈ indexDefs ∧ IndexSet.indexName d = k) →
  is_Some (foldl (λ this indexDef,
                    <[IndexSet.indexName indexDef := Index.new (IndexSet.named indexDef)]> this)
                 this indexDefs !! k).
Proof.
  induction indexDefs as [|d rest IH]; intros this Hcase; cbn.
  - destruct Hcase as [?|(x & Hx & _)]; [done|by apply elem_of_nil in Hx].
  - apply IH. destruct Hcase as [Hs|(x & Hx & Hn)].
    + left. destruct (decide (IndexSet.indexName d = k)) as [->|].
      * by rewrite lookup_insert_eq.
      * by rewrite lookup_insert_ne.
    + apply elem_of_cons in Hx as [->|Hx]; [|right; eauto].
      left. rewrite Hn. by rewrite lookup_insert_eq.
Qed.

Lemma onIndex_keeps_keys op acc indexDef k :
  is_Some (fst acc !! k) → is_Some (fst (IndexSet.onIndex op acc indexDef) !! k).
Proof.
  intros Hk. unfold IndexSet.onIndex.
  destruct (fst acc !! IndexSet.indexName indexDef) as [idx|] eqn:E; [|done].
  destruct (op idx) as [idx' evs]. cbn.
  destruct (decide (IndexSet.indexName indexDef = k)) as [->|].
  - by rewrite lookup_insert_eq.
  - by rewrite lookup_insert_ne.
Qed.

Lemma fold_onIndex_keeps_keys op indexDefs k : ∀ acc,
  is_Some (fst acc !! k) →
  is_Some (fst (foldl (IndexSet.onIndex op) acc indexDefs) !! k).
Proof.
  induction indexDefs as [|d rest IH]; intros acc Hk; cbn; [done|].
  by apply IH, onIndex_keeps_keys.
Qed.

(** X4.  The index set that the constructor builds has an index for
    each of its definitions, under the name of the definition, and
    [_addInstance] and [_removeInstance] keep it so. *)
Theorem index_set_stays_complete indexDefs :
  complete (IndexSet.new indexDefs)
  ∧ ∀ ix h obj,
      complete ix →
      complete (fst (IndexSet._addInstance h obj ix))
      ∧ complete (fst (IndexSet._removeInstance h obj ix)).
Proof.
  split.
  - intros indexDef Hin. unfold IndexSet.new in *. cbn in *.
    apply list_elem_of_fmap in Hin as (d & -> & Hd).
    rewrite indexName_named. apply fold_new_has. right. eauto.
  - intros ix h obj Hc. split; intros indexDef Hin.
    + unfold IndexSet._addInstance in *.
      pose proof (fold_onIndex_keeps_keys (Index._addInstance h obj) (_indexDefs ix)
                    (IndexSet.indexName indexDef) (byName ix, [])) as Hk.
      destruct (foldl _ _ _) as [this evs]. cbn in *. apply Hk, Hc, Hin.
    + unfold IndexSet._removeInstance in *.
      pose proof (fold_onIndex_keeps_keys (Index._removeInstance h obj) (_indexDefs ix)
                    (IndexSet.indexName indexDef) (byName ix, [])) as Hk.
      destruct (foldl _ _ _) as [this evs]. cbn in *. apply Hk, Hc, Hin.
Qed.

(** X5.  Let no value that an index of the set keys the object on spell
    a name that a plain object inherits.  After
    [IndexSet._addInstance(obj)], each index of the set (with a key that
    is not empty) finds the object under the key values of the object:
    as its one object, or in the array of the key. *)
Theorem index_set_add_then_get h obj (ix : IndexSet) indexDef index :
  let ix' := fst (IndexSet._addInstance h obj ix) in
  plainlyKeyed (Some ix) (props h obj) = true →
  indexDef ∈ _indexDefs ix' →
  byName ix' !! IndexSet.indexName indexDef = Some index →
  key (_indexDef index) ≠ [] →
  match lookup index (keyArgs index (props h obj)) with
  | Index.Hit (NInst x) => x = obj
  | Index.Hit (NArr objs) => obj ∈ objs
  | _ => False
  end.
Proof.
  intros ix' _ Hin Hidx Hkey.
  pose proof (IndexSet_addInstance_stores h obj ix indexDef index Hin Hidx) as Hst.
  unfold storedAt in Hst.
  destruct (entryAt index (props h obj)) as [entry|] eqn:E; [|done].
  by rewrite (stored_entry_is_found _ _ _ Hkey E).
Qed.

(** X6.  Let the key values of the object spell no name that a plain
    object inherits.  [_addInstance(obj)] on a unique index leaves the
    object under its key, whatever was there; it writes the error
    [Object was added twice to unique index] and the object to the
    console exactly when the key was taken. *)
Theorem unique_index_second_add_reports_and_overwrites h obj index :
  unique (_indexDef index) = true →
  plainPath (keyPath (keyArgs index (props h obj))) = true →
  let '(index', evs) := Index._addInstance h obj index in
  entryAt index' (props h obj) = Some (NInst obj)
  ∧ evs = match entryAt index (props h obj) with
          | Some _ => [ConsoleError "Object was added twice to unique index";
                       ConsoleErrorObject obj]
          | None => []
          end.
Proof.
  intros Hu _. unfold entryAt, Index._addInstance, Index._getContainerNode.
  rewrite Hu. cbn. rewrite descend_rebuild. cbn. by rewrite lookup_insert_eq.
Qed.

Lemma ownPath_all_present (o : gmap string Value) propertyNames :
  (∀ p, p ∈ propertyNames → is_Some (o !! p)) →
  Index.ownPath o propertyNames
  = (λ propertyName, ToPropertyKey (getProp o propertyName)) <$> propertyNames.
Proof.
  induction propertyNames as [|p rest IH]; intros Hall; cbn; [done|].
  destruct (Hall p ltac:(by left)) as [v Hv]. rewrite Hv.
  unfold getProp at 1. rewrite Hv. cbn. f_equal. apply IH.
  intros q Hq. apply Hall. by right.
Qed.

Lemma rebuild_id_invisible index path args g leaf :
  length path = length (removelast (key (_indexDef index))) →
  (∀ node leaf', leaf' ≠ leaf →
     Index.entries (g node) !! leaf' = Index.entries node !! leaf') →
  (let node := Index.descend path (_root index) in
   Index.entries (g node) !! leaf = Index.entries node !! leaf
   ∨ (Index.entries node !! leaf = None
      ∧ Index.entries (g node) !! leaf = Some (NArr [])
      ∧ unique (_indexDef index) = false)) →
  lookup {| _indexDef := _indexDef index;
            _root := Index.rebuild path g (_root index) |} args
  = lookup index args.
Proof.
  intros Hlen Hother Hleaf. rewrite !lookup_by_entry. cbn [_indexDef _root].
  destruct (negb _) eqn:Ha; [done|].
  apply negb_false_iff, Nat.eqb_eq in Ha.
  set (path' := ToPropertyKey <$> removelast args).
  destruct (decide (path = path')) as [Hp|Hp].
  - rewrite <- Hp, descend_rebuild.
    destruct (decide (ToPropertyKey (List.last args VUndefined) = leaf)) as [Hl|Hl].
    + rewrite Hl. cbn zeta in Hleaf. destruct Hleaf as [->|(-> & -> & ->)]; done.
    + by rewrite Hother.
  - rewrite descend_rebuild_other; [done| |done].
    rewrite Hlen. unfold path'.
    rewrite !length_fmap, !removelast_firstn_len, !length_take. lia.
Qed.

(** X7.  What [get] creates on its way, the levels and the empty array
    of a non-unique leaf, no later lookup of a full key sees: after
    [get(args)], every [get] returns what it would have returned before.
    (Both calls have as many arguments as the key has properties, and
    no argument spells a name that a plain object inherits.) *)
Theorem get_leaves_no_visible_trace index args args' :
  length args = length (key (_indexDef index)) →
  length args' = length (key (_indexDef index)) →
  plainPath (keyPath args) = true →
  plainPath (keyPath args') = true →
  ∃ index',
    snd (fst (Index.get args index)) = Some index'
    ∧ _indexDef index' = _indexDef index
    ∧ lookup index' args' = lookup index args'.
Proof.
  intros Ha _ _ _. unfold Index.get. rewrite Ha, Nat.eqb_refl. cbn [negb].
  assert (length (ToPropertyKey <$> removelast args)
          = length (removelast (key (_indexDef index)))) as Hlen.
  { rewrite !length_fmap, !removelast_firstn_len, !length_take. lia. }
  destruct (Index.entries _ !! _) as [entry|] eqn:E; cbn [fst snd].
  - eexists. split; [done|]. split; [done|].
    apply (rebuild_id_invisible index _ args' id ""); [done|done|]. by left.
  - destruct (unique (_indexDef index)) eqn:Hu; cbn [fst snd].
    + eexists. split; [done|]. split; [done|].
      apply (rebuild_id_invisible index _ args' id ""); [done|done|]. by left.
    + eexists. split; [done|]. split; [done|].
      apply (rebuild_id_invisible index _ args' _
               (ToPropertyKey (List.last args VUndefined))); [done| |].
      * intros node leaf' Hl. cbn. by rewrite lookup_insert_ne.
      * cbn. rewrite lookup_insert_eq. right. done.
Qed.

(** X8.  For an object that has every key property but the last as a
    property of its own, with values that spell no name that a plain
    object inherits, [getOrCreateNode(obj)] returns the node that
    [_getContainerNode(obj)] returns, and the levels it creates change
    no lookup of a full key. *)
Theorem getOrCreateNode_reaches_container (o : gmap string Value) index :
  (∀ p, p ∈ removelast (key (_indexDef index)) → is_Some (o !! p)) →
  plainPath (Index.containerPath (_indexDef index) o) = true →
  fst (Index.getOrCreateNode o index) = Index._getContainerNode o index
  ∧ ∀ args,
      length args = length (key (_indexDef index)) →
      plainPath (keyPath args) = true →
      lookup (snd (Index.getOrCreateNode o index)) args = lookup index args.
Proof.
  intros Hall _. unfold Index.getOrCreateNode, Index._getContainerNode,
    Index.containerPath. cbn [fst snd]. rewrite (ownPath_all_present _ _ Hall).
  split; [done|]. intros args _ _.
  apply (rebuild_id_invisible index _ args id ""); [by rewrite length_fmap|done|].
  by left.
Qed.

End IndexSetFacts.

(** ** The merge: its events and its invariants *)

Section ConsoleFacts.
Import Spec Inv.

Lemma console_is_wrapping e : isConsole e → isWrapping e.
Proof. by destruct e. Qed.

Lemma console_is_adding e : isConsole e → isAdding e.
Proof. by destruct e. Qed.

Lemma Index_addInstance_console h obj index :
  Forall isConsole (snd (Index._addInstance h obj index)).
Proof.
  unfold Index._addInstance. destruct (unique _); cbn; [|done].
  destruct (Index.entries _ !! _); [|done]. by repeat constructor.
Qed.


Lemma fold_onIndex_console op indexDefs :
  (∀ index, Forall isConsole (snd (op index))) →
  ∀ acc, Forall isConsole (snd acc) →
  Forall isConsole (snd (foldl (IndexSet.onIndex op) acc indexDefs)).
Proof.
  intros Hop. induction indexDefs as [|d rest IH]; intros acc Hacc; cbn; [done|].
  apply IH. unfold IndexSet.onIndex.
  destruct (fst acc !! _) as [index|]; [|done].
  specialize (Hop index). destruct (op index) as [index' evs]. cbn in *.
  by apply Forall_app.
Qed.

Lemma IndexSet_addInstance_console h obj ix :
  Forall isConsole (snd (IndexSet._addInstance h obj ix)).
Proof.
  unfold IndexSet._addInstance.
  pose proof (fold_onIndex_console (Index._addInstance h obj) (_indexDefs ix)
                (Index_addInstance_console h obj) (byName ix, []) ltac:(done)) as Hc.
  by destruct (foldl _ _ _).
Qed.


End ConsoleFacts.

Section MergeEvents.
Context {deepEquality : DeepEquality} {prototype : Prototype}.
Import Client Spec Inv.

Lemma addToIndices_trace obj this :
  ∃ evs, trace (addToIndices obj this) = trace this ++ evs ∧ Forall isConsole evs.
Proof.
  unfold addToIndices. destruct (indices this) as [ix|].
  - pose proof (IndexSet_addInstance_console (heap this) obj ix) as Hc.
    destruct (IndexSet._addInstance _ _ _) as [ix' evs]. by exists evs.
  - exists []. by rewrite app_nil_r.
Qed.


Lemma removeNonUpdates_trace data : ∀ newData this,
  let '(newData', this') := removeNonUpdates data newData this in
  ∃ pre, trace this' = trace this ++ pre ∧ Forall isWrapping pre.
Proof.
  induction data as [|newValues rest IH]; intros newData this; cbn [removeNonUpdates].
  { exists []. by rewrite app_nil_r. }
  set (this0 := if ToBoolean _ then this else emit _ this).
  assert (∃ evs, trace this0 = trace this ++ evs ∧ Forall isWrapping evs)
    as (evs0 & Ht0 & Hw0).
  { unfold this0. destruct (ToBoolean _).
    - exists []. by rewrite app_nil_r.
    - eexists. split; [reflexivity|]. by repeat constructor. }
  assert (∀ nd this1 evs1,
            trace this1 = trace this0 ++ evs1 → Forall isWrapping evs1 →
            let '(newData', this') := removeNonUpdates rest nd this1 in
            ∃ pre, trace this' = trace this ++ pre ∧ Forall isWrapping pre) as Hstep.
  { intros nd this1 evs1 Ht1 Hw1. specialize (IH nd this1).
    destruct (removeNonUpdates rest nd this1) as [nd' this'].
    destruct IH as (pre & Ht & Hw). exists (evs0 ++ evs1 ++ pre).
    split; [by rewrite Ht, Ht1, Ht0, <- !app_assoc|].
    by repeat apply Forall_app_2. }
  destruct (cacheMap this0 !! _) as [obj|].
  - destruct (changed _ _); apply (Hstep _ this0 []); by rewrite ?app_nil_r.
  - unfold wrap, wrapObject.
    destruct (if InstanceClass this0 then _ else _) as [obj h']. cbn.
    eapply Hstep; [reflexivity|]. by repeat constructor.
Qed.

Lemma applyUpdates_trace newData : ∀ this,
  let '(out, this') := applyUpdates newData this in
  ∃ mid, trace this' = trace this ++ mid ∧ Forall isAdding mid
         ∧ length out = length newData ∧ nUpdates this' = nUpdates this.
Proof.
  induction newData as [|newValues rest IH]; intros this; cbn [applyUpdates].
  { exists []. by rewrite app_nil_r. }
  destruct (cacheMap this !! _) as [obj|].
  - set (this1 := setHeap _ this). specialize (IH this1).
    destruct (applyUpdates rest this1) as [out this'].
    destruct IH as (mid & Ht & Hm & Hl & Hn). exists mid. cbn. by rewrite Hl.
  - set (this0 := setMap _ (setList _ this)).
    destruct (addToIndices_trace newValues this0) as (evs & Ht1 & Hc).
    pose proof (addToIndices_storage newValues this0) as (_ & _ & _ & _ & _ & Hn0 & _).
    set (this1 := emit _ _). specialize (IH this1).
    destruct (applyUpdates rest this1) as [out this'].
    destruct IH as (mid & Ht & Hm & Hl & Hn).
    exists (evs ++ [OnAddedObject newValues] ++ mid). repeat split.
    + rewrite Ht. unfold this1. cbn. rewrite Ht1. cbn. by rewrite <- !app_assoc.
    + apply Forall_app_2; [by eapply Forall_impl; [|apply console_is_adding]|].
      apply Forall_app_2; [by repeat constructor|done].
    + cbn. by rewrite Hl.
    + rewrite Hn. unfold this1. cbn. by rewrite Hn0.
Qed.

(** The trace of a merge: wrapping, [updating], adding, then
    [onCacheChanged] and [updated]. *)
Lemma applyChanges_trace data queryInput this :
  let '(newData, this') := _applyChanges data queryInput this in
  ∃ pre changedRecords mid,
    trace this'
    = trace this ++ pre ++ [Updating changedRecords queryInput] ++ mid
        ++ [OnCacheChanged newData; Updated newData queryInput]
    ∧ Forall isWrapping pre
    ∧ Forall isAdding mid
    ∧ length newData = length changedRecords
    ∧ nUpdates this' = S (nUpdates this).
Proof.
  unfold _applyChanges. destruct data as [d|].
  - pose proof (removeNonUpdates_trace d [] this) as H1.
    pose proof (removeNonUpdates_storage d [] this) as H1s.
    destruct (removeNonUpdates d [] this) as [nd this1].
    destruct H1 as (pre & Ht1 & Hw). destruct H1s as [(_ & _ & _ & Hn1 & _) _].
    pose proof (applyUpdates_trace nd (emit [Updating nd queryInput] this1)) as H2.
    destruct (applyUpdates nd _) as [out this2].
    destruct H2 as (mid & Ht2 & Ha & Hl & Hn2).
    exists pre, nd, mid. cbn. rewrite Ht2, Hn2. cbn. rewrite Ht1, Hn1.
    repeat split; try done. by rewrite <- !app_assoc.
  - exists [], [], []. cbn. by rewrite <- !app_assoc.
Qed.

Lemma omap_unobserved {A} (f : Event → option A) (P : Event → Prop) evs :
  (∀ e, P e → f e = None) → Forall P evs → omap f evs = [].
Proof.
  intros Hf. induction 1 as [|e evs He _ IH]; [done|].
  cbn. by rewrite (Hf e He), IH.
Qed.

(** A merge sends nothing to the Host, reports no error and removes
    nothing. *)
Lemma applyChanges_quiet data queryInput this :
  let this' := snd (_applyChanges data queryInput this) in
  hostCalls (trace this') = hostCalls (trace this)
  ∧ handledErrors (trace this') = handledErrors (trace this)
  ∧ removedFired (trace this') = removedFired (trace this).
Proof.
  pose proof (applyChanges_trace data queryInput this) as Ht.
  destruct (_applyChanges data queryInput this) as [newData this'].
  destruct Ht as (pre & ch & mid & Ht & Hpre & Hmid & _). cbn [snd]. rewrite Ht.
  unfold hostCalls, handledErrors, removedFired. rewrite !omap_app.
  rewrite !(omap_unobserved _ isWrapping pre), !(omap_unobserved _ isAdding mid);
    try done; try (by intros []).
  cbn. by rewrite !app_nil_r.
Qed.


End MergeEvents.

Section MergeInvariants.
Context {deepEquality : DeepEquality}.
Import Client Spec Inv.

Lemma new_keyedById cacheName getter instanceProto indexDefs h :
  keyedById (new cacheName getter instanceProto indexDefs h).
Proof. intros k obj Hk. cbn in Hk. by rewrite lookup_empty in Hk. Qed.

Lemma new_sameMembers cacheName getter instanceProto indexDefs h :
  sameMembers (new cacheName getter instanceProto indexDefs h).
Proof.
  intros obj. cbn. split.
  - intros Hin. by apply elem_of_nil in Hin.
  - intros [k Hk]. by rewrite lookup_empty in Hk.
Qed.

(** Objects that exist keep their properties when the heap only grows. *)
Lemma keyedById_transfer this this' :
  keyedById this →
  cacheMap this' = cacheMap this → idGetter this' = idGetter this →
  (∀ l o, heap this !! l = Some o → heap this' !! l = Some o) →
  keyedById this'.
Proof.
  intros Hk Hm Hi Hh k obj Hobj. rewrite Hm in Hobj.
  destruct (Hk k obj Hobj) as [[o Ho] Hkey]. split; [by eexists; apply Hh|].
  unfold keyOf, deref, props in *. by rewrite Hi, (Hh _ _ Ho), <- Hkey, Ho.
Qed.

Lemma removeNonUpdates_allocated data : ∀ newData this,
  allocated (heap this) data → allocated (heap this) newData →
  let '(newData', this') := removeNonUpdates data newData this in
  allocated (heap this') newData'.
Proof.
  induction data as [|newValues rest IH]; intros newData this Hd Hnd;
    cbn [removeNonUpdates]; [done|].
  set (this0 := if ToBoolean _ then this else emit _ this).
  assert (heap this0 = heap this) as Hh0 by (unfold this0; by destruct (ToBoolean _)).
  assert (allocated (heap this0) rest) as Hrest.
  { rewrite Hh0. intros x Hx. apply Hd. by right. }
  assert (is_Some (heap this0 !! newValues)) as Hnv.
  { rewrite Hh0. apply Hd. by left. }
  destruct (cacheMap this0 !! _) as [obj|].
  - destruct (changed _ _).
    + apply IH; [done|]. rewrite Hh0.
      intros x [?| ->%list_elem_of_singleton]%elem_of_app; [by apply Hnd|].
      by rewrite <- Hh0.
    + apply IH; [done|]. by rewrite Hh0.
  - pose proof (wrap_storage newValues this0) as Hw.
    assert (is_Some (heap (snd (wrap newValues this0)) !! fst (wrap newValues this0)))
      as Hobj.
    { unfold wrap, wrapObject, alloc. destruct (InstanceClass this0); cbn; [|done].
      by rewrite lookup_insert_eq. }
    destruct (wrap newValues this0) as [obj this1]. destruct Hw as [_ Hmono].
    cbn in Hobj. apply IH.
    + intros x Hx. destruct (Hrest x Hx) as [o Ho]. eexists. by apply Hmono.
    + intros x [Hx| ->%list_elem_of_singleton]%elem_of_app; [|done].
      destruct (Hnd x Hx) as [o Ho]. rewrite <- Hh0 in Ho. eexists. by apply Hmono.
Qed.

Lemma applyUpdates_keyed newData : ∀ this,
  mergeStable (idGetter this) → keyedById this → allocated (heap this) newData →
  let '(out, this') := applyUpdates newData this in
  keyedById this'.
Proof.
  induction newData as [|newValues rest IH]; intros this Hstable Hk Hall;
    cbn [applyUpdates]; [done|].
  destruct (cacheMap this !! _) as [obj|] eqn:Hmap.
  - set (this1 := setHeap _ this). specialize (IH this1 Hstable).
    destruct (applyUpdates rest this1) as [out this']. apply IH.
    + intros k' obj' Hobj'. unfold this1 in *. cbn in *.
      destruct (Hk k' obj' Hobj') as [Hal Hkey]. split.
      { destruct (decide (obj = obj')) as [->|];
          [by rewrite lookup_insert_eq|by rewrite lookup_insert_ne]. }
      unfold keyOf, deref in *. cbn.
      destruct (decide (obj = obj')) as [<-|Hne]; [|by rewrite props_insert_ne].
      rewrite props_insert_eq.
      destruct (Hstable (props (heap this) newValues) (props (heap this) obj))
        as [-> | ->]; [|done].
      destruct (Hk _ _ Hmap) as [_ Hkey']. unfold keyOf, deref in Hkey'. congruence.
    + intros x Hx. unfold this1. cbn.
      destruct (decide (obj = x)) as [->|];
        [by rewrite lookup_insert_eq|rewrite lookup_insert_ne; [|done]].
      apply Hall. by right.
  - set (this0 := setMap _ (setList _ this)).
    pose proof (addToIndices_storage newValues this0) as (Ha1 & _ & Ha3 & Ha4 & _).
    set (this1 := emit _ _).
    assert (heap this1 = heap this) as Hh1 by (unfold this1; cbn; by rewrite Ha1).
    assert (idGetter this1 = idGetter this) as Hi1 by (unfold this1; cbn; by rewrite Ha4).
    specialize (IH this1). rewrite Hi1 in IH. specialize (IH Hstable).
    destruct (applyUpdates rest this1) as [out this']. apply IH.
    + intros k' obj' Hobj'. unfold keyOf, deref. rewrite Hh1, Hi1.
      unfold this1 in Hobj'. cbn in Hobj'. rewrite Ha3 in Hobj'. cbn in Hobj'.
      destruct (decide (ToPropertyKey (idGetter this (deref this newValues)) = k'))
        as [<-|Hne].
      * rewrite lookup_insert_eq in Hobj'. injection Hobj' as <-.
        split; [|done]. apply Hall. by left.
      * rewrite lookup_insert_ne in Hobj'; [|done]. apply (Hk _ _ Hobj').
    + rewrite Hh1. intros x Hx. apply Hall. by right.
Qed.

Lemma applyUpdates_members newData : ∀ this,
  sameMembers this →
  let '(out, this') := applyUpdates newData this in
  sameMembers this'.
Proof.
  induction newData as [|newValues rest IH]; intros this Hs;
    cbn [applyUpdates]; [done|].
  destruct (cacheMap this !! _) as [obj|] eqn:Hmap.
  - set (this1 := setHeap _ this). specialize (IH this1).
    destruct (applyUpdates rest this1) as [out this']. by apply IH.
  - set (this0 := setMap _ (setList _ this)).
    pose proof (addToIndices_storage newValues this0) as (_ & Ha2 & Ha3 & _).
    set (this1 := emit _ _). specialize (IH this1).
    destruct (applyUpdates rest this1) as [out this']. apply IH.
    intros obj. unfold this1. cbn. rewrite Ha2, Ha3. cbn.
    rewrite elem_of_app, list_elem_of_singleton, (Hs obj). split.
    + intros [[k Hk]| ->].
      * exists k. rewrite lookup_insert_ne; [done|]. intros <-. congruence.
      * eexists. apply lookup_insert_eq.
    + intros [k Hk].
      destruct (decide (ToPropertyKey (idGetter this (deref this newValues)) = k))
        as [<-|Hne].
      * rewrite lookup_insert_eq in Hk. right. congruence.
      * rewrite lookup_insert_ne in Hk; [|done]. left. by exists k.
Qed.

Lemma applyUpdates_declaration newData : ∀ this,
  let '(out, this') := applyUpdates newData this in
  sameDeclaration this this'.
Proof.
  induction newData as [|newValues rest IH]; intros this; cbn [applyUpdates];
    [done|].
  destruct (cacheMap this !! _) as [obj|].
  - set (this1 := setHeap _ this). specialize (IH this1).
    by destruct (applyUpdates rest this1) as [out this'].
  - set (this0 := setMap _ (setList _ this)).
    pose proof (addToIndices_storage newValues this0) as (_ & _ & _ & Ha4 & Ha5 & _ & Ha7).
    set (this1 := emit _ _). specialize (IH this1).
    destruct (applyUpdates rest this1) as [out this'].
    destruct IH as (Hn & Hi & Hc). unfold this1 in *. cbn in *.
    unfold sameDeclaration. rewrite Hn, Hi, Hc, Ha4, Ha5, Ha7. done.
Qed.

(** A merge leaves the declaration alone and frees no object. *)
Lemma applyChanges_declaration data queryInput this :
  let this' := snd (_applyChanges data queryInput this) in
  sameDeclaration this this'
  ∧ ∀ l, is_Some (heap this !! l) → is_Some (heap this' !! l).
Proof.
  unfold _applyChanges. destruct data as [d|]; [|done].
  pose proof (removeNonUpdates_storage d [] this) as Hs.
  destruct (removeNonUpdates d [] this) as [nd this1].
  destruct Hs as [(_ & _ & _ & _ & Hi & Hc & Hn) Hmono].
  pose proof (applyUpdates_declaration nd (emit [Updating nd queryInput] this1)) as Hd.
  pose proof (applyUpdates_grows nd (emit [Updating nd queryInput] this1)) as Hg.
  destruct (applyUpdates nd _) as [out this2]. unfold sameDeclaration in *. cbn in *.
  destruct Hd as (Hn2 & Hi2 & Hc2). destruct Hg as (_ & _ & Hh & _).
  split; [split; [|split]; congruence|].
  intros l [o Ho]. apply Hh. eexists. by apply Hmono.
Qed.

Lemma applyChanges_keyed data queryInput this :
  mergeStable (idGetter this) →
  keyedById this →
  (∀ records, data = Some records → allocated (heap this) records) →
  keyedById (snd (_applyChanges data queryInput this)).
Proof.
  intros Hstable Hk Hall.
  unfold _applyChanges. destruct data as [d|].
  - pose proof (removeNonUpdates_storage d [] this) as Hs.
    pose proof (removeNonUpdates_allocated d [] this (Hall d eq_refl)) as Hal.
    destruct (removeNonUpdates d [] this) as [nd this1].
    destruct Hs as [(_ & Hm & _ & _ & Hi & _) Hmono].
    specialize (Hal ltac:(by intros x Hx; apply elem_of_nil in Hx)).
    pose proof (applyUpdates_keyed nd (emit [Updating nd queryInput] this1)) as Hu.
    destruct (applyUpdates nd _) as [out this2]. cbn.
    cbn in Hu. rewrite Hi in Hu.
    specialize (Hu Hstable (keyedById_transfer this this1 Hk Hm Hi Hmono) Hal).
    exact Hu.
  - cbn. exact Hk.
Qed.

Lemma applyChanges_members data queryInput this :
  sameMembers this →
  sameMembers (snd (_applyChanges data queryInput this)).
Proof.
  intros Hs. unfold _applyChanges. destruct data as [d|].
  - pose proof (removeNonUpdates_storage d [] this) as Hst.
    destruct (removeNonUpdates d [] this) as [nd this1].
    destruct Hst as [(Hl & Hm & _) _].
    pose proof (applyUpdates_members nd (emit [Updating nd queryInput] this1)) as Hu.
    destruct (applyUpdates nd _) as [out this2]. cbn. apply Hu.
    intros obj. cbn. rewrite Hl, Hm. apply Hs.
  - cbn. exact Hs.
Qed.

(** What [applyChange] has merged, [map] holds under the id of the
    record, with every property of the record. *)
Lemma applyChange_found this newValues queryInput o :
  heap this !! newValues = Some o →
  let '(result, this') := applyChange newValues queryInput this in
  ∃ obj,
    cacheMap this' !! ToPropertyKey (idGetter this o) = Some obj
    ∧ (∀ propName v, o !! propName = Some v →
         equals v (getProp (deref this' obj) propName) = true)
    ∧ match result with
      | Some x => x = obj
      | None => cacheMap this !! ToPropertyKey (idGetter this o) = Some obj
      end
    ∧ (cacheMap this !! ToPropertyKey (idGetter this o) = None →
       result = Some obj ∧ deref this' obj = o ∧ obj ∈ cacheList this'
       ∧ (InstanceClass this = false → obj = newValues)).
Proof.
  intros Hnv. unfold applyChange.
  assert (deref this newValues = o) as Hd by by apply props_allocated.
  destruct (cacheMap this !! ToPropertyKey (idGetter this o)) as [obj|] eqn:Hmap.
  - pose proof (applyChanges_cached_record this newValues queryInput obj) as Hc.
    rewrite Hd in Hc. specialize (Hc Hmap). cbn zeta in Hc.
    destruct (_applyChanges _ _ _) as [newData this'].
    destruct Hc as (-> & Hh & _ & Hm & _). exists obj. rewrite Hm.
    split; [done|]. split; [|split; [|done]].
    + intros p v Hp. unfold deref. rewrite Hh.
      destruct (changed o (deref this obj)) eqn:Hch.
      * rewrite props_insert_eq, (getProp_shallowCopy_l _ _ _ _ Hp).
        apply equals_refl.
      * by apply (proj1 (changed_false _ _) Hch).
    + by destruct (changed _ _).
  - pose proof (applyChanges_unknown_record this newValues queryInput o Hnv Hmap) as Hu.
    destruct (_applyChanges _ _ _) as [newData this'].
    destruct Hu as (obj & -> & Hsame & Hdo & Hl & Hm & _). exists obj.
    rewrite Hm, lookup_insert_eq. split; [done|]. split; [|split; [done|]].
    + intros p v Hp. rewrite Hdo. unfold getProp. rewrite Hp. apply equals_refl.
    + intros _. repeat split; try done.
      rewrite Hl. apply elem_of_app. right. by apply list_elem_of_singleton.
Qed.

End MergeInvariants.

(** ** The operations of the Client endpoint *)

Section InvariantFacts.
Context {deepEquality : DeepEquality} {engine : Engine}.
Import Client Spec Inv.

Lemma alloc_spec (o : gmap string Value) (h : gmap nat (gmap string Value)) :
  let '(obj, h') := alloc o h in
  h !! obj = None ∧ h' !! obj = Some o
  ∧ ∀ l x, h !! l = Some x → h' !! l = Some x.
Proof.
  unfold alloc. cbn. split; [|split].
  - apply not_elem_of_dom, is_fresh.
  - apply lookup_insert_eq.
  - intros l x Hl. rewrite lookup_insert_ne; [done|].
    apply fresh_not_allocated. eauto.
Qed.

Lemma allocAll_spec objects : ∀ h,
  let '(objs, h') := ClientRemote.allocAll objects h in
  allocated h' objs ∧ ∀ l x, h !! l = Some x → h' !! l = Some x.
Proof.
  induction objects as [|object rest IH]; intros h; cbn [ClientRemote.allocAll].
  { split; [|done]. intros x Hx. by apply elem_of_nil in Hx. }
  pose proof (alloc_spec object h) as Ha.
  destruct (alloc object h) as [obj h1]. destruct Ha as (_ & Hobj & Hmono).
  specialize (IH h1). destruct (ClientRemote.allocAll rest h1) as [objs h'].
  destruct IH as [Hal Hmono']. split.
  - intros x [->|Hx]%elem_of_cons; [|by apply Hal]. eexists. by apply Hmono'.
  - intros l x Hl. by apply Hmono', Hmono.
Qed.

Lemma keyedById_emit evs this : keyedById this → keyedById (emit evs this).
Proof. intros Hk. by apply (keyedById_transfer this). Qed.

Lemma keyedById_setHeap h this :
  keyedById this →
  (∀ l x, heap this !! l = Some x → h !! l = Some x) →
  keyedById (setHeap h this).
Proof. intros Hk Hh. by apply (keyedById_transfer this). Qed.

Lemma removeFromCache_keyed objectOrId this :
  keyedById this → keyedById (snd (removeFromCache objectOrId this)).
Proof.
  intros Hk.
  unfold removeFromCache. destruct (resolveId this objectOrId) as [id|e]; [|done].
  destruct (cacheMap this !! ToPropertyKey id) as [obj|] eqn:Hmap; [|done].
  set (this1 := setList _ (setMap _ this)).
  pose proof (removeFromIndices_storage obj this1) as (H1 & _ & H3 & H4 & _).
  cbn. intros k obj' Hobj'. cbn in Hobj'. rewrite H3 in Hobj'. cbn in Hobj'.
  apply lookup_delete_Some in Hobj' as [_ Hobj'].
  destruct (Hk _ _ Hobj') as [Hal Hkey]. unfold keyOf, deref in *. cbn.
  rewrite H1, H4. by split.
Qed.

Lemma applyChange_keyed obj queryInput this :
  mergeStable (idGetter this) → keyedById this → is_Some (heap this !! obj) →
  keyedById (snd (applyChange obj queryInput this)).
Proof.
  intros Hs Hk Hobj. unfold applyChange.
  pose proof (applyChanges_keyed (Some [obj]) queryInput this Hs Hk) as Hc.
  destruct (_applyChanges _ _ _) as [nd this']. cbn in *. apply Hc.
  intros records [= <-] x ->%list_elem_of_singleton. done.
Qed.

Lemma rollback_keyed origObj err this :
  mergeStable (idGetter this) → keyedById this →
  (∀ orig, origObj = Some orig → is_Some (heap this !! orig)) →
  keyedById (snd (rollback origObj err this)).
Proof.
  intros Hs Hk Horig. unfold rollback. destruct origObj as [orig|]; [|done].
  pose proof (applyChange_keyed orig VUndefined this Hs Hk (Horig _ eq_refl)) as Hc.
  destruct (applyChange orig VUndefined this) as [r this']. cbn in *.
  by apply keyedById_emit.
Qed.

(** X10.  An invariant of the Client endpoint whose accessor is stable
    under the merge: every object in [map] exists and is held under the
    key that its id spells.  [_applyChanges] (of records that exist),
    [removeFromCache], [readObject], [readObjects], [updateObject] (of an
    object that exists) and [deleteObject] keep it, whatever the Host
    replies. *)
Theorem map_stays_keyed_by_id (this : CacheEndpoint) :
  mergeStable (idGetter this) →
  keyedById this →
  (∀ data queryInput,
     (∀ records, data = Some records → allocated (heap this) records) →
     keyedById (snd (_applyChanges data queryInput this)))
  ∧ (∀ objectOrId, keyedById (snd (removeFromCache objectOrId this)))
  ∧ (∀ queryInput reply, keyedById (snd (ClientRemote.readObject queryInput reply this)))
  ∧ (∀ queryInput reply, keyedById (snd (ClientRemote.readObjects queryInput reply this)))
  ∧ (∀ queryInput reply,
       is_Some (heap this !! queryInput) →
       keyedById (snd (updateObject queryInput reply this)))
  ∧ (∀ objectOrId reply, keyedById (snd (deleteObject objectOrId reply this))).
Proof.
  intros Hs Hk. split; [|split; [|split; [|split; [|split]]]].
  - intros data queryInput Hall. by apply applyChanges_keyed.
  - intros objectOrId. by apply removeFromCache_keyed.
  - intros queryInput reply. unfold ClientRemote.readObject.
    destruct reply as [[object|]|reason]; try (by repeat apply keyedById_emit).
    pose proof (alloc_spec object (heap this)) as Ha. cbn [heap emit].
    destruct (alloc object (heap this)) as [obj h]. destruct Ha as (_ & Hobj & Hmono).
    apply applyChange_keyed; [done| |cbn; eauto].
    apply keyedById_setHeap; [by apply keyedById_emit|done].
  - intros queryInput reply. unfold ClientRemote.readObjects.
    destruct reply as [objects|reason]; [|by repeat apply keyedById_emit].
    set (this0 := emit _ (emit _ this)).
    assert (keyedById this0) as Hk0 by by repeat apply keyedById_emit.
    destruct objects as [l|].
    + pose proof (allocAll_spec l (heap this0)) as Ha.
      destruct (ClientRemote.allocAll l (heap this0)) as [objs h].
      destruct Ha as [Hal Hmono].
      pose proof (applyChanges_keyed (Some objs) queryInput (setHeap h this0) Hs
                    (keyedById_setHeap h this0 Hk0 Hmono)) as Hc.
      destruct (_applyChanges _ _ _) as [nd this']. cbn in *. apply Hc.
      by intros records [= <-].
    + pose proof (applyChanges_keyed None queryInput (setHeap (heap this0) this0) Hs
                    (keyedById_setHeap _ this0 Hk0 ltac:(done))) as Hc.
      destruct (_applyChanges _ _ _) as [nd this']. cbn in *. by apply Hc.
  - intros queryInput reply [o Ho]. unfold updateObject.
    set (id := idGetter this (deref this queryInput)).
    (* the clone *)
    assert (∃ origObj this0, cloneById id this = (origObj, this0)
              ∧ keyedById this0 ∧ idGetter this0 = idGetter this
              ∧ (∀ l, is_Some (heap this !! l) → is_Some (heap this0 !! l))
              ∧ (∀ orig, origObj = Some orig → is_Some (heap this0 !! orig)))
      as (origObj & this0 & -> & Hk0 & Hi0 & Hm0 & Horig).
    { unfold cloneById. destruct (getObjectNowById _ _) as [obj|].
      - pose proof (alloc_spec (deref this obj) (heap this)) as Ha.
        destruct (alloc _ _) as [orig h]. destruct Ha as (_ & Horig & Hmono).
        eexists _, _. split; [reflexivity|]. split; [|split; [|split]].
        + by apply keyedById_setHeap.
        + done.
        + intros l [x Hx]. eexists. cbn. by apply Hmono.
        + intros ? [= <-]. cbn. eauto.
      - eexists _, _. split; [reflexivity|]. by split; [|split; [|split]]. }
    set (this1 := if origObj is Some _ then this0 else emit _ this0).
    assert (keyedById this1 ∧ idGetter this1 = idGetter this
            ∧ heap this1 = heap this0) as (Hk1 & Hi1 & Hh1).
    { unfold this1. destruct origObj; (split; [|by split]); [done|].
      by apply keyedById_emit. }
    pose proof (applyChange_keyed queryInput VUndefined this1) as Hc.
    pose proof (applyChanges_declaration (Some [queryInput]) VUndefined this1) as Hd.
    unfold applyChange in *.
    destruct (_applyChanges (Some [queryInput]) VUndefined this1) as [nd this2].
    cbn [snd] in *. destruct Hd as [(_ & Hi2 & _) Hm2].
    rewrite Hi1, Hh1 in Hc. specialize (Hc Hs Hk1 (Hm0 _ ltac:(eauto))).
    destruct reply as [r|err]; [by apply keyedById_emit|].
    apply rollback_keyed.
    + cbn. by rewrite Hi2, Hi1.
    + by apply keyedById_emit.
    + intros orig Heq. cbn. apply Hm2. rewrite Hh1. by apply Horig.
  - intros objectOrId reply. unfold deleteObject.
    destruct (resolveId this objectOrId) as [id|e] eqn:Hid; [|done].
    pose proof (removeFromCache_keyed objectOrId this Hk) as Hr.
    assert (let '(r, this1) := removeFromCache objectOrId this in
            idGetter this1 = idGetter this
            ∧ ∀ orig, r = Normal (Some orig) → is_Some (heap this1 !! orig)) as Hr'.
    { unfold removeFromCache. rewrite Hid.
      destruct (cacheMap this !! ToPropertyKey id) as [obj|] eqn:Hmap; [|done].
      set (this1 := setList _ (setMap _ this)).
      pose proof (removeFromIndices_storage obj this1) as (H1 & _ & _ & H4 & _).
      cbn. rewrite H1, H4. split; [done|]. intros ? [= <-]. apply (Hk _ _ Hmap). }
    destruct (removeFromCache objectOrId this) as [[origObj|e] this1]; [|done].
    cbn [snd] in Hr. destruct Hr' as [Hi1 Horig].
    set (this2 := emit _ (if origObj is Some _ then this1 else emit _ this1)).
    assert (keyedById this2 ∧ idGetter this2 = idGetter this
            ∧ heap this2 = heap this1) as (Hk2 & Hi2 & Hh2).
    { unfold this2. destruct origObj; (split; [|by split]);
        by repeat apply keyedById_emit. }
    destruct reply as [r|err]; [done|].
    pose proof (rollback_keyed origObj err this2) as Hb.
    destruct (rollback origObj err this2) as [p this3]. cbn [snd] in *. apply Hb.
    + by rewrite Hi2.
    + done.
    + intros orig ->. rewrite Hh2. by apply Horig.
Qed.

End InvariantFacts.

Section DeleteFacts.
Context {deepEquality : DeepEquality} {engine : Engine}.
Import Client Spec Inv.

Lemma sameMembers_transfer this this' :
  sameMembers this →
  cacheList this' = cacheList this → cacheMap this' = cacheMap this →
  sameMembers this'.
Proof. intros Hs Hl Hm obj. rewrite Hl, Hm. apply Hs. Qed.

Lemma applyChange_members obj queryInput this :
  sameMembers this → sameMembers (snd (applyChange obj queryInput this)).
Proof.
  intros Hs. unfold applyChange.
  pose proof (applyChanges_members (Some [obj]) queryInput this Hs) as Hc.
  by destruct (_applyChanges _ _ _) as [nd this'].
Qed.

(** X11.  An invariant of the merge: [list] and [map] hold the same
    objects.  [_applyChanges], [readObject], [readObjects] and
    [updateObject] keep it, whatever the Host replies. *)
Theorem list_and_map_stay_together (this : CacheEndpoint) :
  sameMembers this →
  (∀ data queryInput, sameMembers (snd (_applyChanges data queryInput this)))
  ∧ (∀ queryInput reply, sameMembers (snd (ClientRemote.readObject queryInput reply this)))
  ∧ (∀ queryInput reply, sameMembers (snd (ClientRemote.readObjects queryInput reply this)))
  ∧ (∀ queryInput reply, sameMembers (snd (updateObject queryInput reply this))).
Proof.
  intros Hs. split; [|split; [|split]].
  - intros data queryInput. by apply applyChanges_members.
  - intros queryInput reply. unfold ClientRemote.readObject.
    destruct reply as [[object|]|reason]; try (by apply (sameMembers_transfer this)).
    destruct (alloc object _) as [obj h].
    apply applyChange_members. by apply (sameMembers_transfer this).
  - intros queryInput reply. unfold ClientRemote.readObjects.
    destruct reply as [objects|reason]; [|by apply (sameMembers_transfer this)].
    set (this0 := emit _ (emit _ this)).
    destruct (match objects with Some l => _ | None => _ end) as [data h].
    pose proof (applyChanges_members data queryInput (setHeap h this0)) as Hc.
    destruct (_applyChanges _ _ _) as [nd this']. cbn in *. apply Hc.
    by apply (sameMembers_transfer this).
  - intros queryInput reply. unfold updateObject.
    set (id := idGetter this (deref this queryInput)).
    assert (∃ origObj this0, cloneById id this = (origObj, this0)
              ∧ sameMembers this0) as (origObj & this0 & -> & Hs0).
    { unfold cloneById. destruct (getObjectNowById _ _) as [obj|].
      - destruct (alloc _ _) as [orig h]. eexists _, _. split; [reflexivity|].
        by apply (sameMembers_transfer this).
      - by eexists _, _. }
    set (this1 := if origObj is Some _ then this0 else emit _ this0).
    assert (sameMembers this1) as Hs1.
    { unfold this1. destruct origObj; [done|]. by apply (sameMembers_transfer this0). }
    pose proof (applyChange_members queryInput VUndefined this1 Hs1) as Hc.
    destruct (applyChange queryInput VUndefined this1) as [r this2]. cbn [snd] in Hc.
    destruct reply as [res|err]; [by apply (sameMembers_transfer this2)|].
    unfold rollback. destruct origObj as [orig|];
      [|by apply (sameMembers_transfer this2)].
    pose proof (applyChange_members orig VUndefined
                  (emit [HostCall "updateObject" (name this2) (AnObject queryInput)] this2)
                  ltac:(by apply (sameMembers_transfer this2))) as Hc'.
    destruct (applyChange orig VUndefined _) as [r' this3]. cbn [snd] in *.
    by apply (sameMembers_transfer this3).
Qed.


End DeleteFacts.

Section UpdateFacts.
Context {deepEquality : DeepEquality} {engine : Engine} {prototype : Prototype}.
Import Client Spec Inv.

Lemma applyChange_quiet obj queryInput this :
  let this' := snd (applyChange obj queryInput this) in
  hostCalls (trace this') = hostCalls (trace this)
  ∧ handledErrors (trace this') = handledErrors (trace this)
  ∧ removedFired (trace this') = removedFired (trace this)
  ∧ sameDeclaration this this'
  ∧ ∀ l, is_Some (heap this !! l) → is_Some (heap this' !! l).
Proof.
  unfold applyChange.
  pose proof (applyChanges_quiet (Some [obj]) queryInput this) as Hq.
  pose proof (applyChanges_declaration (Some [obj]) queryInput this) as Hd.
  destruct (_applyChanges _ _ _) as [nd this']. cbn in *.
  destruct Hq as (? & ? & ?). destruct Hd as [? ?]. done.
Qed.




End UpdateFacts.

Section RemoteFacts.
Context {deepEquality : DeepEquality} {engine : Engine} {prototype : Prototype}.
Import Client ClientRemote Spec Inv.

Lemma hostCalls_snoc evs e :
  hostCalls (evs ++ [e])
  = hostCalls evs ++ match e with HostCall _ _ _ => [e] | _ => [] end.
Proof. unfold hostCalls. rewrite omap_app. cbn. by destruct e. Qed.

Lemma handledErrors_snoc evs e :
  handledErrors (evs ++ [e])
  = handledErrors evs ++ match e with HandleError err => [err] | _ => [] end.
Proof. unfold handledErrors. rewrite omap_app. cbn. by destruct e. Qed.

(** What [readObject] does with an object of the Host. *)
Lemma readObject_found queryInput object this :
  let '(result, this') := readObject queryInput (FetchResolves (Some object)) this in
  (∃ obj,
     cacheMap this' !! ToPropertyKey (idGetter this object) = Some obj
     ∧ (∀ propName v, object !! propName = Some v →
          equals v (getProp (deref this' obj) propName) = true)
     ∧ match result with
       | Some x => x = obj
       | None => cacheMap this !! ToPropertyKey (idGetter this object) = Some obj
       end)
  ∧ hostCalls (trace this')
    = hostCalls (trace this) ++ [HostCall "fetchObject" (name this) (AnId queryInput)]
  ∧ handledErrors (trace this') = handledErrors (trace this).
Proof.
  unfold readObject. cbn [heap emit].
  pose proof (alloc_spec object (heap this)) as Ha.
  destruct (alloc object (heap this)) as [obj0 h]. destruct Ha as (_ & Hobj0 & _).
  set (this0 := setHeap h (emit _ this)).
  pose proof (applyChange_found this0 obj0 queryInput object Hobj0) as Hf.
  pose proof (applyChange_quiet obj0 queryInput this0) as Hq.
  destruct (applyChange obj0 queryInput this0) as [result this'].
  cbn [snd] in Hq. destruct Hq as (Hhc & Hhe & _).
  destruct Hf as (obj & Hobj & Hprops & Hres & _).
  split; [by exists obj|]. rewrite Hhc, Hhe. unfold this0. cbn.
  by rewrite hostCalls_snoc, handledErrors_snoc, app_nil_r.
Qed.

(** X15.  [getObject] answers from [map] when it can: a cached object
    resolves the promise and an input that is NaN rejects it, with the
    endpoint untouched and the Host not asked.  Otherwise the Host is
    asked once, with the input, and the promise resolves whatever the
    Host replies. *)
Theorem getObject_asks_the_host_only_on_a_miss
    (this : CacheEndpoint) (queryInput : Value) (reply : FetchReply (option (gmap string Value))) :
  let '(outcome, this') := getObject queryInput reply this in
  match getObjectNow queryInput this with
  | NowObject obj => outcome = Resolved (Some obj) ∧ this' = this
  | NowRejectedPromise err => outcome = Rejected err ∧ this' = this
  | NowUndefined =>
      (∃ result, outcome = Resolved result)
      ∧ hostCalls (trace this')
        = hostCalls (trace this)
            ++ [HostCall "fetchObject" (name this) (AnId queryInput)]
  end.
Proof.
  unfold getObject. destruct (getObjectNow queryInput this); [done| |done].
  destruct reply as [[object|]|reason].
  - pose proof (readObject_found queryInput object this) as Hr.
    destruct (readObject _ _ _) as [result this']. destruct Hr as (_ & Hhc & _).
    split; [by eexists|done].
  - cbn. split; [by eexists|]. unfold onError. cbn.
    by rewrite !hostCalls_snoc, app_nil_r.
  - cbn. split; [by eexists|]. unfold onError. cbn.
    by rewrite !hostCalls_snoc, app_nil_r.
Qed.


(** X17.  A read that the Host rejects resolves with [undefined] and
    leaves [list], [map], the indices, the counter and the heap as they
    were; the Host was asked once; [handleError] gets the reason if it
    is truthy, and otherwise, for no reason or a falsy one such as the
    empty string, the pair of ['cache.error.object.notFound']
    (['cache.error.objects.notFound'] for [readObjects]) and the
    input. *)
Theorem failed_read_reports_and_leaves_the_cache
    (this : CacheEndpoint) (queryInput : Value) (reason : option Err) :
  let reported code :=
    match reason with
    | Some err => if truthyReason err then err else ErrQuery code queryInput
    | None => ErrQuery code queryInput
    end in
  (let '(result, this') := readObject queryInput (FetchRejects reason) this in
   result = None
   ∧ sameStorage this this' ∧ heap this' = heap this
   ∧ handledErrors (trace this')
     = handledErrors (trace this) ++ [reported "cache.error.object.notFound"]
   ∧ hostCalls (trace this')
     = hostCalls (trace this) ++ [HostCall "fetchObject" (name this) (AnId queryInput)])
  ∧ (let '(result, this') := readObjects queryInput (FetchRejects reason) this in
     result = None
     ∧ sameStorage this this' ∧ heap this' = heap this
     ∧ handledErrors (trace this')
       = handledErrors (trace this) ++ [reported "cache.error.objects.notFound"]
     ∧ hostCalls (trace this')
       = hostCalls (trace this) ++ [HostCall "fetchObjects" (name this) (AnId queryInput)]).
Proof.
  cbv zeta. split; cbn; unfold onError, reasonOr; cbn.
  all: rewrite !hostCalls_snoc, !handledErrors_snoc, ?app_nil_r.
  all: by repeat split.
Qed.






(** X20.  [createObject], rejected by the Host, rejects with the error
    of the Host; it has no handler of its own: [handleError] is not
    called, and the cache is as it was. *)
Theorem rejected_creation_changes_nothing
    (this : CacheEndpoint) (idSetter : gmap string Value → Value → gmap string Value)
    (draft : nat) (err : Err) :
  let '(outcome, this') := createObject idSetter draft (HostRejects err) this in
  outcome = Rejected err
  ∧ sameStorage this this' ∧ heap this' = heap this
  ∧ handledErrors (trace this') = handledErrors (trace this)
  ∧ updatedFired (trace this') = updatedFired (trace this).
Proof.
  cbn. rewrite handledErrors_snoc. unfold updatedFired. rewrite omap_app. cbn.
  rewrite !app_nil_r. by repeat split.
Qed.

End RemoteFacts.

(** ** Writes and reads of the Host *)

Ltac settle :=
  unfold Spec.storeCalls, Inv.clientPushes, Spec.wrappedFired in *;
  rewrite ?omap_app; cbn; rewrite ?omap_app; cbn; rewrite ?app_nil_r; try done.

Section HostWrites.
Context {engine : Engine}.
Import Host Spec Inv.

Lemma storeCalls_app evs evs' : storeCalls (evs ++ evs') = storeCalls evs ++ storeCalls evs'.
Proof. unfold storeCalls. by rewrite omap_app. Qed.

Lemma clientPushes_app evs evs' :
  clientPushes (evs ++ evs') = clientPushes evs ++ clientPushes evs'.
Proof. unfold clientPushes. by rewrite omap_app. Qed.

Lemma wrappedFired_app evs evs' :
  wrappedFired (evs ++ evs') = wrappedFired evs ++ wrappedFired evs'.
Proof. unfold wrappedFired. by rewrite omap_app. Qed.

(** A row becomes one new object with the properties of the row,
    announced once. *)
Lemma wrapRow_spec this row w :
  let '(result, w') := wrapRow this row w in
  ∃ obj,
    result = Some obj
    ∧ heap w !! obj = None
    ∧ heap w' !! obj = Some row
    ∧ (∀ l x, heap w !! l = Some x → heap w' !! l = Some x)
    ∧ trace w' = trace w ++ [OnWrapObject (DObj obj); Wrapped (DObj obj)].
Proof.
  unfold wrapRow.
  pose proof (alloc_spec row (heap w)) as Ha.
  destruct (alloc row (heap w)) as [d h]. destruct Ha as (Hfresh & Hd & Hmono).
  unfold wrapObject. cbn [truthy negb enumerable]. destruct (InstanceClass this).
  - pose proof (alloc_spec (props h d) h) as Hb.
    destruct (alloc (props h d) h) as [obj h']. destruct Hb as (Hfresh' & Hobj & Hmono').
    exists obj. cbn. split; [done|]. split; [|split; [|split; [|done]]].
    + destruct (heap w !! obj) eqn:E; [|done]. apply Hmono in E. congruence.
    + by rewrite Hobj, (props_allocated _ _ _ Hd).
    + intros l x Hl. by apply Hmono', Hmono.
  - exists d. cbn. by repeat split.
Qed.

(** X21.  Without write permissions, [createObject], [updateObject] and
    [deleteObject] of a default Host endpoint reject with
    ['error.invalid.permissions'] and do nothing: no store call, no
    push, no output. *)
Theorem host_writes_need_write_permission
    (this : Config) (queryInput : Value) (dontSendToClient : bool) (w : World) :
  isStaff this = false →
  createObject this queryInput dontSendToClient w
    = (Rejected (ErrCode "error.invalid.permissions"), w)
  ∧ updateObject this queryInput dontSendToClient w
    = (Rejected (ErrCode "error.invalid.permissions"), w)
  ∧ deleteObject this queryInput dontSendToClient w
    = (Rejected (ErrCode "error.invalid.permissions"), w).
Proof.
  intros Hstaff.
  unfold createObject, updateObject, deleteObject, compileObjectCreate,
    compileObjectUpdate, compileObjectDelete, hasWritePermissions.
  by rewrite Hstaff.
Qed.

(** X22.  A write of a default Host endpoint reaches the store at most
    once, and exactly when its input passes: [create] needs write
    permissions; [update] needs them, an [idProperty] and an id that is
    a number; [destroy] needs them and an [idProperty].  The store is
    called with the values and, for [update] and [destroy], the
    selector on the [idProperty]. *)
Theorem host_write_reaches_the_store_once_if_valid
    (this : Config) (queryInput : Value) (dontSendToClient : bool) (w : World) :
  idProperty this ≠ Some "" →
  storeCalls (trace (snd (createObject this queryInput dontSendToClient w)))
    = storeCalls (trace w)
        ++ (if isStaff this then [ModelCreate queryInput] else [])
  ∧ storeCalls (trace (snd (updateObject this queryInput dontSendToClient w)))
    = storeCalls (trace w)
        ++ match isStaff this, idProperty this, idGetterOfValue this queryInput with
           | true, Some idProp, Normal objId =>
               if isNaN objId then []
               else [ModelUpdate queryInput (idProp, objId)]
           | _, _, _ => []
           end
  ∧ storeCalls (trace (snd (deleteObject this queryInput dontSendToClient w)))
    = storeCalls (trace w)
        ++ match isStaff this, idProperty this with
           | true, Some idProp => [ModelDestroy (idProp, queryInput)]
           | _, _ => []
           end.
Proof.
  intros _. split; [|split].
  - unfold createObject, compileObjectCreate, hasWritePermissions.
    destruct (isStaff this); cbn -[wrapRow]; [|settle].
    destruct (create _ _) as [row|err]; cbn -[wrapRow]; [|settle].
    pose proof (wrapRow_spec this row (emit [ModelCreate queryInput] w)) as Hw.
    destruct (wrapRow _ _ _) as [newObj w1].
    destruct Hw as (obj & -> & _ & _ & _ & Ht).
    destruct dontSendToClient; cbn; rewrite Ht; settle.
  - unfold updateObject, compileObjectUpdate, hasWritePermissions.
    destruct (isStaff this); cbn; [|settle].
    destruct (idProperty this) as [idProp|]; cbn; [|settle].
    destruct (idGetterOfValue this queryInput) as [objId|e]; cbn; [|settle].
    destruct (isNaN objId); cbn; [settle|].
    destruct (update _ _ _); cbn; [|settle].
    destruct dontSendToClient; settle.
  - unfold deleteObject, compileObjectDelete, hasWritePermissions.
    destruct (isStaff this); cbn; [|settle].
    destruct (idProperty this) as [idProp|]; cbn; [|settle].
    destruct (destroy _ _); cbn; [|settle].
    destruct dontSendToClient; cbn; [settle|].
    unfold sendRemove.
    destruct (if isNaN queryInput then _ else _); settle.
Qed.

(** X23.  A write of a default Host endpoint pushes to the Client at
    most once: when it resolves and [dontSendToClient] is not set, and
    then [createObject] pushes the new object, [updateObject] the values
    and [deleteObject] (of a numeric id) the id. *)
Theorem host_write_pushes_once_unless_suppressed
    (this : Config) (queryInput : Value) (dontSendToClient : bool) (w : World) :
  idProperty this ≠ Some "" →
  (let '(outcome, w') := createObject this queryInput dontSendToClient w in
   clientPushes (trace w')
   = clientPushes (trace w)
       ++ match outcome with
          | Resolved (Some newObj) =>
              if dontSendToClient then []
              else [ClientApplyChanges (name this) (Some [AnObject newObj])]
          | _ => []
          end)
  ∧ (let '(outcome, w') := updateObject this queryInput dontSendToClient w in
     clientPushes (trace w')
     = clientPushes (trace w)
         ++ match outcome with
            | Resolved _ =>
                if dontSendToClient then []
                else [ClientApplyChanges (name this)
                        (if ToBoolean queryInput then Some [AnId queryInput] else None)]
            | Rejected _ => []
            end)
  ∧ (isNaN queryInput = false →
     let '(outcome, w') := deleteObject this queryInput dontSendToClient w in
     clientPushes (trace w')
     = clientPushes (trace w)
         ++ match outcome with
            | Resolved _ =>
                if dontSendToClient then []
                else [ClientRemoveFromCache (name this) queryInput]
            | Rejected _ => []
            end).
Proof.
  intros _. split; [|split].
  - unfold createObject, compileObjectCreate, hasWritePermissions.
    destruct (isStaff this); cbn -[wrapRow]; [|settle].
    destruct (create _ _) as [row|err]; cbn -[wrapRow]; [|settle].
    pose proof (wrapRow_spec this row (emit [ModelCreate queryInput] w)) as Hw.
    destruct (wrapRow _ _ _) as [newObj w1].
    destruct Hw as (obj & -> & _ & _ & _ & Ht).
    destruct dontSendToClient; cbn; rewrite Ht; settle.
  - unfold updateObject, compileObjectUpdate, hasWritePermissions.
    destruct (isStaff this); cbn; [|settle].
    destruct (idProperty this) as [idProp|]; cbn; [|settle].
    destruct (idGetterOfValue this queryInput) as [objId|e]; cbn; [|settle].
    destruct (isNaN objId); cbn; [settle|].
    destruct (update _ _ _); cbn; [|settle].
    destruct dontSendToClient; settle.
  - intros Hnum. unfold deleteObject, compileObjectDelete, hasWritePermissions.
    destruct (isStaff this); cbn; [|settle].
    destruct (idProperty this) as [idProp|]; cbn; [|settle].
    destruct (destroy _ _); cbn; [|settle].
    destruct dontSendToClient; cbn; [settle|].
    unfold sendRemove. rewrite Hnum. settle.
Qed.

End HostWrites.

Section HostReads.
Context {engine : Engine} {prototype : Prototype}.
Import Host Spec Inv.

(** The events of wrapping the objects [objs] in turn. *)
Lemma wrapRows_spec this rows : ∀ w,
  let '(result, w') := wrapRows this rows w in
  ∃ objs,
    result = Some <$> objs
    ∧ Forall2 (λ obj row, heap w' !! obj = Some row) objs rows
    ∧ Forall (λ obj, heap w !! obj = None) objs
    ∧ (∀ l x, heap w !! l = Some x → heap w' !! l = Some x)
    ∧ wrappedFired (trace w') = wrappedFired (trace w) ++ objs
    ∧ storeCalls (trace w') = storeCalls (trace w)
    ∧ clientPushes (trace w') = clientPushes (trace w).
Proof.
  induction rows as [|row rest IH]; intros w; cbn [wrapRows].
  { exists []. rewrite app_nil_r. by repeat split. }
  pose proof (wrapRow_spec this row w) as Hw.
  destruct (wrapRow this row w) as [result w1].
  destruct Hw as (obj & -> & Hfresh & Hobj & Hmono & Ht).
  specialize (IH w1). destruct (wrapRows this rest w1) as [results w'].
  destruct IH as (objs & -> & Hall & Hfr & Hmono' & Hwf & Hsc & Hcp).
  exists (obj :: objs). split; [done|]. split; [|split; [|split]].
  - constructor; [by apply Hmono'|done].
  - constructor; [done|]. eapply Forall_impl; [exact Hfr|]. cbn.
    intros x Hx. destruct (heap w !! x) eqn:E; [|done]. apply Hmono in E. congruence.
  - intros l x Hl. by apply Hmono', Hmono.
  - rewrite Hwf, Hsc, Hcp, Ht. settle. by rewrite <- app_assoc.
Qed.

(** X24.  [readObject] of a default Host endpoint, for an input that is
    a number: a row of the store becomes the new object that the promise
    resolves with, which has the properties of the row and for which
    [wrapped] fires once; without a row the promise is rejected with the
    pair of ['cache.error.object.notFound'] and the input; an error of
    the store rejects it.  Nothing is pushed to the Client. *)
Theorem host_read_resolves_with_the_wrapped_row
    (this : Config) (queryInput : Value) (w : World) :
  isNaN queryInput = false →
  let '(outcome, w') := readObject this queryInput w in
  match find (getModel this) queryInput with
  | Resolved (Some row) =>
      ∃ obj, outcome = Resolved (Some obj)
             ∧ heap w !! obj = None
             ∧ heap w' !! obj = Some row
             ∧ wrappedFired (trace w') = wrappedFired (trace w) ++ [obj]
  | Resolved None =>
      outcome = Rejected (ErrQuery "cache.error.object.notFound" queryInput)
      ∧ heap w' = heap w
      ∧ wrappedFired (trace w') = wrappedFired (trace w)
  | Rejected err =>
      outcome = Rejected err
      ∧ heap w' = heap w
      ∧ wrappedFired (trace w') = wrappedFired (trace w)
  end
  ∧ clientPushes (trace w') = clientPushes (trace w).
Proof.
  intros Hnum. unfold readObject, compileReadObjectQuery. rewrite Hnum.
  destruct (find _ _) as [[row|]|err]; cbn -[wrapRow]; [|settle..].
  pose proof (wrapRow_spec this row (emit [ModelFind queryInput] w)) as Hw.
  destruct (wrapRow _ _ _) as [result w1].
  destruct Hw as (obj & -> & Hfresh & Hobj & _ & Ht).
  split; [exists obj; repeat split; try done|]; rewrite Ht; settle.
Qed.

(** X25.  [readObjects] of a default Host endpoint, for no input: the
    store is asked once, with the empty filter; the promise resolves
    with one new object for each row, in the order of the rows and with
    the properties of the row, and [wrapped] has fired once for each.
    Nothing is pushed to the Client. *)
Theorem host_read_wraps_every_row_in_order
    (this : Config) (queryInput : Value) (w : World) :
  ToBoolean queryInput = false →
  let '(outcome, w') := readObjects this queryInput w in
  match findAll (getModel this) [] with
  | Resolved rows =>
      ∃ objs, outcome = Resolved (Some <$> objs)
              ∧ Forall2 (λ obj row, heap w' !! obj = Some row) objs rows
              ∧ Forall (λ obj, heap w !! obj = None) objs
              ∧ wrappedFired (trace w') ≡ₚ wrappedFired (trace w) ++ objs
  | Rejected err => outcome = Rejected err ∧ heap w' = heap w
  end
  ∧ storeCalls (trace w') = storeCalls (trace w) ++ [ModelFindAll []]
  ∧ clientPushes (trace w') = clientPushes (trace w).
Proof.
  intros Hq. unfold readObjects, compileReadObjectsQuery, findObjects. rewrite Hq.
  destruct (findAll _ _) as [rows|err]; [|settle].
  pose proof (wrapRows_spec this rows (emit [ModelFindAll []] w)) as Hw.
  destruct (wrapRows _ _ _) as [results w1].
  destruct Hw as (objs & -> & Hall & Hfr & _ & Hwf & Hsc & Hcp).
  rewrite Hsc, Hcp. split; [exists objs; repeat split; try done|settle].
  rewrite Hwf. settle.
Qed.

Lemma suppressed_writes_push_nothing this queryInput w :
  clientPushes (trace (snd (createObject this queryInput true w)))
    = clientPushes (trace w)
  ∧ clientPushes (trace (snd (updateObject this queryInput true w)))
    = clientPushes (trace w)
  ∧ clientPushes (trace (snd (deleteObject this queryInput true w)))
    = clientPushes (trace w).
Proof.
  split; [|split].
  - unfold createObject, compileObjectCreate, hasWritePermissions.
    destruct (isStaff this); cbn -[wrapRow]; [|settle].
    destruct (create _ _) as [row|err]; cbn -[wrapRow]; [|settle].
    pose proof (wrapRow_spec this row (emit [ModelCreate queryInput] w)) as Hw.
    destruct (wrapRow _ _ _) as [newObj w1].
    destruct Hw as (obj & -> & _ & _ & _ & Ht). cbn. rewrite Ht. settle.
  - unfold updateObject, compileObjectUpdate, hasWritePermissions.
    destruct (isStaff this); cbn; [|settle].
    destruct (idProperty this) as [idProp|]; cbn; [|settle].
    destruct (idGetterOfValue this queryInput) as [objId|e]; cbn; [|settle].
    destruct (isNaN objId); cbn; [settle|].
    destruct (update _ _ _); settle.
  - unfold deleteObject, compileObjectDelete, hasWritePermissions.
    destruct (isStaff this); cbn; [|settle].
    destruct (idProperty this) as [idProp|]; cbn; [|settle].
    destruct (destroy _ _); settle.
Qed.

(** X26.  The public commands [createObject], [updateObject] and
    [deleteObject], on a default endpoint, never push to the Client; and
    when the user has the role and write permissions and the store
    creates the row, [createObject] resolves with the id of the row. *)
Theorem client_requested_writes_are_not_echoed
    (this : Public.Instance) (cacheName : string) (config : Config)
    (input : Value) (w : World) :
  Public.cacheEndpoints this !! cacheName = Some (defaultProvider config) →
  clientPushes (trace (snd (Public.createObject this cacheName input w)))
    = clientPushes (trace w)
  ∧ clientPushes (trace (snd (Public.updateObject this cacheName input w)))
    = clientPushes (trace w)
  ∧ clientPushes (trace (snd (Public.deleteObject this cacheName input w)))
    = clientPushes (trace w)
  ∧ (Public.hasRole this (Public.getMinRole this) = true →
     isStaff config = true →
     ∀ row, create (getModel config) input = Resolved row →
       fst (Public.createObject this cacheName input w)
       = Normal (Resolved (idGetter config row))).
Proof.
  intros Hreg.
  destruct (suppressed_writes_push_nothing config input w) as (Hc & Hu & Hd).
  unfold Public.createObject, Public.updateObject, Public.deleteObject,
    Public.getCacheEndpoint, Public.callOn. rewrite Hreg.
  destruct (Public.hasRole this _); cbn -[createObject updateObject deleteObject].
  - split; [|split; [|split]].
    + unfold Public.sendBackId.
      destruct (createObject config input true w) as [[[obj|]|err] w1]; done.
    + by destruct (updateObject config input true w).
    + by destruct (deleteObject config input true w).
    + intros _ Hstaff row Hrow. unfold Public.sendBackId.
      unfold createObject, compileObjectCreate, hasWritePermissions.
      rewrite Hstaff. cbn -[wrapRow]. rewrite Hrow.
      pose proof (wrapRow_spec config row (emit [ModelCreate input] w)) as Hw.
      destruct (wrapRow _ _ _) as [newObj w1].
      destruct Hw as (obj & -> & _ & Hobj & _). cbn.
      by rewrite (props_allocated _ _ _ Hobj).
  - by repeat split.
Qed.

End HostReads.

(** ** The accessors of a declaration *)

Section InstallerFacts.
Context {deepEquality : DeepEquality} {prototype : Prototype}.
Import Client Spec Inv.

Lemma idSetterOf_lawful idProperty :
  lawful (idGetterOf idProperty) (ClientRemote.idSetterOf idProperty).
Proof.
  intros o value. unfold idGetterOf, ClientRemote.idSetterOf, getProp.
  by rewrite lookup_insert_eq.
Qed.

Lemma identifier_name_is_declared (cacheDescriptor : Installer.CacheDescriptor) p :
  Installer.idProperty cacheDescriptor = Some p →
  isIdentifierName p = true →
  Installer.declaredIdProperty cacheDescriptor = Some p.
Proof.
  intros Hp Hname. unfold Installer.declaredIdProperty. rewrite Hp.
  by destruct p.
Qed.

(** X27.  A declaration with no accessors of its own and an
    [idProperty] that is an identifier name and that no plain object
    inherits gets a getter and a setter for that property: the setter
    writes what the getter reads and leaves the other properties, and
    the getter is stable under the merge. *)
Theorem id_property_declares_a_lawful_pair
    (cacheDescriptor : Installer.CacheDescriptor) (p : string) :
  Installer.idGetter cacheDescriptor = None →
  Installer.idSetter cacheDescriptor = None →
  Installer.idProperty cacheDescriptor = Some p →
  isIdentifierName p = true →
  inherits p = false →
  ∃ getter setter,
    Installer.settledIdGetter cacheDescriptor = Installer.Accessor getter
    ∧ Installer.settledIdSetter cacheDescriptor = Installer.Accessor setter
    ∧ lawful getter setter
    ∧ mergeStable getter
    ∧ ∀ o value propName, propName ≠ p →
        setter o value !! propName = o !! propName.
Proof.
  intros Hg Hs Hp Hname _.
  exists (idGetterOf p), (ClientRemote.idSetterOf p).
  unfold Installer.settledIdGetter, Installer.settledIdSetter, Installer.evaluated.
  rewrite Hg, Hs, (identifier_name_is_declared _ _ Hp Hname), Hname.
  repeat split.
  - apply idSetterOf_lawful.
  - apply idGetterOf_mergeStable.
  - intros o value propName Hpn. unfold ClientRemote.idSetterOf.
    by rewrite lookup_insert_ne.
Qed.


End InstallerFacts.

Section InstallerRuns.
Import Client Spec Inv.
#[local] Existing Instance angular.
#[local] Existing Instance standardPrototype.

(** X27, witness: a declaration with [idProperty: 'id']. *)
Lemma id_property_witness :
  let cacheDescriptor :=
    {| Installer.idGetter := None; Installer.idSetter := None;
       Installer.idProperty := Some "id" |} in
  ∃ getter setter,
    Installer.settledIdGetter cacheDescriptor = Installer.Accessor getter
    ∧ Installer.settledIdSetter cacheDescriptor = Installer.Accessor setter
    ∧ lawful getter setter
    ∧ mergeStable getter
    ∧ ∀ o value propName, propName ≠ "id" →
        setter o value !! propName = o !! propName.
Proof.
  intros cacheDescriptor.
  apply (id_property_declares_a_lawful_pair cacheDescriptor "id"); reflexivity.
Defined.

(** Texts that are no identifier names: the installer settles no
    accessor of the model for them. *)
Example id_property_of_other_text :
  let declaring p :=
    {| Installer.idGetter := None; Installer.idSetter := None;
       Installer.idProperty := Some p |} in
  Installer.settledIdGetter (declaring "a.b") = Installer.OtherText "a.b"
  ∧ Installer.settledIdSetter (declaring "a.b") = Installer.OtherText "a.b"
  ∧ Installer.settledIdGetter (declaring "1") = Installer.OtherText "1"
  ∧ Installer.settledIdSetter (declaring "x y") = Installer.OtherText "x y"
  ∧ Installer.settledIdGetter (declaring "") = Installer.NoAccessor.
Proof. vm_compute. done. Qed.


End InstallerRuns.

(** ** Runs *)

Section ClientRuns.
Import Client Spec Inv.

#[local] Existing Instance angular.
#[local] Existing Instance decimalEngine.
#[local] Existing Instance standardPrototype.


Lemma users_mergeStable : mergeStable (idGetter Scenario.users).
Proof. apply idGetterOf_mergeStable. Qed.

Lemma inserted_idGetter : idGetter Scenario.inserted = idGetterOf "id".
Proof. vm_compute. reflexivity. Qed.

Lemma inserted_keyedById : keyedById Scenario.inserted.
Proof.
  apply applyChanges_keyed.
  - apply users_mergeStable.
  - apply new_keyedById.
  - intros records [= <-] obj ->%list_elem_of_singleton. vm_compute. eauto.
Qed.

Lemma inserted_sameMembers : sameMembers Scenario.inserted.
Proof. apply applyChanges_members, new_sameMembers. Qed.

(** X1, witness: user 1 enters the empty index on [email]. *)
Lemma index_add_then_get_witness :
  let index := Index.new Scenario.emailIndex in
  let index' := fst (Index._addInstance Scenario.records 1 index) in
  let o := props Scenario.records 1 in
  lookup index' (keyArgs index' o)
  = Index.Hit (if unique (_indexDef index) then NInst 1
               else NArr (Index.arrayOf (entryAt index o) ++ [1])).
Proof.
  intros index.
  apply (index_add_then_get Scenario.records 1 index).
  - discriminate.
  - vm_compute. reflexivity.
Defined.

(** X2, witness: and leaves it again. *)
Lemma unique_index_remove_then_get_witness :
  let index := fst (Index._addInstance Scenario.records 1 (Index.new Scenario.emailIndex)) in
  let index' := fst (Index._removeInstance Scenario.records 1 index) in
  lookup index' (keyArgs index' (props Scenario.records 1)) = Index.Miss.
Proof.
  intros index.
  apply (unique_index_remove_then_get Scenario.records 1 index).
  - vm_compute. discriminate.
  - vm_compute. reflexivity.
  - vm_compute. reflexivity.
Defined.

(** X3, witness: the index holds record 3 under ["b@x.com"]; adding or
    removing user 1, whose email is ["a@x.com"], does not change what is
    found there. *)
Lemma index_other_keys_untouched_witness :
  let index := fst (Index._addInstance Scenario.records 3 (Index.new Scenario.emailIndex)) in
  lookup (fst (Index._addInstance Scenario.records 1 index)) [VStr "b@x.com"]
  = lookup index [VStr "b@x.com"]
  ∧ lookup (fst (Index._removeInstance Scenario.records 1 index)) [VStr "b@x.com"]
    = lookup index [VStr "b@x.com"].
Proof.
  intros index.
  apply (index_other_keys_untouched Scenario.records 1 index [VStr "b@x.com"]).
  - vm_compute. reflexivity.
  - vm_compute. discriminate.
  - vm_compute. reflexivity.
  - vm_compute. reflexivity.
Defined.

(** X7, witness: a lookup in the empty index, not unique, on [city] and
    [email]: it creates the level of the city and the empty array of
    the email, and the same lookup, asked again, returns what it would
    have returned of the empty index. *)
Lemma get_leaves_no_visible_trace_witness :
  let index :=
    Index.new {| key := ["city"; "email"]; unique := false; Base.name := None |} in
  ∃ index',
    snd (fst (Index.get [VStr "Rome"; VStr "a@x.com"] index)) = Some index'
    ∧ _indexDef index' = _indexDef index
    ∧ lookup index' [VStr "Rome"; VStr "a@x.com"]
      = lookup index [VStr "Rome"; VStr "a@x.com"].
Proof.
  intros index.
  apply (get_leaves_no_visible_trace index
           [VStr "Rome"; VStr "a@x.com"] [VStr "Rome"; VStr "a@x.com"]);
    vm_compute; reflexivity.
Defined.

(** What that lookup has created, and what it returns. *)
Example get_creates_the_level_and_the_array :
  let index :=
    Index.new {| key := ["city"; "email"]; unique := false; Base.name := None |} in
  _root index = NLevel ∅
  ∧ _root <$> snd (fst (Index.get [VStr "Rome"; VStr "a@x.com"] index))
    = Some (NLevel {[ "Rome" := NLevel {[ "a@x.com" := NArr [] ]} ]})
  ∧ lookup index [VStr "Rome"; VStr "a@x.com"] = Index.Hit (NArr [])
  ∧ lookup index [VStr "Rome"] = Index.BadArity.
Proof. vm_compute. done. Qed.

(** X6, witness: record 2 has the email of user 1, who is in the index. *)
Lemma unique_index_second_add_witness :
  let index := fst (Index._addInstance Scenario.records 1 (Index.new Scenario.emailIndex)) in
  let '(index', evs) := Index._addInstance Scenario.records 2 index in
  entryAt index' (props Scenario.records 2) = Some (NInst 2)
  ∧ evs = match entryAt index (props Scenario.records 2) with
          | Some _ => [ConsoleError "Object was added twice to unique index";
                       ConsoleErrorObject 2]
          | None => []
          end.
Proof.
  intros index.
  apply (unique_index_second_add_reports_and_overwrites Scenario.records 2 index).
  - vm_compute. reflexivity.
  - vm_compute. reflexivity.
Defined.

(** X8, witness: an index on [id] and [email], and user 1. *)
Lemma getOrCreateNode_witness :
  let index := Index.new {| key := ["id"; "email"]; unique := true; Base.name := None |} in
  let o := Scenario.user 1 "a@x.com" in
  fst (Index.getOrCreateNode o index) = Index._getContainerNode o index
  ∧ ∀ args,
      length args = length (key (_indexDef index)) →
      plainPath (keyPath args) = true →
      lookup (snd (Index.getOrCreateNode o index)) args = lookup index args.
Proof.
  intros index o.
  apply (getOrCreateNode_reaches_container o index).
  - intros p Hp. cbn in Hp. apply list_elem_of_singleton in Hp as ->.
    vm_compute. eauto.
  - vm_compute. reflexivity.
Defined.

(** X5, witness: user 1 enters the index set of [Users]. *)
Lemma index_set_add_then_get_witness :
  let index :=
    fst (Index._addInstance Scenario.records 1
           (Index.new (IndexSet.named Scenario.emailIndex))) in
  match lookup index (keyArgs index (props Scenario.records 1)) with
  | Index.Hit (NInst x) => x = 1
  | Index.Hit (NArr objs) => 1 ∈ objs
  | _ => False
  end.
Proof.
  intros index.
  apply (index_set_add_then_get Scenario.records 1
           (IndexSet.new [Scenario.emailIndex])
           (IndexSet.named Scenario.emailIndex) index).
  - vm_compute. reflexivity.
  - vm_compute. by left.
  - vm_compute. reflexivity.
  - vm_compute. discriminate.
Defined.


(** X10, witness: [Users] with user 1 in it. *)
Lemma map_stays_keyed_by_id_witness :
  keyedById (snd (removeFromCache (AnId (VNum 1)) Scenario.inserted))
  ∧ keyedById
      (snd (updateObject 3 (HostRejects Scenario.permissionDenied) Scenario.inserted)).
Proof.
  pose proof (map_stays_keyed_by_id Scenario.inserted) as W.
  rewrite inserted_idGetter in W.
  specialize (W (idGetterOf_mergeStable "id") inserted_keyedById).
  destruct W as (_ & Hremove & _ & _ & Hupdate & _).
  split; [apply Hremove|apply Hupdate]. vm_compute. eauto.
Defined.

(** X11, witness: likewise. *)
Lemma list_and_map_stay_together_witness :
  sameMembers (snd (_applyChanges (Some [3]) VUndefined Scenario.inserted))
  ∧ sameMembers
      (snd (updateObject 3 (HostRejects Scenario.permissionDenied) Scenario.inserted)).
Proof.
  destruct (list_and_map_stay_together Scenario.inserted inserted_sameMembers)
    as (Hmerge & _ & _ & Hupdate).
  split; [apply Hmerge|apply Hupdate].
Defined.





(** Reasons of a rejected read that are falsy: the pair goes to
    [handleError] in their place. *)
Example falsy_reasons_are_replaced :
  let reported reason :=
    handledErrors
      (trace (snd (ClientRemote.readObject (VNum 1) (ClientRemote.FetchRejects reason)
                     Scenario.users))) in
  let notFound := ErrQuery "cache.error.object.notFound" (VNum 1) in
  reported None = [notFound]
  ∧ reported (Some (ErrCode "")) = [notFound]
  ∧ reported (Some (ErrStore (VNum 0))) = [notFound]
  ∧ reported (Some (ErrCode "error.invalid.request"))
    = [ErrCode "error.invalid.request"].
Proof. vm_compute. done. Qed.



End ClientRuns.

Section HostRuns.
Import Host Spec Inv.

#[local] Existing Instance decimalEngine.
#[local] Existing Instance standardPrototype.

(** X21, witness: [Users] for a user who is not staff. *)
Lemma host_writes_need_write_permission_witness :
  let visitor :=
    {| name := "Users"; idProperty := Some "id"; idGetter := λ o, getProp o "id";
       InstanceClass := false; getModel := Scenario.usersModel; isStaff := false |} in
  createObject visitor (VNum 1) false Scenario.emptyWorld
    = (Rejected (ErrCode "error.invalid.permissions"), Scenario.emptyWorld)
  ∧ updateObject visitor (VNum 1) false Scenario.emptyWorld
    = (Rejected (ErrCode "error.invalid.permissions"), Scenario.emptyWorld)
  ∧ deleteObject visitor (VNum 1) false Scenario.emptyWorld
    = (Rejected (ErrCode "error.invalid.permissions"), Scenario.emptyWorld).
Proof.
  intros visitor.
  apply (host_writes_need_write_permission visitor (VNum 1) false Scenario.emptyWorld).
  reflexivity.
Defined.

(** X22, witness: a write of staff to [Users]. *)
Lemma host_write_reaches_the_store_witness :
  let this := Scenario.usersConfig in
  let queryInput := VObj 0 [("id", VNum 1); ("email", VStr "z@x.com")] in
  let w := Scenario.emptyWorld in
  storeCalls (trace (snd (createObject this queryInput false w)))
    = storeCalls (trace w)
        ++ (if isStaff this then [ModelCreate queryInput] else [])
  ∧ storeCalls (trace (snd (updateObject this queryInput false w)))
    = storeCalls (trace w)
        ++ match isStaff this, idProperty this, idGetterOfValue this queryInput with
           | true, Some idProp, Normal objId =>
               if isNaN objId then []
               else [ModelUpdate queryInput (idProp, objId)]
           | _, _, _ => []
           end
  ∧ storeCalls (trace (snd (deleteObject this queryInput false w)))
    = storeCalls (trace w)
        ++ match isStaff this, idProperty this with
           | true, Some idProp => [ModelDestroy (idProp, queryInput)]
           | _, _ => []
           end.
Proof.
  intros this queryInput w.
  apply (host_write_reaches_the_store_once_if_valid this queryInput false w).
  vm_compute. discriminate.
Defined.

(** X23, witness: the same write, and what is pushed. *)
Lemma host_write_pushes_witness :
  let this := Scenario.usersConfig in
  let queryInput := VNum 1 in
  let w := Scenario.emptyWorld in
  (let '(outcome, w') := createObject this queryInput false w in
   clientPushes (trace w')
   = clientPushes (trace w)
       ++ match outcome with
          | Resolved (Some newObj) =>
              if false then []
              else [ClientApplyChanges (name this) (Some [AnObject newObj])]
          | _ => []
          end)
  ∧ (let '(outcome, w') := updateObject this queryInput false w in
     clientPushes (trace w')
     = clientPushes (trace w)
         ++ match outcome with
            | Resolved _ =>
                if false then []
                else [ClientApplyChanges (name this)
                        (if ToBoolean queryInput then Some [AnId queryInput] else None)]
            | Rejected _ => []
            end)
  ∧ (isNaN queryInput = false →
     let '(outcome, w') := deleteObject this queryInput false w in
     clientPushes (trace w')
     = clientPushes (trace w)
         ++ match outcome with
            | Resolved _ =>
                if false then []
                else [ClientRemoveFromCache (name this) queryInput]
            | Rejected _ => []
            end).
Proof.
  intros this queryInput w.
  apply (host_write_pushes_once_unless_suppressed this queryInput false w).
  vm_compute. discriminate.
Defined.

(** X24, witness: [readObject(1)] on [Users]. *)
Lemma host_read_witness :
  let this := Scenario.usersConfig in
  let w := Scenario.emptyWorld in
  let '(outcome, w') := readObject this (VNum 1) w in
  match find (getModel this) (VNum 1) with
  | Resolved (Some row) =>
      ∃ obj, outcome = Resolved (Some obj)
             ∧ heap w !! obj = None
             ∧ heap w' !! obj = Some row
             ∧ wrappedFired (trace w') = wrappedFired (trace w) ++ [obj]
  | Resolved None =>
      outcome = Rejected (ErrQuery "cache.error.object.notFound" (VNum 1))
      ∧ heap w' = heap w
      ∧ wrappedFired (trace w') = wrappedFired (trace w)
  | Rejected err =>
      outcome = Rejected err
      ∧ heap w' = heap w
      ∧ wrappedFired (trace w') = wrappedFired (trace w)
  end
  ∧ clientPushes (trace w') = clientPushes (trace w).
Proof.
  intros this w.
  apply (host_read_resolves_with_the_wrapped_row this (VNum 1) w).
  reflexivity.
Defined.

(** X25, witness: [readObjects()] on [Users]. *)
Lemma host_read_many_witness :
  let this := Scenario.usersConfig in
  let w := Scenario.emptyWorld in
  let '(outcome, w') := readObjects this VUndefined w in
  match findAll (getModel this) [] with
  | Resolved rows =>
      ∃ objs, outcome = Resolved (Some <$> objs)
              ∧ Forall2 (λ obj row, heap w' !! obj = Some row) objs rows
              ∧ Forall (λ obj, heap w !! obj = None) objs
              ∧ wrappedFired (trace w') ≡ₚ wrappedFired (trace w) ++ objs
  | Rejected err => outcome = Rejected err ∧ heap w' = heap w
  end
  ∧ storeCalls (trace w') = storeCalls (trace w) ++ [ModelFindAll []]
  ∧ clientPushes (trace w') = clientPushes (trace w).
Proof.
  intros this w.
  apply (host_read_wraps_every_row_in_order this VUndefined w).
  reflexivity.
Defined.

(** X26, witness: a staff member creates a user through the public
    command. *)
Lemma client_requested_writes_witness :
  let this := Scenario.hostOf true in
  let w := Scenario.emptyWorld in
  clientPushes (trace (snd (Public.createObject this "Users" (VNum 1) w)))
    = clientPushes (trace w)
  ∧ clientPushes (trace (snd (Public.updateObject this "Users" (VNum 1) w)))
    = clientPushes (trace w)
  ∧ clientPushes (trace (snd (Public.deleteObject this "Users" (VNum 1) w)))
    = clientPushes (trace w)
  ∧ (Public.hasRole this (Public.getMinRole this) = true →
     isStaff Scenario.usersConfig = true →
     ∀ row, create (getModel Scenario.usersConfig) (VNum 1) = Resolved row →
       fst (Public.createObject this "Users" (VNum 1) w)
       = Normal (Resolved (idGetter Scenario.usersConfig row))).
Proof.
  intros this w.
  apply (client_requested_writes_are_not_echoed this "Users" Scenario.usersConfig
           (VNum 1) w).
  apply lookup_singleton_eq.
Defined.

End HostRuns.
